(** * A shallow embedding of the Tetris game core

    The development follows the TypeScript sources [constants.ts],
    [tetrominoes.ts] and [game.ts]: the playfield, the collision test
    [fits], piece locking with line clearing ([lockPiece]), spawning and
    the reducer [gameReducer], and proves the properties the design
    document states about them.

    Conventions of the embedding.
    - A JavaScript [number] that the game uses as an integer (rows,
      columns, rotation, score, level, line counts) is a [Z].  The game
      only adds small integers to them, so the double-precision results
      are exact below 2^53.
    - A dense array is a [list]; reading index [i] is stdpp's [l !! i],
      where [None] is JavaScript's [undefined].
    - Reading a property of [undefined] raises a [TypeError] in
      JavaScript; the embedding keeps that outcome in the [Run] type
      instead of inventing a value.
    - [randomType()] is the only source of non-determinism.  Each
      dispatch calls it at most once, so the reducer takes the drawn
      kind as an extra argument [rnd]. *)

From Stdlib Require Import ZArith Lia Bool.
From stdpp Require Import base option list numbers.
From stdpp Require strings.

#[local] Open Scope Z_scope.

(** ** constants.ts *)

Module Constants.

Definition COLS : Z := 10.
Definition ROWS : Z := 20.
Definition LINES_PER_LEVEL : Z := 10.
Definition BASE_FALL_MS : Z := 1000.
Definition MIN_FALL_MS : Z := 100.
Definition SPAWN_COL : Z := 3.
Definition SPAWN_ROW : Z := 0.

(** [LINE_SCORES] is an object with the keys 1 to 4; any other key reads
    as [undefined]. *)
Definition LINE_SCORES (k : Z) : option Z :=
  if k =? 1 then Some 100
  else if k =? 2 then Some 300
  else if k =? 3 then Some 500
  else if k =? 4 then Some 800
  else None.

End Constants.
Export Constants.

(** ** tetrominoes.ts *)

Module Tetrominoes.

(** The seven kinds, written [TetrominoType.I], ..., [TetrominoType.L]
    (the source's string literals ['I'], ..., ['L']). *)
Module TetrominoType.
Inductive t := I | O | T | S | Z | J | L.
End TetrominoType.
Abbreviation TetrominoType := TetrominoType.t.

#[export] Instance TetrominoType_eq_dec : EqDecision TetrominoType.
Proof. solve_decision. Defined.

(** A shape is an array of rows of numbers; a nonzero entry is an
    occupied cell. *)
Abbreviation ShapeMatrix := (list (list Z)).

Definition SHAPES (t : TetrominoType) : list ShapeMatrix :=
  match t with
  | TetrominoType.I =>
    [ [[0; 0; 0; 0]; [1; 1; 1; 1]; [0; 0; 0; 0]; [0; 0; 0; 0]];
      [[0; 0; 1; 0]; [0; 0; 1; 0]; [0; 0; 1; 0]; [0; 0; 1; 0]];
      [[0; 0; 0; 0]; [0; 0; 0; 0]; [1; 1; 1; 1]; [0; 0; 0; 0]];
      [[0; 1; 0; 0]; [0; 1; 0; 0]; [0; 1; 0; 0]; [0; 1; 0; 0]] ]
  | TetrominoType.O =>
    [ [[1; 1]; [1; 1]];
      [[1; 1]; [1; 1]];
      [[1; 1]; [1; 1]];
      [[1; 1]; [1; 1]] ]
  | TetrominoType.T =>
    [ [[0; 1; 0]; [1; 1; 1]; [0; 0; 0]];
      [[0; 1; 0]; [0; 1; 1]; [0; 1; 0]];
      [[0; 0; 0]; [1; 1; 1]; [0; 1; 0]];
      [[0; 1; 0]; [1; 1; 0]; [0; 1; 0]] ]
  | TetrominoType.S =>
    [ [[0; 1; 1]; [1; 1; 0]; [0; 0; 0]];
      [[0; 1; 0]; [0; 1; 1]; [0; 0; 1]];
      [[0; 0; 0]; [0; 1; 1]; [1; 1; 0]];
      [[1; 0; 0]; [1; 1; 0]; [0; 1; 0]] ]
  | TetrominoType.Z =>
    [ [[1; 1; 0]; [0; 1; 1]; [0; 0; 0]];
      [[0; 0; 1]; [0; 1; 1]; [0; 1; 0]];
      [[0; 0; 0]; [1; 1; 0]; [0; 1; 1]];
      [[0; 1; 0]; [1; 1; 0]; [1; 0; 0]] ]
  | TetrominoType.J =>
    [ [[1; 0; 0]; [1; 1; 1]; [0; 0; 0]];
      [[0; 1; 1]; [0; 1; 0]; [0; 1; 0]];
      [[0; 0; 0]; [1; 1; 1]; [0; 0; 1]];
      [[0; 1; 0]; [0; 1; 0]; [1; 1; 0]] ]
  | TetrominoType.L =>
    [ [[0; 0; 1]; [1; 1; 1]; [0; 0; 0]];
      [[0; 1; 0]; [0; 1; 0]; [0; 1; 1]];
      [[0; 0; 0]; [1; 1; 1]; [1; 0; 0]];
      [[1; 1; 0]; [0; 1; 0]; [0; 1; 0]] ]
  end.

(** [shapes[rotation % shapes.length]].  JavaScript's [%] truncates
    towards zero ([Z.rem]); a negative index reads [undefined], while
    [-0] reads element 0. *)
Definition getShape (type : TetrominoType) (rotation : Z) : option ShapeMatrix :=
  let shapes := SHAPES type in
  let i := Z.rem rotation (Z.of_nat (length shapes)) in
  if i <? 0 then None else shapes !! Z.to_nat i.

End Tetrominoes.
Export Tetrominoes.

(** ** Outcomes of a run *)

(** What can happen instead of a normal return.
    - [TypeError]: a property of [undefined] is read.
    - [SparseWrite]: an assignment beyond the end of an array, which
      leaves holes; such arrays are outside the dense lists used here.
    - [NoReturn]: a loop that does not terminate. *)
Inductive Fault := TypeError | SparseWrite | NoReturn.

Inductive Run (A : Type) :=
  | Ret (a : A)
  | Fail (f : Fault).
Arguments Ret {A} a.
Arguments Fail {A} f.

#[export] Instance Run_bind : MBind Run := fun A B k m =>
  match m with
  | Ret a => k a
  | Fail f => Fail f
  end.

(** [o] when defined; reading a property of [undefined] otherwise. *)
Definition defined {A} (o : option A) : Run A :=
  match o with
  | Some a => Ret a
  | None => Fail TypeError
  end.

(** A [for] loop over the indices [ixs] whose body may [return]: the body
    answers [Some a] for [return a] and [None] to go on. *)
Fixpoint forReturn {A} (body : nat -> Run (option A)) (ixs : list nat)
  : Run (option A) :=
  match ixs with
  | [] => Ret None
  | i :: ixs' =>
    x ← body i;
    match x with
    | Some a => Ret (Some a)
    | None => forReturn body ixs'
    end
  end.

(** A [for] loop over the indices [ixs] that updates a local variable. *)
Fixpoint forUpdate {St} (body : nat -> St -> Run St) (ixs : list nat) (s : St)
  : Run St :=
  match ixs with
  | [] => Ret s
  | i :: ixs' => s' ← body i s; forUpdate body ixs' s'
  end.

(** ** game.ts *)

Module Game.

(** [CellValue = 0 | TetrominoType]. *)
Inductive CellValue := Empty | Block (t : TetrominoType).

#[export] Instance CellValue_eq_dec : EqDecision CellValue.
Proof. solve_decision. Defined.

Abbreviation Board := (list (list CellValue)).

Inductive GameStatus := idle | playing | paused | gameover.

#[export] Instance GameStatus_eq_dec : EqDecision GameStatus.
Proof. solve_decision. Defined.

Record PieceState := mkPiece {
  type : TetrominoType;
  row : Z;
  col : Z;
  rotation : Z
}.

#[export] Instance PieceState_eq_dec : EqDecision PieceState.
Proof. solve_decision. Defined.

Record GameState := mkState {
  board : Board;
  piece : option PieceState;
  nextPiece : TetrominoType;
  holdPiece : option TetrominoType;
  canHold : bool;
  score : Z;
  level : Z;
  linesCleared : Z;
  status : GameStatus;
  lastClearedLines : Z;
  lastLocked : bool
}.

#[export] Instance GameState_eq_dec : EqDecision GameState.
Proof. solve_decision. Defined.

(** [Array(COLS).fill(0)] *)
Definition emptyRow : list CellValue := replicate (Z.to_nat COLS) Empty.

Definition createEmptyBoard : Board := replicate (Z.to_nat ROWS) emptyRow.

(** [rnd] is the kind [randomType()] returns. *)
Definition createInitialState (rnd : TetrominoType) : GameState :=
  {| board := createEmptyBoard;
     piece := None;
     nextPiece := rnd;
     holdPiece := None;
     canHold := true;
     score := 0;
     level := 1;
     linesCleared := 0;
     status := idle;
     lastClearedLines := 0;
     lastLocked := false |}.

(** Truthiness of [shape[r][c]] for a row index [r] inside the array:
    a column beyond the row reads [undefined], which is falsy. *)
Definition shapeCell (shape : ShapeMatrix) (r c : nat) : Run bool :=
  srow ← defined (shape !! r);
  Ret (match srow !! c with
       | Some v => negb (v =? 0)
       | None => false
       end).

(** Truthiness of an element of a board row. *)
Definition filled (cell : option CellValue) : bool :=
  match cell with
  | Some (Block _) => true
  | Some Empty | None => false
  end.

Definition fits (board : Board) (shape : ShapeMatrix) (row col : Z) : Run bool :=
  let h := length shape in
  srow0 ← defined (shape !! 0%nat);
  let w := length srow0 in
  res ← forReturn (fun r =>
           forReturn (fun c =>
             occ ← shapeCell shape r c;
             if negb occ then Ret None
             else
               let nr := row + Z.of_nat r in
               let nc := col + Z.of_nat c in
               if (nr <? 0) || (nr >=? ROWS) || (nc <? 0) || (nc >=? COLS)
               then Ret (Some false)
               else
                 brow ← defined (board !! Z.to_nat nr);
                 if filled (brow !! Z.to_nat nc) then Ret (Some false)
                 else Ret None)
             (seq 0 w))
           (seq 0 h);
  Ret (match res with
       | Some b => b
       | None => true
       end).

(** [newBoard[nr][nc] = v].  Writing at the end of a row appends to it;
    writing further out would leave holes. *)
Definition setCell (b : Board) (nr nc : nat) (v : CellValue) : Run Board :=
  brow ← defined (b !! nr);
  if (nc <? length brow)%nat then Ret (<[nr := <[nc := v]> brow]> b)
  else if (nc =? length brow)%nat then Ret (<[nr := brow ++ [v]]> b)
  else Fail SparseWrite.

(** The first half of [lockPiece]: the copy of the board with the
    piece's occupied cells written into it.  ([board.map(row =>
    row.slice())] copies every row, so the caller's board is not
    touched; lists are values, so the copy is the board itself.) *)
Definition stamp (board : Board) (shape : ShapeMatrix) (p : PieceState)
  : Run Board :=
  let h := length shape in
  srow0 ← defined (shape !! 0%nat);
  let w := length srow0 in
  forUpdate (fun r (newBoard : Board) =>
    forUpdate (fun c (newBoard : Board) =>
      occ ← shapeCell shape r c;
      if (occ : bool) then
        let nr := row p + Z.of_nat r in
        let nc := col p + Z.of_nat c in
        if (nr >=? 0) && (nr <? ROWS) && (nc >=? 0) && (nc <? COLS)
        then setCell newBoard (Z.to_nat nr) (Z.to_nat nc) (Block (type p))
        else Ret newBoard
      else Ret newBoard)
      (seq 0 w) newBoard)
    (seq 0 h) board.

(** [row.every((cell) => cell !== 0)] *)
Definition rowFull (brow : list CellValue) : bool :=
  forallb (fun cell => negb (bool_decide (cell = Empty))) brow.

(** The loop [for (let r = ROWS - 1; r >= 0; r--)] that collects the
    indices of the full rows, bottom row first. *)
Definition collectFullRows (newBoard : Board) : Run (list nat) :=
  forUpdate (fun r (fullRows : list nat) =>
    brow ← defined (newBoard !! r);
    Ret (if rowFull brow then fullRows ++ [r] else fullRows))
    (reverse (seq 0 (Z.to_nat ROWS))) [].

(** [l.filter((x, i) => p(x, i))], with [i] the index of the first
    element of [l]. *)
Fixpoint filterIndexed {A} (p : A -> nat -> bool) (i : nat) (l : list A)
  : list A :=
  match l with
  | [] => []
  | x :: l' =>
    if p x i then x :: filterIndexed p (S i) l' else filterIndexed p (S i) l'
  end.

(** [fullRows.includes(i)] *)
Definition includes (fullRows : list nat) (i : nat) : bool :=
  bool_decide (i ∈ fullRows).

(** Returns the new board and the number of lines cleared. *)
Definition lockPiece (board : Board) (p : PieceState) : Run (Board * Z) :=
  shape ← defined (getShape (type p) (rotation p));
  newBoard ← stamp board shape p;
  fullRows ← collectFullRows newBoard;
  let linesCleared := Z.of_nat (length fullRows) in
  if linesCleared =? 0 then Ret (newBoard, 0)
  else
    let filtered :=
      filterIndexed (fun _ i => negb (includes fullRows i)) 0 newBoard in
    let emptyRows := replicate (length fullRows) emptyRow in
    let finalBoard := emptyRows ++ filtered in
    Ret (finalBoard, linesCleared).

Definition spawnNext (nextType : TetrominoType) (board : Board)
  : Run (option PieceState) :=
  let p := {| type := nextType; row := SPAWN_ROW; col := SPAWN_COL;
              rotation := 0 |} in
  shape ← defined (getShape (type p) (rotation p));
  ok ← fits board shape (row p) (col p);
  Ret (if (ok : bool) then Some p else None).

Inductive GameAction :=
  | start | pause | resume | restart
  | move_left | move_right | move_down
  | rotate_cw | rotate_ccw | hard_drop | hold | tick.

#[export] Instance GameAction_eq_dec : EqDecision GameAction.
Proof. solve_decision. Defined.

(** The loop [while (fits(board, shape, row + 1, col)) row++] of the
    hard drop.  A shape with an occupied cell stops fitting once that
    cell is below the last row, so the loop runs its test at most
    [ROWS - row] times ([dropLoop_enough_fuel] below); a shape without
    occupied cells fits everywhere and the source loops forever, which
    the embedding reports as [NoReturn] when the fuel runs out. *)
Fixpoint dropLoop (fuel : nat) (board : Board) (shape : ShapeMatrix)
  (row col : Z) : Run Z :=
  match fuel with
  | O => Fail NoReturn
  | S fuel' =>
    ok ← fits board shape (row + 1) col;
    if (ok : bool) then dropLoop fuel' board shape (row + 1) col else Ret row
  end.

Definition dropFuel (row : Z) : nat := S (Z.to_nat (ROWS - row)).

(** The common tail of the [move_down] and [hard_drop] cases: lock the
    piece [p], score, and spawn the next piece. *)
Definition lockAndSpawn (rnd : TetrominoType) (state : GameState)
  (p : PieceState) : Run GameState :=
  '(newBoard, k) ← lockPiece (board state) p;
  let scoreAdd := default 0 (LINE_SCORES k) in
  let newLines := linesCleared state + k in
  let newLevel := newLines / LINES_PER_LEVEL + 1 in
  let next := nextPiece state in
  nextPiece' ← spawnNext next newBoard;
  match nextPiece' with
  | None =>
    Ret {| board := newBoard;
           piece := None;
           nextPiece := nextPiece state;
           holdPiece := holdPiece state;
           canHold := canHold state;
           score := score state + scoreAdd;
           level := newLevel;
           linesCleared := newLines;
           status := gameover;
           lastClearedLines := k;
           lastLocked := true |}
  | Some np =>
    Ret {| board := newBoard;
           piece := Some np;
           nextPiece := rnd;
           holdPiece := holdPiece state;
           canHold := true;
           score := score state + scoreAdd;
           level := newLevel;
           linesCleared := newLines;
           status := status state;
           lastClearedLines := k;
           lastLocked := true |}
  end.

(** [{ ...state, piece: p, lastLocked: false }] *)
Definition withPiece (state : GameState) (p : PieceState) : GameState :=
  {| board := board state;
     piece := Some p;
     nextPiece := nextPiece state;
     holdPiece := holdPiece state;
     canHold := canHold state;
     score := score state;
     level := level state;
     linesCleared := linesCleared state;
     status := status state;
     lastClearedLines := lastClearedLines state;
     lastLocked := false |}.

(** [{ ...state, status: st, lastLocked: false }] *)
Definition withStatus (state : GameState) (st : GameStatus) : GameState :=
  {| board := board state;
     piece := piece state;
     nextPiece := nextPiece state;
     holdPiece := holdPiece state;
     canHold := canHold state;
     score := score state;
     level := level state;
     linesCleared := linesCleared state;
     status := st;
     lastClearedLines := lastClearedLines state;
     lastLocked := false |}.

(** The body of the [move_down] case, which the [tick] case calls too. *)
Definition moveDown (rnd : TetrominoType) (state : GameState) : Run GameState :=
  match status state, piece state with
  | playing, Some p =>
    shape ← defined (getShape (type p) (rotation p));
    ok ← fits (board state) shape (row p + 1) (col p);
    if (ok : bool) then
      Ret (withPiece state
             {| type := type p; row := row p + 1; col := col p;
                rotation := rotation p |})
    else lockAndSpawn rnd state p
  | _, _ => Ret state
  end.

(** The reducer.  [rnd] is the kind that [randomType()] returns if this
    dispatch calls it. *)
Definition gameReducer (rnd : TetrominoType) (state : GameState)
  (action : GameAction) : Run GameState :=
  match action with
  | start =>
    if negb (bool_decide (status state = idle)) then Ret state
    else
      let next := nextPiece state in
      piece' ← spawnNext next (board state);
      match piece' with
      | None => Ret (withStatus state gameover)
      | Some p =>
        Ret {| board := board state;
               piece := Some p;
               nextPiece := rnd;
               holdPiece := holdPiece state;
               canHold := true;
               score := score state;
               level := level state;
               linesCleared := linesCleared state;
               status := playing;
               lastClearedLines := lastClearedLines state;
               lastLocked := false |}
      end
  | pause =>
    if negb (bool_decide (status state = playing)) then Ret state
    else Ret (withStatus state paused)
  | resume =>
    if negb (bool_decide (status state = paused)) then Ret state
    else Ret (withStatus state playing)
  | restart => Ret (createInitialState rnd)
  | move_left =>
    match status state, piece state with
    | playing, Some p =>
      shape ← defined (getShape (type p) (rotation p));
      ok ← fits (board state) shape (row p) (col p - 1);
      if (ok : bool) then
        Ret (withPiece state
               {| type := type p; row := row p; col := col p - 1;
                  rotation := rotation p |})
      else Ret state
    | _, _ => Ret state
    end
  | move_right =>
    match status state, piece state with
    | playing, Some p =>
      shape ← defined (getShape (type p) (rotation p));
      ok ← fits (board state) shape (row p) (col p + 1);
      if (ok : bool) then
        Ret (withPiece state
               {| type := type p; row := row p; col := col p + 1;
                  rotation := rotation p |})
      else Ret state
    | _, _ => Ret state
    end
  | move_down => moveDown rnd state
  | rotate_cw =>
    match status state, piece state with
    | playing, Some p =>
      let rot := Z.rem (rotation p + 1) 4 in
      shape ← defined (getShape (type p) rot);
      ok ← fits (board state) shape (row p) (col p);
      if (ok : bool) then
        Ret (withPiece state
               {| type := type p; row := row p; col := col p;
                  rotation := rot |})
      else Ret state
    | _, _ => Ret state
    end
  | rotate_ccw =>
    match status state, piece state with
    | playing, Some p =>
      let rot := Z.rem (rotation p + 3) 4 in
      shape ← defined (getShape (type p) rot);
      ok ← fits (board state) shape (row p) (col p);
      if (ok : bool) then
        Ret (withPiece state
               {| type := type p; row := row p; col := col p;
                  rotation := rot |})
      else Ret state
    | _, _ => Ret state
    end
  | hard_drop =>
    match status state, piece state with
    | playing, Some p =>
      shape ← defined (getShape (type p) (rotation p));
      row' ← dropLoop (dropFuel (row p)) (board state) shape (row p) (col p);
      let dropped :=
        {| type := type p; row := row'; col := col p;
           rotation := rotation p |} in
      lockAndSpawn rnd state dropped
    | _, _ => Ret state
    end
  | hold =>
    match status state, piece state, canHold state with
    | playing, Some p, true =>
      let currentType := type p in
      let spawnType :=
        match holdPiece state with
        | Some held => held
        | None => nextPiece state
        end in
      let nextPieceAfterHold :=
        match holdPiece state with
        | Some _ => nextPiece state
        | None => rnd
        end in
      let spawnedPiece :=
        {| type := spawnType; row := SPAWN_ROW; col := SPAWN_COL;
           rotation := 0 |} in
      shape ← defined (getShape (type spawnedPiece) 0);
      ok ← fits (board state) shape (row spawnedPiece) (col spawnedPiece);
      if negb ok then Ret (withStatus state gameover)
      else
        Ret {| board := board state;
               piece := Some spawnedPiece;
               nextPiece := nextPieceAfterHold;
               holdPiece := Some currentType;
               canHold := false;
               score := score state;
               level := level state;
               linesCleared := linesCleared state;
               status := status state;
               lastClearedLines := lastClearedLines state;
               lastLocked := false |}
    | _, _, _ => Ret state
    end
  | tick =>
    if negb (bool_decide (status state = playing)) then Ret state
    else moveDown rnd state
  end.

End Game.
Export Game.

(** ** Well-formed inputs *)

(** A board as [createEmptyBoard] makes it: [ROWS] rows of [COLS] cells. *)
Definition wfBoard (b : Board) : Prop :=
  length b = Z.to_nat ROWS ∧ Forall (λ brow, length brow = Z.to_nat COLS) b.

(** A shape whose rows all have the length of its first row. *)
Definition isMatrix (shape : ShapeMatrix) : Prop :=
  match shape with
  | [] => False
  | srow0 :: _ => Forall (λ srow, length srow = length srow0) shape
  end.

#[export] Instance isMatrix_dec shape : Decision (isMatrix shape).
Proof. destruct shape; apply _. Defined.

(** [shape[r][c]] is a nonzero number. *)
Definition occupied (shape : ShapeMatrix) (r c : nat) : Prop :=
  ∃ srow v, shape !! r = Some srow ∧ srow !! c = Some v ∧ v ≠ 0.

(** [board[nr][nc]], when both indices are inside their arrays. *)
Definition cellAt (b : Board) (nr nc : nat) : option CellValue :=
  b !! nr ≫= (.!! nc).

(** The cell (nr, nc) lies in [0, ROWS) x [0, COLS). *)
Definition inside (nr nc : Z) : Prop :=
  0 <= nr < ROWS ∧ 0 <= nc < COLS.

(** The cell (nr, nc) of the board holds a block. *)
Definition blocked (b : Board) (nr nc : Z) : Prop :=
  ∃ t, cellAt b (Z.to_nat nr) (Z.to_nat nc) = Some (Block t).

(** The occupied cell (r, c) of a shape placed at (row, col) cannot be
    put there: it falls outside the playfield or on a block. *)
Definition collides (b : Board) (shape : ShapeMatrix) (row col : Z)
  (r c : nat) : Prop :=
  occupied shape r c ∧
  (¬ inside (row + Z.of_nat r) (col + Z.of_nat c)
   ∨ blocked b (row + Z.of_nat r) (col + Z.of_nat c)).

(** ** The collision test as a formula *)

(** Truthiness of [shape[r][c]] as a total function. *)
Definition shapeAt (shape : ShapeMatrix) (r c : nat) : bool :=
  match shape !! r ≫= (.!! c) with
  | Some v => negb (v =? 0)
  | None => false
  end.

(** The test one iteration of the inner loop of [fits] makes. *)
Definition collidesb (b : Board) (shape : ShapeMatrix) (row col : Z)
  (r c : nat) : bool :=
  shapeAt shape r c &&
  ((row + Z.of_nat r <? 0) || (row + Z.of_nat r >=? ROWS)
   || (col + Z.of_nat c <? 0) || (col + Z.of_nat c >=? COLS)
   || filled (cellAt b (Z.to_nat (row + Z.of_nat r))
                       (Z.to_nat (col + Z.of_nat c)))).


(** ** Locking as formulas *)

(** The piece [p] with shape [shape] covers the board cell (nr, nc). *)
Definition covers (shape : ShapeMatrix) (p : PieceState) (nr nc : nat) : Prop :=
  ∃ r c, occupied shape r c
         ∧ row p + Z.of_nat r = Z.of_nat nr
         ∧ col p + Z.of_nat c = Z.of_nat nc.

(** What one iteration of the inner loop of [stamp] does to a board
    that has the row it writes to. *)
Definition paint (shape : ShapeMatrix) (p : PieceState) (r : nat)
  (newBoard : Board) (c : nat) : Board :=
  let nr := row p + Z.of_nat r in
  let nc := col p + Z.of_nat c in
  if shapeAt shape r c && ((nr >=? 0) && (nr <? ROWS) && (nc >=? 0) && (nc <? COLS))
  then match newBoard !! Z.to_nat nr with
       | Some brow =>
         <[Z.to_nat nr := <[Z.to_nat nc := Block (type p)]> brow]> newBoard
       | None => newBoard
       end
  else newBoard.

(** The shape cell (r, c) of the piece lands on the board cell (nr, nc). *)
Definition hits (shape : ShapeMatrix) (p : PieceState) (nr nc r c : nat) : bool :=
  shapeAt shape r c
  && (row p + Z.of_nat r =? Z.of_nat nr)
  && (col p + Z.of_nat c =? Z.of_nat nc).

(** The stamped board as nested folds of [paint]. *)
Definition stamped (board : Board) (shape : ShapeMatrix) (w : nat)
  (p : PieceState) : Board :=
  foldl (λ nb r, foldl (paint shape p r) nb (seq 0 w)) board
        (seq 0 (length shape)).

(** [newBoard[r].every(...)] for a row index inside the board. *)
Definition fullAt (b : Board) (r : nat) : bool :=
  match b !! r with
  | Some brow => rowFull brow
  | None => false
  end.

(** Line clearing as one formula over the code's test [rowFull]: the
    rows it accepts are removed at once, the other rows keep their
    order, and as many empty rows as were removed are put on top; the
    count of removed rows is reported. *)
Definition clearRows (b : Board) : Board * Z :=
  let k := length (List.filter rowFull b) in
  (replicate k emptyRow ++ List.filter (λ brow, negb (rowFull brow)) b,
   Z.of_nat k).

(** A full row, as the design document has it: none of its cells is
    empty. *)
Definition fullRow (brow : list CellValue) : Prop :=
  ∀ nc, brow !! nc ≠ Some Empty.

(** [cleared nb kept k]: [kept] is the board [nb] without its full rows,
    the other rows in the order they had, and [k] rows were removed. *)
Inductive cleared : Board → Board → nat → Prop :=
  | cleared_nil : cleared [] [] 0
  | cleared_full brow nb kept k :
      fullRow brow → cleared nb kept k → cleared (brow :: nb) kept (S k)
  | cleared_keep brow nb kept k :
      ¬ fullRow brow → cleared nb kept k →
      cleared (brow :: nb) (brow :: kept) k.

(** A shape with at least one occupied cell. *)
Definition nonEmptyShape (shape : ShapeMatrix) : Prop :=
  ∃ r c, occupied shape r c.

(** ** Transitions *)

(** The piece a dispatch locks, if it locks one: the active piece when
    [move_down] or [tick] cannot advance it, the dropped piece on
    [hard_drop].  This follows the control flow of [gameReducer] up to
    its calls of [lockPiece]. *)
Definition lockTarget (state : GameState) (action : GameAction)
  : Run (option PieceState) :=
  match action with
  | move_down | tick =>
    match status state, piece state with
    | playing, Some p =>
      shape ← defined (getShape (type p) (rotation p));
      ok ← fits (board state) shape (row p + 1) (col p);
      Ret (if (ok : bool) then None else Some p)
    | _, _ => Ret None
    end
  | hard_drop =>
    match status state, piece state with
    | playing, Some p =>
      shape ← defined (getShape (type p) (rotation p));
      row' ← dropLoop (dropFuel (row p)) (board state) shape (row p) (col p);
      Ret (Some {| type := type p; row := row'; col := col p;
                   rotation := rotation p |})
    | _, _ => Ret None
    end
  | _ => Ret None
  end.

(** The piece fits the board where it is. *)
Definition pieceFits (b : Board) (p : PieceState) : Prop :=
  ∃ shape, getShape (type p) (rotation p) = Some shape
           ∧ fits b shape (row p) (col p) = Ret true.

(** The piece [spawnNext] tries to place. *)
Definition spawnPiece (t : TetrominoType) : PieceState :=
  {| type := t; row := SPAWN_ROW; col := SPAWN_COL; rotation := 0 |}.

(** The ways a dispatch can return, read off the [return] statements of
    [gameReducer]. *)
Inductive Outcome (rnd : TetrominoType) (s : GameState)
  : GameAction → GameState → Prop :=
  | out_same a :
      lockTarget s a = Ret None →
      Outcome rnd s a s
  | out_pause :
      status s = playing →
      Outcome rnd s pause (withStatus s paused)
  | out_resume :
      status s = paused →
      Outcome rnd s resume (withStatus s playing)
  | out_restart :
      Outcome rnd s restart (createInitialState rnd)
  | out_start_fail :
      status s = idle →
      spawnNext (nextPiece s) (board s) = Ret None →
      Outcome rnd s start (withStatus s gameover)
  | out_start p :
      status s = idle →
      spawnNext (nextPiece s) (board s) = Ret (Some p) →
      Outcome rnd s start
        {| board := board s; piece := Some p; nextPiece := rnd;
           holdPiece := holdPiece s; canHold := true; score := score s;
           level := level s; linesCleared := linesCleared s;
           status := playing; lastClearedLines := lastClearedLines s;
           lastLocked := false |}
  | out_move a p p' :
      status s = playing →
      piece s = Some p →
      lockTarget s a = Ret None →
      type p' = type p →
      (0 <= rotation p → 0 <= rotation p') →
      pieceFits (board s) p' →
      Outcome rnd s a (withPiece s p')
  | out_lock a p pl s' :
      status s = playing →
      piece s = Some p →
      lockTarget s a = Ret (Some pl) →
      type pl = type p →
      rotation pl = rotation p →
      lockAndSpawn rnd s pl = Ret s' →
      Outcome rnd s a s'
  | out_hold_fail p shape :
      status s = playing →
      piece s = Some p →
      canHold s = true →
      getShape (default (nextPiece s) (holdPiece s)) 0 = Some shape →
      fits (board s) shape SPAWN_ROW SPAWN_COL = Ret false →
      Outcome rnd s hold (withStatus s gameover)
  | out_hold p :
      status s = playing →
      piece s = Some p →
      canHold s = true →
      pieceFits (board s) (spawnPiece (default (nextPiece s) (holdPiece s))) →
      Outcome rnd s hold
        {| board := board s;
           piece := Some (spawnPiece (default (nextPiece s) (holdPiece s)));
           nextPiece := match holdPiece s with
                        | Some _ => nextPiece s
                        | None => rnd
                        end;
           holdPiece := Some (type p); canHold := false; score := score s;
           level := level s; linesCleared := linesCleared s;
           status := status s; lastClearedLines := lastClearedLines s;
           lastLocked := false |}.

(** The states a game can be in: the initial state for some draw, and
    what the reducer returns from there for any actions and draws. *)
Inductive reachable : GameState → Prop :=
  | reach_init rnd : reachable (createInitialState rnd)
  | reach_step rnd s a s' :
      reachable s → gameReducer rnd s a = Ret s' → reachable s'.

(** [played s n]: [s] is a state of a game in which [n] pieces have been
    locked since the game began, that is since the initial state or the
    last [restart].  A dispatch locks a piece when [lockTarget] names
    one. *)
Inductive played : GameState → nat → Prop :=
  | played_init rnd : played (createInitialState rnd) 0
  | played_restart rnd s n s' :
      played s n → gameReducer rnd s restart = Ret s' → played s' 0
  | played_lock rnd s n a pl s' :
      played s n → lockTarget s a = Ret (Some pl) →
      gameReducer rnd s a = Ret s' → played s' (S n)
  | played_step rnd s n a s' :
      played s n → a ≠ restart → lockTarget s a = Ret None →
      gameReducer rnd s a = Ret s' → played s' n.

(** Runs a list of dispatches, each with its draw. *)
Fixpoint dispatchAll (inputs : list (TetrominoType * GameAction))
  (s : GameState) : Run GameState :=
  match inputs with
  | [] => Ret s
  | (rnd, a) :: inputs' => s' ← gameReducer rnd s a; dispatchAll inputs' s'
  end.

(** What holds of every state of a game (see [reachable_Inv]). *)
Record Inv (s : GameState) : Prop := mkInv {
  inv_board : wfBoard (board s);
  inv_rows : Forall (λ brow, rowFull brow = false) (board s);
  inv_rotation : ∀ p, piece s = Some p → 0 <= rotation p;
  inv_fits : ∀ p, piece s = Some p → pieceFits (board s) p;
  inv_level : level s = linesCleared s / LINES_PER_LEVEL + 1;
  inv_active : status s = playing ∨ status s = paused → is_Some (piece s);
  inv_idle : status s = idle → piece s = None
}.

#[export] Instance wfBoard_dec (b : Board) : Decision (wfBoard b).
Proof. unfold wfBoard. apply _. Defined.

#[export] Instance inside_dec nr nc : Decision (inside nr nc).
Proof. unfold inside. apply _. Defined.

(** ** Sample games *)

(** The state a list of dispatches leads to from [s]; [s] itself when a
    dispatch does not return. *)
Definition stateAfter (inputs : list (TetrominoType * GameAction))
  (s : GameState) : GameState :=
  match dispatchAll inputs s with
  | Ret s' => s'
  | Fail _ => s
  end.

(** The dispatches of one turn: the moves, then a hard drop.  [draw] is
    the kind drawn when the piece locks; it becomes the piece after the
    next one. *)
Definition turn (draw : TetrominoType) (moves : list GameAction)
  : list (TetrominoType * GameAction) :=
  map (pair draw) moves ++ [(draw, hard_drop)].

(** Two I pieces and an O piece fill the bottom row; two more I pieces
    fill it again.  Five pieces, two single lines, and the board is
    empty afterwards. *)
Definition twoSingles : list (TetrominoType * GameAction) :=
  turn TetrominoType.O [move_left; move_left; move_left]
  ++ turn TetrominoType.I [move_right]
  ++ turn TetrominoType.I
       [move_right; move_right; move_right; move_right; move_right]
  ++ turn TetrominoType.I [move_left; move_left; move_left]
  ++ turn TetrominoType.I [move_right].

(** A game from [createInitialState I] that clears one line. *)
Definition oneLineGame : list (TetrominoType * GameAction) :=
  (TetrominoType.I, start)
  :: turn TetrominoType.O [move_left; move_left; move_left]
  ++ turn TetrominoType.T [move_right]
  ++ turn TetrominoType.T
       [move_right; move_right; move_right; move_right; move_right].

(** A game from [createInitialState I] that clears nine lines. *)
Definition nineLineGame : list (TetrominoType * GameAction) :=
  (TetrominoType.I, start)
  :: concat (replicate 4 twoSingles)
  ++ turn TetrominoType.O [move_left; move_left; move_left]
  ++ turn TetrominoType.I [move_right]
  ++ turn TetrominoType.I
       [move_right; move_right; move_right; move_right; move_right].

(** A game from [createInitialState I] that stacks five upright I
    pieces in column 6, up to the top row, and then has an O piece
    active with an I piece next. *)
Definition towerGame : list (TetrominoType * GameAction) :=
  (TetrominoType.I, start)
  :: turn TetrominoType.I [rotate_cw; move_right]
  ++ turn TetrominoType.I [rotate_cw; move_right]
  ++ turn TetrominoType.I [rotate_cw; move_right]
  ++ turn TetrominoType.O [rotate_cw; move_right]
  ++ turn TetrominoType.I [rotate_cw; move_right].

(** The state after [start] on [createInitialState I] with the draw O. *)
Definition startedState : GameState :=
  {| board := createEmptyBoard;
     piece := Some (spawnPiece TetrominoType.I);
     nextPiece := TetrominoType.O;
     holdPiece := None;
     canHold := true;
     score := 0;
     level := 1;
     linesCleared := 0;
     status := playing;
     lastClearedLines := 0;
     lastLocked := false |}.

(** The state after [hold] on [startedState] with the draw T. *)
Definition heldState : GameState :=
  {| board := createEmptyBoard;
     piece := Some (spawnPiece TetrominoType.O);
     nextPiece := TetrominoType.T;
     holdPiece := Some TetrominoType.I;
     canHold := false;
     score := 0;
     level := 1;
     linesCleared := 0;
     status := playing;
     lastClearedLines := 0;
     lastLocked := false |}.

(** * More of the sources *)

(** ** tetrominoes.ts: the table against its comment *)

(** The clockwise quarter turn of a matrix: row [r] of the result is
    column [r] of the matrix read from the bottom up.  The comment on
    [SHAPES] says "CW rotation = next index". *)
Definition rotateCW (shape : ShapeMatrix) : ShapeMatrix :=
  match shape with
  | [] => []
  | srow0 :: _ =>
    map (λ r, reverse (map (λ srow, default 0 (srow !! r)) shape))
        (seq 0 (length srow0))
  end.

(** The number of occupied cells of a shape. *)
Definition cellCount (shape : ShapeMatrix) : nat :=
  length (List.filter (λ v, negb (v =? 0)) (concat shape)).

(** ** renderer.ts *)

Module Renderer.

(** [getGhostRow]: the same loop as the hard drop, with the fuel of
    [dropFuel] (see [dropLoop]). *)
Definition getGhostRow (board : Board) (piece : PieceState) : Run Z :=
  shape ← defined (getShape (type piece) (rotation piece));
  dropLoop (dropFuel (row piece)) board shape (row piece) (col piece).

End Renderer.

(** ** input.ts *)

Module Input.
Import stdpp.strings.
#[local] Open Scope string_scope.

(** The two fields of a [KeyboardEvent] the module reads. *)
Record KeyboardEvent := mkKeyboardEvent {
  code : string;
  repeat : bool
}.

(** The own properties of the object [keyToAction]. *)
Definition keyToActionEntries : list (string * GameAction) :=
  [ ("ArrowLeft", move_left);
    ("ArrowRight", move_right);
    ("ArrowDown", move_down);
    ("ArrowUp", rotate_cw);
    ("KeyA", rotate_ccw);
    ("KeyD", rotate_cw);
    ("KeyS", move_down);
    ("KeyW", rotate_cw);
    ("Space", hard_drop);
    ("KeyC", hold);
    ("KeyP", pause);
    ("KeyR", restart);
    ("Enter", start) ].

(** What [keyToAction[code]] reads: an own property, a member of
    [Object.prototype] (for a code such as ["toString"]; these members
    are functions or objects, hence truthy and not strings), or
    [undefined]. *)
Inductive Property :=
  | Own (a : GameAction)
  | FromPrototype
  | Undefined.

Fixpoint ownProperty (entries : list (string * GameAction)) (key : string)
  : option GameAction :=
  match entries with
  | [] => None
  | (k, a) :: entries' =>
    if bool_decide (k = key) then Some a else ownProperty entries' key
  end.

(** [inherited] tells which names [Object.prototype] has in the running
    environment. *)
Definition keyToAction (inherited : string → bool) (key : string) : Property :=
  match ownProperty keyToActionEntries key with
  | Some a => Own a
  | None => if inherited key then FromPrototype else Undefined
  end.

(** What [keyToGameAction] returns when it does not return [null]: an
    action, or an object whose [type] is a member of [Object.prototype]
    and no action type. *)
Inductive InputAction :=
  | Action (a : GameAction)
  | Untyped.

Definition repeatable : list GameAction := [move_left; move_right; move_down].

Definition keyToGameAction (inherited : string → bool) (e : KeyboardEvent)
  : option InputAction :=
  if repeat e then
    match keyToAction inherited (code e) with
    | Own action =>
      if bool_decide (action ∈ repeatable) then Some (Action action) else None
    | FromPrototype => None
    | Undefined => None
    end
  else
    match keyToAction inherited (code e) with
    | Undefined => None
    | Own type => Some (Action type)
    | FromPrototype => Some Untyped
    end.

(** Sample events: the space bar pressed, and held down. *)
Definition spaceDown : KeyboardEvent := {| code := "Space"; repeat := false |}.
Definition spaceHeld : KeyboardEvent := {| code := "Space"; repeat := true |}.

End Input.

(** ** main.ts *)

Module Main.

(** The calls [dispatch] makes besides the reducer: the sounds, and the
    value it stores for the score pop-up (the time it stores with it is
    left out). *)
Inductive Cue :=
  | playHardDrop
  | playMove
  | playRotate
  | playSoftDrop
  | playLock
  | playHold
  | playGameOver
  | scorePop (value : Z)
  | playLineClear (lines : Z).

#[export] Instance Cue_eq_dec : EqDecision Cue.
Proof. solve_decision. Defined.

(** The calls of one [dispatch], in the order of its [if] statements;
    [prevState] is the state before the reducer ran and [state] the one
    after. *)
Definition cuesOf (action : GameAction) (prevState state : GameState)
  : list Cue :=
  (if bool_decide (action = hard_drop) && bool_decide (status state = playing)
   then [playHardDrop] else [])
  ++ (if bool_decide (action = move_left) || bool_decide (action = move_right)
      then match piece prevState, piece state with
           | Some pp, Some p =>
             if negb (col p =? col pp) then [playMove] else []
           | _, _ => []
           end
      else [])
  ++ (if bool_decide (action = rotate_cw) || bool_decide (action = rotate_ccw)
      then match piece prevState, piece state with
           | Some pp, Some p =>
             if negb (rotation p =? rotation pp) then [playRotate] else []
           | _, _ => []
           end
      else [])
  ++ (if bool_decide (action = move_down)
      then match piece prevState, piece state with
           | Some pp, Some p =>
             if negb (lastLocked state)
             then if row p >? row pp then [playSoftDrop] else []
             else []
           | _, _ => []
           end
      else [])
  ++ (if lastLocked state && (lastClearedLines state =? 0)
      then [playLock] else [])
  ++ (if bool_decide (action = hold)
         && negb (bool_decide (holdPiece prevState = holdPiece state))
      then [playHold] else [])
  ++ (if negb (bool_decide (status prevState = gameover))
         && bool_decide (status state = gameover)
      then [playGameOver] else [])
  ++ (if (score state >? score prevState) && (lastClearedLines state >? 0)
      then [scorePop (default 0 (LINE_SCORES (lastClearedLines state)));
            playLineClear (lastClearedLines state)]
      else []).

(** [dispatch]: the new value of the variable [state] and the calls
    made.  [rnd] is the draw of the reducer. *)
Definition dispatch (rnd : TetrominoType) (action : GameAction)
  (state : GameState) : Run (GameState * list Cue) :=
  let prevState := state in
  state' ← gameReducer rnd state action;
  Ret (state', cuesOf action prevState state').

(** The handler given to [attachKeyboard].  It dispatches twice for
    [start] on a finished game; [rnd] is the draw of the first dispatch
    and [rnd'] that of the second. *)
Definition onAction (rnd rnd' : TetrominoType) (action : GameAction)
  (state : GameState) : Run (GameState * list Cue) :=
  if bool_decide (action = start) && bool_decide (status state = gameover)
  then
    '(state1, cues1) ← dispatch rnd restart state;
    '(state2, cues2) ← dispatch rnd' start state1;
    Ret (state2, cues1 ++ cues2)
  else if bool_decide (action = pause)
  then dispatch rnd
         (if bool_decide (status state = playing) then pause else resume)
         state
  else dispatch rnd action state.

(** The listener of [attachKeyboard] with the handler of main.ts: a key
    event that maps to no action leaves the state alone; an object
    without an action type falls to the [default] case of the reducer
    and of the handler, which return the state. *)
Definition onKeyDown (inherited : Stdlib.Strings.String.string → bool)
  (rnd rnd' : TetrominoType) (e : Input.KeyboardEvent) (state : GameState)
  : Run GameState :=
  match Input.keyToGameAction inherited e with
  | None => Ret state
  | Some (Input.Action action) =>
    '(state', _) ← onAction rnd rnd' action state;
    Ret state'
  | Some Input.Untyped => Ret state
  end.

End Main.

(** ** themes.ts *)

Module Themes.
Import stdpp.strings.
#[local] Open Scope string_scope.

Record Theme := mkTheme {
  id : string;
  name : string;
  accent : string;
  glow : string
}.

#[export] Instance Theme_eq_dec : EqDecision Theme.
Proof. solve_decision. Defined.

Definition THEMES : list Theme :=
  [ {| id := "cyan"; name := "Cyan"; accent := "#22d3ee";
       glow := "0 0 40px rgba(34, 211, 238, 0.12)" |};
    {| id := "emerald"; name := "Emerald"; accent := "#34d399";
       glow := "0 0 40px rgba(52, 211, 153, 0.12)" |};
    {| id := "amber"; name := "Amber"; accent := "#fbbf24";
       glow := "0 0 40px rgba(251, 191, 36, 0.12)" |};
    {| id := "rose"; name := "Rose"; accent := "#fb7185";
       glow := "0 0 40px rgba(251, 113, 133, 0.12)" |};
    {| id := "violet"; name := "Violet"; accent := "#a78bfa";
       glow := "0 0 40px rgba(167, 139, 250, 0.12)" |} ].

Definition DEFAULT_THEME_ID : string := "cyan".

(** [themes.find((t) => t.id === key)] *)
Definition find (themes : list Theme) (key : string) : option Theme :=
  List.find (λ t, bool_decide (id t = key)) themes.

(** [themes.findIndex((t) => t.id === key)], -1 when there is none. *)
Fixpoint findIndexFrom (i : Z) (themes : list Theme) (key : string) : Z :=
  match themes with
  | [] => (-1)%Z
  | t :: themes' =>
    if bool_decide (id t = key) then i else findIndexFrom (i + 1)%Z themes' key
  end.

Definition findIndex (themes : list Theme) (key : string) : Z :=
  findIndexFrom 0 themes key.

(** [THEMES.find(...) ?? THEMES[0]]; [None] is [undefined]. *)
Definition getThemeById (key : string) : option Theme :=
  match find THEMES key with
  | Some t => Some t
  | None => THEMES !! 0%nat
  end.

Definition getDefaultTheme : option Theme := getThemeById DEFAULT_THEME_ID.

Definition getNextThemeId (currentId : string) : Run string :=
  let idx := findIndex THEMES currentId in
  let next := Z.rem (idx + 1)%Z (Z.of_nat (length THEMES)) in
  t ← defined (if (next <? 0)%Z then None else THEMES !! Z.to_nat next);
  Ret (id t).

(** A sample id that no theme has. *)
Definition unknownId : string := "sepia".

End Themes.

(** ** Pieces a dispatch moves *)

(** The position [move_left], [move_right], [move_down] ([tick]),
    [rotate_cw] and [rotate_ccw] try for the active piece [p]. *)
Definition movedPiece (a : GameAction) (p : PieceState) : option PieceState :=
  match a with
  | move_left =>
    Some {| type := type p; row := row p; col := col p - 1;
            rotation := rotation p |}
  | move_right =>
    Some {| type := type p; row := row p; col := col p + 1;
            rotation := rotation p |}
  | move_down | tick =>
    Some {| type := type p; row := row p + 1; col := col p;
            rotation := rotation p |}
  | rotate_cw =>
    Some {| type := type p; row := row p; col := col p;
            rotation := Z.rem (rotation p + 1) 4 |}
  | rotate_ccw =>
    Some {| type := type p; row := row p; col := col p;
            rotation := Z.rem (rotation p + 3) 4 |}
  | _ => None
  end.

(** [n] dispatches of [move_down]. *)
Fixpoint softDrops (n : nat) (rnd : TetrominoType) (s : GameState)
  : Run GameState :=
  match n with
  | O => Ret s
  | S n' => s' ← gameReducer rnd s move_down; softDrops n' rnd s'
  end.

(** The number of blocks on a board. *)
Definition blockCount (b : Board) : nat :=
  length (List.filter (λ cell, negb (bool_decide (cell = Empty))) (concat b)).

(** Five calls of [getNextThemeId], each on the result of the one
    before. *)
Definition fifthNextThemeId (key : Stdlib.Strings.String.string)
  : Run Stdlib.Strings.String.string :=
  k1 ← Themes.getNextThemeId key;
  k2 ← Themes.getNextThemeId k1;
  k3 ← Themes.getNextThemeId k2;
  k4 ← Themes.getNextThemeId k3;
  Themes.getNextThemeId k4.

(** ** Counting blocks *)

(** The number of blocks in a row. *)
Definition rowCount (brow : list CellValue) : nat :=
  length (List.filter (λ cell, negb (bool_decide (cell = Empty))) brow).

(** The cells the loops of [stamp] visit, in their order. *)
Definition windowCells (h w : nat) : list (nat * nat) :=
  flat_map (λ r, map (pair r) (seq 0 w)) (seq 0 h).

(** One iteration of the stamping loop, for a cell of [windowCells]. *)
Definition paintCell (shape : ShapeMatrix) (p : PieceState) (nb : Board)
  (rc : nat * nat) : Board :=
  paint shape p rc.1 nb rc.2.
(** ** The [Run] monad *)

Lemma bind_Ret {A B} (a : A) (k : A → Run B) : (Ret a ≫= k) = k a.
Proof. reflexivity. Qed.

Lemma bind_Fail {A B} (f : Fault) (k : A → Run B) : (Fail f ≫= k) = Fail f.
Proof. reflexivity. Qed.

Lemma bind_Ret_inv {A B} (m : Run A) (k : A → Run B) (b : B) :
  (m ≫= k) = Ret b → ∃ a, m = Ret a ∧ k a = Ret b.
Proof. destruct m as [a|f]; [eauto | discriminate]. Qed.

(** Splits a hypothesis [m ≫= k = Ret b] into the two runs. *)
Ltac run_inv H :=
  let a := fresh "a" in
  let Ha := fresh "Ha" in
  apply bind_Ret_inv in H as (a & Ha & H).

(** ** Loops *)

(** A loop with [return] whose body is a test: it returns at the first
    index that passes. *)
Lemma forReturn_test {A} (body : nat → Run (option A)) (p : nat → bool)
    (a : A) (ixs : list nat) :
  (∀ i, i ∈ ixs → body i = Ret (if p i then Some a else None)) →
  forReturn body ixs = Ret (if existsb p ixs then Some a else None).
Proof.
  induction ixs as [|i ixs IH]; intros Hbody; [reflexivity|].
  cbn [forReturn existsb]. rewrite (Hbody i) by left. rewrite bind_Ret.
  destruct (p i); [reflexivity|]. cbn [orb].
  apply IH. intros j Hj. apply Hbody. by right.
Qed.

(** A loop whose body always returns normally computes a left fold. *)
Lemma forUpdate_fold {St} (P : St → Prop) (body : nat → St → Run St)
    (f : St → nat → St) (ixs : list nat) (s : St) :
  (∀ i s, i ∈ ixs → P s → body i s = Ret (f s i) ∧ P (f s i)) →
  P s →
  forUpdate body ixs s = Ret (foldl f s ixs) ∧ P (foldl f s ixs).
Proof.
  revert s. induction ixs as [|i ixs IH]; intros s Hbody Hs; [done|].
  cbn [forUpdate foldl].
  destruct (Hbody i s) as [-> Hfs]; [by left | done |].
  rewrite bind_Ret. apply IH; [|done].
  intros j s' Hj. apply Hbody. by right.
Qed.

(** ** The collision test *)

Lemma shapeCell_eval shape r c :
  (r < length shape)%nat → shapeCell shape r c = Ret (shapeAt shape r c).
Proof.
  intros Hr. apply lookup_lt_is_Some in Hr as [srow Hsrow].
  unfold shapeCell, shapeAt. rewrite Hsrow. reflexivity.
Qed.

Lemma shapeAt_occupied shape r c : shapeAt shape r c = true ↔ occupied shape r c.
Proof.
  unfold shapeAt, occupied. split.
  - destruct (shape !! r) as [srow|] eqn:Hr; cbn; [|done].
    destruct (srow !! c) as [v|] eqn:Hc; [|done].
    intros Hv. exists srow, v. repeat split; try done.
    intros ->. discriminate.
  - intros (srow & v & -> & Hc & Hv). cbn. rewrite Hc.
    apply negb_true_iff, Z.eqb_neq, Hv.
Qed.

Lemma filled_blocked b nr nc :
  filled (cellAt b (Z.to_nat nr) (Z.to_nat nc)) = true ↔ blocked b nr nc.
Proof.
  unfold blocked. destruct (cellAt _ _ _) as [[|t]|]; cbn; split;
    try done; try (intros [? ?]; done). eauto.
Qed.

Lemma collidesb_collides b shape row col r c :
  collidesb b shape row col r c = true ↔ collides b shape row col r c.
Proof.
  unfold collidesb, collides, inside.
  rewrite andb_true_iff, shapeAt_occupied, !orb_true_iff, filled_blocked.
  rewrite !Z.ltb_lt, !Z.geb_le. intuition lia.
Qed.

(** [fits] as a closed formula, for a board with at least [ROWS] rows. *)
Lemma fits_eval (b : Board) (shape : ShapeMatrix) srow0 row col :
  (Z.to_nat ROWS ≤ length b)%nat →
  shape !! 0%nat = Some srow0 →
  fits b shape row col =
  Ret (negb (existsb (λ r, existsb (collidesb b shape row col r)
                             (seq 0 (length srow0)))
               (seq 0 (length shape)))).
Proof.
  intros Hrows Hs0. unfold fits. rewrite Hs0. cbn [defined]. rewrite bind_Ret.
  rewrite (forReturn_test _
    (λ r, existsb (collidesb b shape row col r) (seq 0 (length srow0))) false).
  { rewrite bind_Ret. by destruct (existsb _ _). }
  intros r Hr. apply elem_of_seq in Hr.
  apply forReturn_test. intros c _.
  rewrite shapeCell_eval by lia. rewrite bind_Ret.
  unfold collidesb. destruct (shapeAt shape r c); cbn [negb andb]; [|done].
  destruct (_ || _ || _ || _) eqn:Hout; [done|]. cbn [orb].
  apply orb_false_iff in Hout as [Hout Hc].
  apply orb_false_iff in Hout as [Hout _].
  apply orb_false_iff in Hout as [Hlo Hhi].
  apply Z.ltb_ge in Hlo. rewrite Z.geb_leb in Hhi. apply Z.leb_gt in Hhi.
  destruct (lookup_lt_is_Some_2 b (Z.to_nat (row + Z.of_nat r))) as [brow Hbrow];
    [lia|].
  unfold cellAt. rewrite Hbrow. cbn.
  by destruct (filled _).
Qed.

Lemma isMatrix_first shape :
  isMatrix shape →
  ∃ srow0 : list Z, shape !! 0%nat = Some srow0
           ∧ Forall (λ srow, length srow = length srow0) shape.
Proof. destruct shape as [|srow0 ?]; [done|]. intros H. by exists srow0. Qed.

Lemma occupied_in_window (shape : ShapeMatrix) (srow0 : list Z) r c :
  Forall (λ srow, length srow = length srow0) shape →
  occupied shape r c → (r < length shape ∧ c < length srow0)%nat.
Proof.
  intros Hall (srow & v & Hr & Hc & _). split.
  - by apply lookup_lt_Some in Hr.
  - rewrite Forall_lookup in Hall. rewrite <- (Hall _ _ Hr).
    by apply lookup_lt_Some in Hc.
Qed.

Lemma existsb_collides b (shape : ShapeMatrix) (srow0 : list Z) row col :
  Forall (λ srow, length srow = length srow0) shape →
  existsb (λ r, existsb (collidesb b shape row col r) (seq 0 (length srow0)))
          (seq 0 (length shape)) = true
  ↔ ∃ r c, collides b shape row col r c.
Proof.
  intros Hall. rewrite existsb_exists. split.
  - intros (r & _ & Hr). apply existsb_exists in Hr as (c & _ & Hc).
    exists r, c. by apply collidesb_collides.
  - intros (r & c & Hrc).
    destruct (occupied_in_window shape srow0 r c Hall) as [Hr Hc];
      [apply Hrc|].
    exists r. split; [apply in_seq; lia|].
    apply existsb_exists. exists c. split; [apply in_seq; lia|].
    by apply collidesb_collides.
Qed.

(** ** Stamping a piece into the board *)

Lemma wfBoard_lookup (b : Board) nr :
  wfBoard b → (nr < Z.to_nat ROWS)%nat →
  ∃ brow, b !! nr = Some brow ∧ length brow = Z.to_nat COLS.
Proof.
  intros [Hlen Hall] Hnr.
  destruct (lookup_lt_is_Some_2 b nr) as [brow Hbrow]; [lia|].
  exists brow. split; [done|]. by apply (Forall_lookup_1 _ _ _ _ Hall Hbrow).
Qed.

Lemma wfBoard_insert (b : Board) nr brow :
  wfBoard b → length brow = Z.to_nat COLS → wfBoard (<[nr := brow]> b).
Proof.
  intros [Hlen Hall] Hbrow. split; [by rewrite length_insert|].
  by apply Forall_insert.
Qed.

Lemma cellAt_insert (b : Board) nr nc nr' nc' brow v :
  b !! nr = Some brow → (nc < length brow)%nat →
  cellAt (<[nr := <[nc := v]> brow]> b) nr' nc' =
  if decide (nr = nr' ∧ nc = nc') then Some v else cellAt b nr' nc'.
Proof.
  intros Hbrow Hnc. unfold cellAt.
  destruct (decide (nr = nr')) as [<-|Hne].
  - rewrite list_lookup_insert_eq by (by eapply lookup_lt_Some).
    rewrite Hbrow. cbn.
    destruct (decide (nc = nc')) as [<-|Hne'].
    + rewrite list_lookup_insert_eq by done. by rewrite decide_True.
    + rewrite list_lookup_insert_ne by done. rewrite decide_False; [done|].
      intros [_ ?]. done.
  - rewrite list_lookup_insert_ne by done. rewrite decide_False; [done|].
    intros [? _]. done.
Qed.

(** On a well-formed board an iteration of the stamping loop is [paint]. *)
Lemma stamp_step (shape : ShapeMatrix) p r c (nb : Board) :
  wfBoard nb → (r < length shape)%nat →
  (occ ← shapeCell shape r c;
   if (occ : bool) then
     let nr := row p + Z.of_nat r in
     let nc := col p + Z.of_nat c in
     if (nr >=? 0) && (nr <? ROWS) && (nc >=? 0) && (nc <? COLS)
     then setCell nb (Z.to_nat nr) (Z.to_nat nc) (Block (type p))
     else Ret nb
   else Ret nb) = Ret (paint shape p r nb c).
Proof.
  intros Hwf Hr. rewrite shapeCell_eval by done. rewrite bind_Ret.
  unfold paint. destruct (shapeAt shape r c); cbn [andb]; [|done].
  cbn zeta. destruct (_ && _ && _ && _) eqn:Hin; [|done].
  apply andb_true_iff in Hin as [Hin Hc2].
  apply andb_true_iff in Hin as [Hin Hc1].
  apply andb_true_iff in Hin as [Hr1 Hr2].
  rewrite Z.geb_le in Hr1, Hc1. apply Z.ltb_lt in Hr2, Hc2.
  destruct (wfBoard_lookup nb (Z.to_nat (row p + Z.of_nat r)) Hwf)
    as (brow & Hbrow & Hlen); [lia|].
  unfold setCell. rewrite Hbrow. cbn [defined]. rewrite bind_Ret.
  replace (Z.to_nat (col p + Z.of_nat c) <? length brow)%nat with true; [done|].
  symmetry. apply Nat.ltb_lt. lia.
Qed.

Lemma paint_wf shape p r nb c : wfBoard nb → wfBoard (paint shape p r nb c).
Proof.
  intros Hwf. unfold paint. destruct (_ && _); [|done].
  destruct (nb !! _) as [brow|] eqn:Hbrow; [|done].
  apply wfBoard_insert; [done|]. rewrite length_insert.
  destruct Hwf as [_ Hall]. by apply (Forall_lookup_1 _ _ _ _ Hall Hbrow).
Qed.

Lemma paint_cellAt shape p r nb c nr nc :
  wfBoard nb → (nr < Z.to_nat ROWS)%nat → (nc < Z.to_nat COLS)%nat →
  cellAt (paint shape p r nb c) nr nc =
  if hits shape p nr nc r c then Some (Block (type p)) else cellAt nb nr nc.
Proof.
  intros Hwf Hnr Hnc. unfold paint, hits.
  destruct (shapeAt shape r c); cbn [andb]; [|done].
  destruct (_ && _ && _ && _) eqn:Hin.
  - apply andb_true_iff in Hin as [Hin Hc2].
    apply andb_true_iff in Hin as [Hin Hc1].
    apply andb_true_iff in Hin as [Hr1 Hr2].
    rewrite Z.geb_le in Hr1, Hc1. apply Z.ltb_lt in Hr2, Hc2.
    destruct (wfBoard_lookup nb (Z.to_nat (row p + Z.of_nat r)) Hwf)
      as (brow & Hbrow & Hlen); [lia|].
    rewrite Hbrow. rewrite cellAt_insert by (done || lia).
    destruct (decide _) as [[H1 H2]|Hne].
    + replace (_ =? _) with true by (symmetry; apply Z.eqb_eq; lia).
      replace (_ =? _) with true by (symmetry; apply Z.eqb_eq; lia). done.
    + destruct (Z.eqb_spec (row p + Z.of_nat r) (Z.of_nat nr)) as [E1|]; [|done].
      destruct (Z.eqb_spec (col p + Z.of_nat c) (Z.of_nat nc)) as [E2|]; [|done].
      exfalso. apply Hne. lia.
  - destruct (Z.eqb_spec (row p + Z.of_nat r) (Z.of_nat nr)) as [E1|]; [|done].
    destruct (Z.eqb_spec (col p + Z.of_nat c) (Z.of_nat nc)) as [E2|]; [|done].
    exfalso.
    assert (0 <= row p + Z.of_nat r < ROWS ∧ 0 <= col p + Z.of_nat c < COLS)
      as [[? ?] [? ?]] by lia.
    rewrite (proj2 (Z.geb_le _ _)), (proj2 (Z.ltb_lt _ _)) in Hin by done.
    rewrite (proj2 (Z.geb_le _ _)), (proj2 (Z.ltb_lt _ _)) in Hin by done.
    discriminate.
Qed.

(** Folding a step that paints the cell (nr, nc) with [v] exactly when
    a test passes. *)
Lemma fold_paint {Ix} (step : Board → Ix → Board) (hitb : Ix → bool)
    (v : CellValue) nr nc (l : list Ix) :
  (∀ nb i, wfBoard nb →
     wfBoard (step nb i)
     ∧ cellAt (step nb i) nr nc = if hitb i then Some v else cellAt nb nr nc) →
  ∀ nb, wfBoard nb →
    wfBoard (foldl step nb l)
    ∧ cellAt (foldl step nb l) nr nc =
      if existsb hitb l then Some v else cellAt nb nr nc.
Proof.
  intros Hstep. induction l as [|i l IH]; intros nb Hwf; [done|].
  cbn [foldl existsb]. destruct (Hstep nb i Hwf) as [Hwf' Hcell].
  destruct (IH _ Hwf') as [Hwf'' Hcell'']. split; [done|].
  rewrite Hcell'', Hcell. destruct (hitb i); cbn [orb]; [|done].
  by destruct (existsb hitb l).
Qed.

(** Folding a step that keeps boards well-formed. *)
Lemma fold_wf {Ix} (step : Board → Ix → Board) (l : list Ix) :
  (∀ nb i, wfBoard nb → wfBoard (step nb i)) →
  ∀ nb, wfBoard nb → wfBoard (foldl step nb l).
Proof.
  intros Hstep. induction l as [|i l IH]; intros nb Hwf; [done|].
  cbn [foldl]. apply IH, Hstep, Hwf.
Qed.


Lemma stamp_eval (board : Board) (shape : ShapeMatrix) (srow0 : list Z) p :
  wfBoard board → shape !! 0%nat = Some srow0 →
  stamp board shape p = Ret (stamped board shape (length srow0) p)
  ∧ wfBoard (stamped board shape (length srow0) p).
Proof.
  intros Hwf Hs0. unfold stamp, stamped. rewrite Hs0. cbn [defined].
  rewrite bind_Ret.
  apply (forUpdate_fold wfBoard); [|done].
  intros r nb Hr Hnb. apply elem_of_seq in Hr.
  apply (forUpdate_fold wfBoard); [|done].
  intros c nb' _ Hnb'. split.
  - apply stamp_step; [done | lia].
  - by apply paint_wf.
Qed.

Lemma existsb_hits_covers (shape : ShapeMatrix) (srow0 : list Z) p nr nc :
  Forall (λ srow, length srow = length srow0) shape →
  existsb (λ r, existsb (hits shape p nr nc r) (seq 0 (length srow0)))
          (seq 0 (length shape)) = true
  ↔ covers shape p nr nc.
Proof.
  intros Hall. rewrite existsb_exists. unfold covers. split.
  - intros (r & _ & Hr). apply existsb_exists in Hr as (c & _ & Hc).
    unfold hits in Hc. apply andb_true_iff in Hc as [Hc Hc2].
    apply andb_true_iff in Hc as [Hocc Hc1].
    apply Z.eqb_eq in Hc1, Hc2. apply shapeAt_occupied in Hocc. eauto.
  - intros (r & c & Hocc & Hr & Hc).
    destruct (occupied_in_window shape srow0 r c Hall Hocc) as [Hr' Hc'].
    exists r. split; [apply in_seq; lia|].
    apply existsb_exists. exists c. split; [apply in_seq; lia|].
    unfold hits. apply shapeAt_occupied in Hocc. rewrite Hocc.
    rewrite (proj2 (Z.eqb_eq _ _) Hr), (proj2 (Z.eqb_eq _ _) Hc). done.
Qed.

(** The cells of the stamped board: the piece's kind where the piece
    lies, the old cell elsewhere. *)
Lemma stamped_cellAt (board : Board) (shape : ShapeMatrix) (srow0 : list Z)
    p nr nc :
  wfBoard board →
  Forall (λ srow, length srow = length srow0) shape →
  (nr < Z.to_nat ROWS)%nat → (nc < Z.to_nat COLS)%nat →
  (covers shape p nr nc →
   cellAt (stamped board shape (length srow0) p) nr nc = Some (Block (type p)))
  ∧ (¬ covers shape p nr nc →
     cellAt (stamped board shape (length srow0) p) nr nc = cellAt board nr nc).
Proof.
  intros Hwf Hall Hnr Hnc.
  assert (cellAt (stamped board shape (length srow0) p) nr nc =
          if existsb (λ r, existsb (hits shape p nr nc r) (seq 0 (length srow0)))
                     (seq 0 (length shape))
          then Some (Block (type p)) else cellAt board nr nc) as Hcell.
  { unfold stamped. apply fold_paint; [|done].
    intros nb r Hnb. apply fold_paint; [|done].
    intros nb' c Hnb'. split; [by apply paint_wf | by apply paint_cellAt]. }
  rewrite Hcell. split.
  - intros Hcov. apply (existsb_hits_covers shape srow0) in Hcov; [|done].
    by rewrite Hcov.
  - intros Hcov. destruct (existsb _ _) eqn:E; [|done].
    exfalso. apply Hcov. by apply (existsb_hits_covers shape srow0).
Qed.

(** ** Clearing full rows *)

Lemma foldl_collect (q : nat → bool) (l acc : list nat) :
  foldl (λ fullRows r, if q r then fullRows ++ [r] else fullRows) acc l
  = acc ++ List.filter q l.
Proof.
  revert acc. induction l as [|r l IH]; intros acc; cbn [foldl List.filter].
  - by rewrite app_nil_r.
  - rewrite IH. destruct (q r); [|done]. by rewrite <- app_assoc.
Qed.

Lemma collectFullRows_eval (nb : Board) :
  length nb = Z.to_nat ROWS →
  collectFullRows nb
  = Ret (List.filter (fullAt nb) (reverse (seq 0 (Z.to_nat ROWS)))).
Proof.
  intros Hlen. unfold collectFullRows.
  destruct (forUpdate_fold (λ _, True)
    (λ r (fullRows : list nat),
       brow ← defined (nb !! r);
       Ret (if rowFull brow then fullRows ++ [r] else fullRows))
    (λ fullRows r, if fullAt nb r then fullRows ++ [r] else fullRows)
    (reverse (seq 0 (Z.to_nat ROWS))) []) as [-> _]; [|done|].
  - intros r acc Hr _. split; [|done].
    apply elem_of_reverse, elem_of_seq in Hr.
    destruct (lookup_lt_is_Some_2 nb r) as [brow Hbrow]; [lia|].
    unfold fullAt. rewrite Hbrow. reflexivity.
  - by rewrite foldl_collect.
Qed.

Lemma includes_fullRows (nb : Board) i :
  includes (List.filter (fullAt nb) (reverse (seq 0 (length nb)))) i
  = fullAt nb i.
Proof.
  unfold includes. destruct (fullAt nb i) eqn:Hfull.
  - apply bool_decide_eq_true. apply list_elem_of_In, filter_In.
    split; [|done]. apply list_elem_of_In, elem_of_reverse, elem_of_seq.
    unfold fullAt in Hfull. destruct (nb !! i) eqn:Hi; [|done].
    apply lookup_lt_Some in Hi. lia.
  - apply bool_decide_eq_false. intros Hin.
    apply list_elem_of_In, filter_In in Hin as [_ Hin]. congruence.
Qed.

(** Filtering by index agrees with filtering by the row's content when
    the index test reads the row at that index. *)
Lemma filterIndexed_rows (keep : nat → bool) (l : Board) (i0 : nat) :
  (∀ j brow, l !! j = Some brow → keep (i0 + j)%nat = negb (rowFull brow)) →
  filterIndexed (λ _ i, keep i) i0 l
  = List.filter (λ brow, negb (rowFull brow)) l.
Proof.
  revert i0. induction l as [|brow l IH]; intros i0 Hkeep; [done|].
  cbn [filterIndexed List.filter].
  rewrite <- (Hkeep 0%nat brow) by done. rewrite Nat.add_0_r.
  rewrite (IH (S i0)); [done|].
  intros j brow' Hj. rewrite <- (Hkeep (S j) brow') by done. f_equal. lia.
Qed.

Lemma count_full_indices (l : Board) (i0 : nat) (q : nat → bool) :
  (∀ j brow, l !! j = Some brow → q (i0 + j)%nat = rowFull brow) →
  length (List.filter q (seq i0 (length l))) = length (List.filter rowFull l).
Proof.
  revert i0. induction l as [|brow l IH]; intros i0 Hq; [done|].
  cbn [length seq List.filter].
  rewrite <- (Hq 0%nat brow) by done. rewrite Nat.add_0_r.
  specialize (IH (S i0)).
  destruct (q i0); cbn [length]; rewrite IH; try done;
    intros j brow' Hj; rewrite <- (Hq (S j) brow') by done; f_equal; lia.
Qed.

Lemma filter_reverse_length {A} (q : A → bool) (l : list A) :
  length (List.filter q (reverse l)) = length (List.filter q l).
Proof.
  induction l as [|x l IH]; [done|].
  rewrite reverse_cons, List.filter_app, length_app, IH. cbn [List.filter].
  destruct (q x); cbn [length]; lia.
Qed.

Lemma filter_none_full (l : Board) :
  length (List.filter rowFull l) = 0%nat →
  List.filter (λ brow, negb (rowFull brow)) l = l.
Proof.
  induction l as [|brow l IH]; [done|]. cbn [List.filter].
  destruct (rowFull brow); cbn [negb length]; [done|].
  intros H. by rewrite IH.
Qed.

(** The second half of [lockPiece] computes [clearRows]. *)
Lemma clear_eval (nb : Board) :
  length nb = Z.to_nat ROWS →
  (fullRows ← collectFullRows nb;
   let linesCleared := Z.of_nat (length fullRows) in
   if linesCleared =? 0 then Ret (nb, 0)
   else
     let filtered :=
       filterIndexed (λ _ i, negb (includes fullRows i)) 0 nb in
     let emptyRows := replicate (length fullRows) emptyRow in
     let finalBoard := emptyRows ++ filtered in
     Ret (finalBoard, linesCleared)) = Ret (clearRows nb).
Proof.
  intros Hlen. rewrite collectFullRows_eval by done. rewrite bind_Ret.
  rewrite <- Hlen. cbn zeta.
  assert (length (List.filter (fullAt nb) (reverse (seq 0 (length nb))))
          = length (List.filter rowFull nb)) as Hcount.
  { rewrite filter_reverse_length. apply count_full_indices.
    intros j brow Hj. unfold fullAt. cbn. by rewrite Hj. }
  unfold clearRows. rewrite Hcount.
  destruct (Z.eqb_spec (Z.of_nat (length (List.filter rowFull nb))) 0) as [E|E].
  - rewrite E. assert (length (List.filter rowFull nb) = 0%nat) as E' by lia.
    rewrite E'. cbn [replicate app]. by rewrite filter_none_full.
  - do 2 f_equal. f_equal.
    apply (filterIndexed_rows (λ i, negb (includes _ i))).
    intros j brow Hj. rewrite includes_fullRows. unfold fullAt. cbn.
    by rewrite Hj.
Qed.

(** ** The shape table *)

Lemma hasCell_sound (shape : ShapeMatrix) :
  existsb (λ r, existsb (shapeAt shape r) (seq 0 4)) (seq 0 4) = true →
  nonEmptyShape shape.
Proof.
  intros H. apply existsb_exists in H as (r & _ & H).
  apply existsb_exists in H as (c & _ & H).
  exists r, c. by apply shapeAt_occupied.
Qed.

(** Every entry of [SHAPES] is a matrix of at most four rows with an
    occupied cell. *)
Lemma SHAPES_good t (n : nat) (shape : ShapeMatrix) :
  SHAPES t !! n = Some shape →
  isMatrix shape ∧ nonEmptyShape shape ∧ (length shape ≤ 4)%nat.
Proof.
  intros Hn.
  assert (n < 4)%nat as Hlt.
  { apply lookup_lt_Some in Hn. by destruct t. }
  destruct t;
    (destruct n as [|[|[|[|n]]]]; [| | | | lia]);
    injection Hn as <-;
    (split; [compute_done | split; [by apply hasCell_sound | cbn; lia]]).
Qed.

Lemma getShape_defined t rot :
  0 <= rot →
  ∃ shape, getShape t rot = Some shape
           ∧ isMatrix shape ∧ nonEmptyShape shape ∧ (length shape ≤ 4)%nat.
Proof.
  intros Hrot. unfold getShape.
  assert (length (SHAPES t) = 4%nat) as -> by by destruct t.
  pose proof (Z.rem_bound_pos rot 4 Hrot ltac:(lia)) as Hi.
  replace (Z.of_nat 4) with 4 by done.
  destruct (Z.ltb_spec (Z.rem rot 4) 0) as [|_]; [lia|].
  destruct (lookup_lt_is_Some_2 (SHAPES t) (Z.to_nat (Z.rem rot 4)))
    as [shape Hshape].
  { assert (length (SHAPES t) = 4%nat) as -> by by destruct t. lia. }
  exists shape. split; [done|]. by apply (SHAPES_good t (Z.to_nat (Z.rem rot 4)) shape).
Qed.

(** A negative rotation whose remainder is not zero has no shape. *)
Lemma getShape_undefined t rot :
  Z.rem rot 4 < 0 → getShape t rot = None.
Proof.
  intros Hrot. unfold getShape.
  assert (length (SHAPES t) = 4%nat) as -> by by destruct t.
  replace (Z.of_nat 4) with 4 by done.
  by destruct (Z.ltb_spec (Z.rem rot 4) 0) as [|]; [|lia].
Qed.

(** ** [fits] and [lockPiece] on well-formed inputs *)

Lemma fits_returns (b : Board) (shape : ShapeMatrix) row col :
  wfBoard b → isMatrix shape →
  fits b shape row col = Ret false
  ∧ (∃ r c, collides b shape row col r c)
  ∨ fits b shape row col = Ret true
    ∧ ¬ (∃ r c, collides b shape row col r c).
Proof.
  intros [Hlen _] Hm. apply isMatrix_first in Hm as (srow0 & Hs0 & Hall).
  rewrite (fits_eval b shape srow0) by (done || lia).
  pose proof (existsb_collides b shape srow0 row col Hall) as Hex.
  destruct (existsb _ _).
  - left. split; [done|]. by apply Hex.
  - right. split; [done|]. intros H. apply Hex in H. discriminate.
Qed.

Lemma lockPiece_eval (board : Board) p (shape : ShapeMatrix) (srow0 : list Z) :
  wfBoard board →
  getShape (type p) (rotation p) = Some shape →
  shape !! 0%nat = Some srow0 →
  lockPiece board p = Ret (clearRows (stamped board shape (length srow0) p)).
Proof.
  intros Hwf Hshape Hs0. unfold lockPiece. rewrite Hshape. cbn [defined].
  rewrite bind_Ret.
  destruct (stamp_eval board shape srow0 p Hwf Hs0) as [-> [Hlen _]].
  rewrite bind_Ret. by apply clear_eval.
Qed.

Lemma filter_split_length {A} (q : A → bool) (l : list A) :
  (length (List.filter q l) + length (List.filter (λ x, negb (q x)) l))%nat
  = length l.
Proof.
  induction l as [|x l IH]; [done|]. cbn [List.filter].
  destruct (q x); cbn [negb length]; lia.
Qed.

Lemma emptyRow_length : length emptyRow = Z.to_nat COLS.
Proof. reflexivity. Qed.

Lemma clearRows_wf (nb : Board) : wfBoard nb → wfBoard (clearRows nb).1.
Proof.
  intros [Hlen Hall]. unfold clearRows. cbn [fst]. split.
  - rewrite length_app, length_replicate, filter_split_length. done.
  - apply Forall_app. split.
    + apply Forall_replicate, emptyRow_length.
    + apply Forall_forall. intros brow Hin.
      apply filter_In in Hin as [Hin _].
      rewrite Forall_forall in Hall. by apply Hall.
Qed.

(** ** Inversion of the reducer *)

Lemma status_guard (s : GameState) st :
  negb (bool_decide (status s = st)) = false → status s = st.
Proof.
  intros H. apply negb_false_iff in H. by apply bool_decide_eq_true in H.
Qed.

(** Case analysis on the run bound first in the goal. *)
Ltac run_case E :=
  match goal with
  | |- context [defined ?o ≫= _] =>
    destruct o eqn:E; cbn [defined];
    rewrite ?bind_Ret, ?bind_Fail; [|by intros [=]]
  | |- context [?m ≫= _] =>
    destruct m eqn:E;
    rewrite ?bind_Ret, ?bind_Fail; [|by intros [=]]
  end.

Lemma moveDown_outcome rnd s s' a :
  (a = move_down ∨ a = tick) →
  moveDown rnd s = Ret s' → Outcome rnd s a s'.
Proof.
  intros Ha.
  assert (lockTarget s a
          = match status s, piece s with
            | playing, Some p =>
              shape ← defined (getShape (type p) (rotation p));
              ok ← fits (board s) shape (row p + 1) (col p);
              Ret (if (ok : bool) then None else Some p)
            | _, _ => Ret None
            end) as Hlt by (by destruct Ha as [-> | ->]).
  revert Hlt. unfold moveDown.
  destruct (status s) eqn:Hst;
    try (intros Hlt [= <-]; by apply out_same).
  destruct (piece s) as [p|] eqn:Hp;
    [|intros Hlt [= <-]; by apply out_same].
  destruct (getShape (type p) (rotation p)) as [shape|] eqn:Hshape;
    cbn [defined]; rewrite ?bind_Ret, ?bind_Fail; [|by intros _ [=]].
  destruct (fits (board s) shape (row p + 1) (col p)) as [[|]|] eqn:Hfits;
    rewrite ?bind_Ret, ?bind_Fail; [| |by intros _ [=]].
  - intros Hlt [= <-]. apply (out_move rnd s a p); try done.
    exists shape. done.
  - intros Hlt H. by apply (out_lock rnd s a p p).
Qed.

Lemma move_outcome rnd (s : GameState) a p (shape : ShapeMatrix) p' s' :
  status s = playing → piece s = Some p →
  lockTarget s a = Ret None →
  type p' = type p → (0 <= rotation p → 0 <= rotation p') →
  getShape (type p') (rotation p') = Some shape →
  (ok ← fits (board s) shape (row p') (col p');
   if (ok : bool) then Ret (withPiece s p') else Ret s) = Ret s' →
  Outcome rnd s a s'.
Proof.
  intros Hst Hp Hlt Hty Hrot Hshape.
  destruct (fits _ _ _ _) as [[|]|] eqn:Hfits;
    rewrite ?bind_Ret, ?bind_Fail; [| |by intros [=]]; intros [= <-].
  - apply (out_move rnd s a p); try done. by exists shape.
  - by apply out_same.
Qed.

Lemma rem4_nonneg z : 0 <= z → 0 <= Z.rem z 4 < 4.
Proof. intros Hz. apply Z.rem_bound_pos; lia. Qed.

(** Every normal return of the reducer is one of the outcomes. *)
Lemma gameReducer_outcome rnd s a s' :
  gameReducer rnd s a = Ret s' → Outcome rnd s a s'.
Proof.
  destruct a; cbn [gameReducer].
  - (* start *)
    destruct (negb _) eqn:Hst; [intros [= <-]; by apply out_same|].
    apply status_guard in Hst.
    destruct (spawnNext _ _) as [[p|]|] eqn:Hsp;
      rewrite ?bind_Ret, ?bind_Fail; [| |by intros [=]]; intros [= <-].
    + by apply out_start.
    + by apply out_start_fail.
  - (* pause *)
    destruct (negb _) eqn:Hst; intros [= <-]; [by apply out_same|].
    apply out_pause. by apply status_guard.
  - (* resume *)
    destruct (negb _) eqn:Hst; intros [= <-]; [by apply out_same|].
    apply out_resume. by apply status_guard.
  - (* restart *)
    intros [= <-]. apply out_restart.
  - (* move_left *)
    destruct (status s) eqn:Hst; try (intros [= <-]; by apply out_same).
    destruct (piece s) as [p|] eqn:Hp; [|intros [= <-]; by apply out_same].
    run_case Hshape.
    by apply (move_outcome rnd s move_left p _
                {| type := type p; row := row p; col := col p - 1;
                   rotation := rotation p |}).
  - (* move_right *)
    destruct (status s) eqn:Hst; try (intros [= <-]; by apply out_same).
    destruct (piece s) as [p|] eqn:Hp; [|intros [= <-]; by apply out_same].
    run_case Hshape.
    by apply (move_outcome rnd s move_right p _
                {| type := type p; row := row p; col := col p + 1;
                   rotation := rotation p |}).
  - (* move_down *)
    apply moveDown_outcome. by left.
  - (* rotate_cw *)
    destruct (status s) eqn:Hst; try (intros [= <-]; by apply out_same).
    destruct (piece s) as [p|] eqn:Hp; [|intros [= <-]; by apply out_same].
    cbn zeta. run_case Hshape.
    apply (move_outcome rnd s rotate_cw p _
             {| type := type p; row := row p; col := col p;
                rotation := Z.rem (rotation p + 1) 4 |}); try done.
    cbn. intros Hrot. apply rem4_nonneg. lia.
  - (* rotate_ccw *)
    destruct (status s) eqn:Hst; try (intros [= <-]; by apply out_same).
    destruct (piece s) as [p|] eqn:Hp; [|intros [= <-]; by apply out_same].
    cbn zeta. run_case Hshape.
    apply (move_outcome rnd s rotate_ccw p _
             {| type := type p; row := row p; col := col p;
                rotation := Z.rem (rotation p + 3) 4 |}); try done.
    cbn. intros Hrot. apply rem4_nonneg. lia.
  - (* hard_drop *)
    destruct (status s) eqn:Hst;
      try (intros [= <-]; apply out_same; cbn; by rewrite Hst).
    destruct (piece s) as [p|] eqn:Hp;
      [|intros [= <-]; apply out_same; cbn; by rewrite Hst, Hp].
    run_case Hshape. run_case Hdrop. cbn zeta. intros H.
    eapply (out_lock rnd s hard_drop p); try exact H; try done.
    cbn [lockTarget]. rewrite Hst, Hp, Hshape. cbn [defined].
    rewrite bind_Ret, Hdrop. by rewrite bind_Ret.
  - (* hold *)
    destruct (status s) eqn:Hst; try (intros [= <-]; by apply out_same).
    destruct (piece s) as [p|] eqn:Hp; [|intros [= <-]; by apply out_same].
    destruct (canHold s) eqn:Hch; [|intros [= <-]; by apply out_same].
    cbn zeta. cbn [type row col].
    assert (match holdPiece s with
            | Some held => held
            | None => nextPiece s
            end = default (nextPiece s) (holdPiece s)) as ->
      by (by destruct (holdPiece s)).
    run_case Hshape.
    destruct (fits _ _ _ _) as [[|]|] eqn:Hfits;
      rewrite ?bind_Ret, ?bind_Fail; [| |by intros [=]];
      cbn [negb]; intros [= <-].
    + rewrite <- Hst. apply (out_hold rnd s p); try done.
      eexists. split; [exact Hshape | exact Hfits].
    + by eapply (out_hold_fail rnd s p).
  - (* tick *)
    destruct (negb _) eqn:Hst.
    + intros [= <-]. apply out_same. cbn.
      destruct (status s); try done.
    + apply moveDown_outcome. by right.
Qed.

(** ** Spawning and locking *)

Lemma spawnNext_inv t (b : Board) r :
  spawnNext t b = Ret r →
  (r = None
   ∧ ∃ shape, getShape t 0 = Some shape
              ∧ fits b shape SPAWN_ROW SPAWN_COL = Ret false)
  ∨ (r = Some (spawnPiece t) ∧ pieceFits b (spawnPiece t)).
Proof.
  unfold spawnNext. cbn zeta. cbn [type rotation row col].
  run_case Hshape.
  destruct (fits _ _ _ _) as [[|]|] eqn:Hfits;
    rewrite ?bind_Ret, ?bind_Fail; [| |by intros [=]]; intros [= <-].
  - right. split; [done|]. eexists. split; [exact Hshape | exact Hfits].
  - left. split; [done|]. eauto.
Qed.

Lemma spawnNext_total t (b : Board) :
  wfBoard b → ∃ r, spawnNext t b = Ret r.
Proof.
  intros Hwf. unfold spawnNext. cbn zeta. cbn [type rotation row col].
  destruct (getShape_defined t 0) as (shape & -> & Hm & _); [lia|].
  cbn [defined]. rewrite bind_Ret.
  destruct (fits_returns b shape SPAWN_ROW SPAWN_COL Hwf Hm)
    as [[-> _]|[-> _]]; rewrite bind_Ret; eauto.
Qed.

(** What [lockAndSpawn] puts into the state it returns. *)
Lemma lockAndSpawn_inv rnd s pl s' :
  lockAndSpawn rnd s pl = Ret s' →
  ∃ nb k,
    lockPiece (board s) pl = Ret (nb, k)
    ∧ board s' = nb
    ∧ lastClearedLines s' = k
    ∧ score s' = score s + default 0 (LINE_SCORES k)
    ∧ linesCleared s' = linesCleared s + k
    ∧ level s' = (linesCleared s + k) / LINES_PER_LEVEL + 1
    ∧ lastLocked s' = true
    ∧ holdPiece s' = holdPiece s
    ∧ (spawnNext (nextPiece s) nb = Ret None
       ∧ piece s' = None ∧ status s' = gameover
       ∧ canHold s' = canHold s ∧ nextPiece s' = nextPiece s
       ∨ spawnNext (nextPiece s) nb = Ret (Some (spawnPiece (nextPiece s)))
         ∧ pieceFits nb (spawnPiece (nextPiece s))
         ∧ piece s' = Some (spawnPiece (nextPiece s)) ∧ status s' = status s
         ∧ canHold s' = true ∧ nextPiece s' = rnd).
Proof.
  unfold lockAndSpawn.
  destruct (lockPiece (board s) pl) as [[nb k]|] eqn:Hlock;
    rewrite ?bind_Ret, ?bind_Fail; [|by intros [=]].
  cbn zeta.
  destruct (spawnNext (nextPiece s) nb) as [r|] eqn:Hsp;
    rewrite ?bind_Ret, ?bind_Fail; [|by intros [=]].
  destruct (spawnNext_inv _ _ _ Hsp) as [[-> _]|[-> Hfit]]; intros [= <-];
    exists nb, k; cbn.
  - repeat (split; [done|]). left. by rewrite Hsp.
  - repeat (split; [done|]). right. by rewrite Hsp.
Qed.

Lemma lockAndSpawn_total rnd s pl :
  wfBoard (board s) → 0 <= rotation pl →
  ∃ s', lockAndSpawn rnd s pl = Ret s'.
Proof.
  intros Hwf Hrot. unfold lockAndSpawn.
  destruct (getShape_defined (type pl) (rotation pl) Hrot)
    as (shape & Hshape & Hm & _).
  destruct (isMatrix_first shape Hm) as (srow0 & Hs0 & Hall).
  rewrite (lockPiece_eval (board s) pl shape srow0) by done.
  rewrite bind_Ret.
  destruct (clearRows _) as [nb k] eqn:Hclear. cbn zeta.
  assert (wfBoard nb) as Hnb.
  { replace nb with (clearRows (stamped (board s) shape (length srow0) pl)).1
      by (by rewrite Hclear).
    apply clearRows_wf. by apply (stamp_eval (board s) shape srow0 pl). }
  destruct (spawnNext_total (nextPiece s) nb Hnb) as [[np|] ->];
    rewrite bind_Ret; eauto.
Qed.

Lemma rowFull_emptyRow : rowFull emptyRow = false.
Proof. reflexivity. Qed.

Lemma clearRows_not_full (nb : Board) :
  Forall (λ brow, rowFull brow = false) (clearRows nb).1.
Proof.
  unfold clearRows. cbn [fst]. apply Forall_app. split.
  - apply Forall_replicate, rowFull_emptyRow.
  - apply Forall_forall. intros brow Hin.
    apply filter_In in Hin as [_ Hin]. by apply negb_true_iff.
Qed.

(** The board [lockPiece] returns for a well-formed board is
    well-formed again and has no full row. *)
Lemma lockPiece_board (b : Board) pl nb k :
  wfBoard b → 0 <= rotation pl →
  lockPiece b pl = Ret (nb, k) →
  wfBoard nb ∧ Forall (λ brow, rowFull brow = false) nb.
Proof.
  intros Hwf Hrot Hlock.
  destruct (getShape_defined (type pl) (rotation pl) Hrot)
    as (shape & Hshape & Hm & _).
  destruct (isMatrix_first shape Hm) as (srow0 & Hs0 & Hall).
  rewrite (lockPiece_eval b pl shape srow0) in Hlock by done.
  assert (clearRows (stamped b shape (length srow0) pl) = (nb, k)) as Hclear
    by congruence.
  assert (nb = (clearRows (stamped b shape (length srow0) pl)).1) as ->
    by (by rewrite Hclear).
  split.
  - apply clearRows_wf. by apply (stamp_eval b shape srow0 pl).
  - apply clearRows_not_full.
Qed.

(** ** The invariant *)

Lemma createEmptyBoard_wf : wfBoard createEmptyBoard.
Proof.
  split; [reflexivity|]. apply Forall_replicate, emptyRow_length.
Qed.

Lemma Inv_init rnd : Inv (createInitialState rnd).
Proof.
  split; cbn; try done.
  - apply createEmptyBoard_wf.
  - apply Forall_replicate, rowFull_emptyRow.
  - intros [?|?]; done.
Qed.

(** Closes the routine goals of a preservation proof. *)
Ltac inv_solve :=
  try done;
  match goal with
  | |- _ ∨ _ → _ => intros [?|?]; try done
  | |- ∀ p, Some _ = Some p → _ => intros ? [= <-]; try done
  | _ => idtac
  end.

Lemma Inv_step rnd s a s' :
  Inv s → gameReducer rnd s a = Ret s' → Inv s'.
Proof.
  intros HI H. apply gameReducer_outcome in H.
  destruct H as [a Hlt| Hst | Hst | | Hst Hsp | p Hst Hsp
                 | a p p' Hst Hp Hlt Hty Hrot Hfit
                 | a p pl s' Hst Hp Hlt Hty Hrot Hlock
                 | p shape Hst Hp Hch Hshape Hfit | p Hst Hp Hch Hfit].
  - done.
  - destruct HI as [Hb Hr Hrot0 Hfit0 Hlv Hact Hidle].
    split; cbn; inv_solve; apply Hact; by left.
  - destruct HI as [Hb Hr Hrot0 Hfit0 Hlv Hact Hidle].
    split; cbn; inv_solve; apply Hact; by right.
  - apply Inv_init.
  - destruct HI as [Hb Hr Hrot0 Hfit0 Hlv Hact Hidle].
    split; cbn; inv_solve.
  - apply spawnNext_inv in Hsp as [[? _]|[[= ->] Hfit]]; [done|].
    destruct HI as [Hb Hr Hrot0 Hfit0 Hlv Hact Hidle].
    split; cbn; inv_solve.
  - destruct HI as [Hb Hr Hrot0 Hfit0 Hlv Hact Hidle].
    split; cbn; inv_solve.
    + apply Hrot. by apply Hrot0.
    + by rewrite Hst.
  - apply lockAndSpawn_inv in Hlock
      as (nb & k & Hlock & Hb & Hk & Hsc & Hli & Hle & Hll & Hho & Hsp).
    assert (0 <= rotation pl) as Hrot'.
    { rewrite Hrot. by apply (inv_rotation s HI). }
    destruct (lockPiece_board (board s) pl nb k (inv_board s HI) Hrot' Hlock)
      as [Hwf Hnf].
    destruct Hsp as [(_ & Hp' & Hs' & _)|(_ & Hfit & Hp' & Hs' & _)];
      split; rewrite ?Hb, ?Hp', ?Hs', ?Hle, ?Hli; inv_solve.
    by rewrite Hst.
  - destruct HI as [Hb Hr Hrot0 Hfit0 Hlv Hact Hidle].
    split; cbn; inv_solve.
  - destruct HI as [Hb Hr Hrot0 Hfit0 Hlv Hact Hidle].
    split; cbn; inv_solve. by rewrite Hst.
Qed.

(** Every state of a game satisfies the invariant. *)
Lemma reachable_Inv s : reachable s → Inv s.
Proof.
  induction 1 as [rnd|rnd s a s' _ IH H]; [apply Inv_init|].
  by apply (Inv_step rnd s a s').
Qed.

(** ** The reducer returns on every state of a game *)

Lemma fits_total (b : Board) (shape : ShapeMatrix) row col :
  wfBoard b → isMatrix shape → ∃ ok, fits b shape row col = Ret ok.
Proof.
  intros Hwf Hm.
  destruct (fits_returns b shape row col Hwf Hm) as [[-> _]|[-> _]]; eauto.
Qed.

(** A piece that fits has its cells above the floor. *)
Lemma fits_true_above_floor (b : Board) (shape : ShapeMatrix) row col :
  wfBoard b → isMatrix shape → nonEmptyShape shape →
  fits b shape row col = Ret true → row < ROWS.
Proof.
  intros Hwf Hm (r & c & Hocc) Hfits.
  destruct (fits_returns b shape row col Hwf Hm) as [[Hf _]|[_ Hno]];
    [congruence|].
  destruct (decide (row < ROWS)) as [|Hge]; [done|].
  exfalso. apply Hno. exists r, c. split; [done|].
  left. unfold inside. lia.
Qed.

(** The fuel [dropFuel] gives is enough for the shapes of the table. *)
Lemma dropLoop_total (b : Board) (shape : ShapeMatrix) col :
  wfBoard b → isMatrix shape → nonEmptyShape shape →
  ∀ (fuel : nat) row,
    (Z.to_nat (ROWS - row) < fuel)%nat →
    ∃ row', dropLoop fuel b shape row col = Ret row'.
Proof.
  intros Hwf Hm Hne. induction fuel as [|fuel IH]; intros row Hfuel; [lia|].
  cbn [dropLoop].
  destruct (fits_total b shape (row + 1) col Hwf Hm) as [[|] Hfits];
    rewrite Hfits, bind_Ret; [|eauto].
  apply IH.
  pose proof (fits_true_above_floor b shape (row + 1) col Hwf Hm Hne Hfits).
  lia.
Qed.

(** *** The fuel of the hard drop on arbitrary boards *)

Lemma forReturn_Ret_inv {A} (body : nat → Run (option A)) (ixs : list nat)
    (res : option A) :
  forReturn body ixs = Ret res →
  match res with
  | None => ∀ i, i ∈ ixs → body i = Ret None
  | Some a => ∃ i, i ∈ ixs ∧ body i = Ret (Some a)
  end.
Proof.
  induction ixs as [|i ixs IH]; cbn [forReturn].
  - intros [= <-]. intros i Hi. by apply elem_of_nil in Hi.
  - destruct (body i) as [[a|]|f] eqn:Hbody;
      rewrite ?bind_Ret, ?bind_Fail; [| |by intros [=]].
    + intros [= <-]. exists i. split; [by left | done].
    + intros H. specialize (IH H). destruct res as [a|].
      * destruct IH as (j & Hj & Hbj). exists j. split; [by right | done].
      * intros j Hj. apply elem_of_cons in Hj as [->|Hj]; [done | by apply IH].
Qed.

Lemma forReturn_Fail_inv {A} (body : nat → Run (option A)) (ixs : list nat)
    (f : Fault) :
  forReturn body ixs = Fail f → ∃ i, i ∈ ixs ∧ body i = Fail f.
Proof.
  induction ixs as [|i ixs IH]; cbn [forReturn]; [by intros [=]|].
  destruct (body i) as [[a|]|f'] eqn:Hbody; rewrite ?bind_Ret, ?bind_Fail.
  - by intros [=].
  - intros H. destruct (IH H) as (j & Hj & Hbj).
    exists j. split; [by right | done].
  - intros [= <-]. exists i. split; [by left | done].
Qed.

(** What one iteration of the inner loop of [fits] can answer. *)
Lemma fits_cell_cases (b : Board) (shape : ShapeMatrix) row col r c :
  (r < length shape)%nat →
  let step :=
    occ ← shapeCell shape r c;
    if negb occ then Ret None
    else
      let nr := row + Z.of_nat r in
      let nc := col + Z.of_nat c in
      if (nr <? 0) || (nr >=? ROWS) || (nc <? 0) || (nc >=? COLS)
      then Ret (Some false)
      else
        brow ← defined (b !! Z.to_nat nr);
        if filled (brow !! Z.to_nat nc) then Ret (Some false)
        else Ret None in
  (step = Ret None ∧ (shapeAt shape r c = true → row + Z.of_nat r < ROWS))
  ∨ step = Ret (Some false)
  ∨ step = Fail TypeError.
Proof.
  intros Hr. cbn zeta. rewrite shapeCell_eval by done. rewrite bind_Ret.
  destruct (shapeAt shape r c); cbn [negb]; [|left; done].
  destruct (_ || _ || _ || _) eqn:Hout; [right; left; done|].
  apply orb_false_iff in Hout as [Hout _].
  apply orb_false_iff in Hout as [Hout _].
  apply orb_false_iff in Hout as [_ Hhi].
  rewrite Z.geb_leb in Hhi. apply Z.leb_gt in Hhi.
  destruct (b !! _) as [brow|]; cbn [defined];
    rewrite ?bind_Ret, ?bind_Fail; [|right; right; done].
  destruct (filled _); [right; left; done | left; done].
Qed.

(** On any board, a shape with an occupied cell in the window that
    [fits] scans does not fit once that cell is below the last row. *)
Lemma fits_below_floor (b : Board) (shape : ShapeMatrix) (srow0 : list Z)
    row col r c :
  shape !! 0%nat = Some srow0 →
  (r < length shape)%nat → (c < length srow0)%nat →
  shapeAt shape r c = true →
  ROWS <= row + Z.of_nat r →
  fits b shape row col ≠ Ret true.
Proof.
  intros Hs0 Hr Hc Hocc Hlow. unfold fits. rewrite Hs0. cbn [defined].
  rewrite bind_Ret.
  destruct (forReturn _ (seq 0 (length shape))) as [res|f] eqn:Houter;
    rewrite ?bind_Ret, ?bind_Fail; [|done].
  apply forReturn_Ret_inv in Houter. destruct res as [[|]|]; [|done|].
  - destruct Houter as (r' & Hr' & Hinner). apply elem_of_seq in Hr'.
    apply forReturn_Ret_inv in Hinner as (c' & _ & Hcell).
    destruct (fits_cell_cases b shape row col r' c')
      as [[H _]|[H|H]]; [lia | | |]; cbn zeta in H; congruence.
  - exfalso. specialize (Houter r). rewrite elem_of_seq in Houter.
    specialize (Houter ltac:(lia)).
    apply forReturn_Ret_inv in Houter. specialize (Houter c).
    rewrite elem_of_seq in Houter. specialize (Houter ltac:(lia)).
    destruct (fits_cell_cases b shape row col r c)
      as [[_ H]|[H|H]]; [lia | | |]; cbn zeta in H; [|congruence..].
    specialize (H Hocc). lia.
Qed.

(** [fits] has no loop of its own that could run forever. *)
Lemma fits_returns_or_throws (b : Board) (shape : ShapeMatrix) row col :
  fits b shape row col ≠ Fail NoReturn.
Proof.
  unfold fits. destruct (shape !! 0%nat) as [srow0|]; cbn [defined];
    rewrite ?bind_Ret, ?bind_Fail; [|done].
  destruct (forReturn _ (seq 0 (length shape))) as [res|f] eqn:Houter;
    rewrite ?bind_Ret, ?bind_Fail; [done|].
  apply forReturn_Fail_inv in Houter as (r & Hr & Hinner).
  apply elem_of_seq in Hr.
  apply forReturn_Fail_inv in Hinner as (c & _ & Hcell).
  destruct (fits_cell_cases b shape row col r c)
    as [[H _]|[H|H]]; [lia | | |]; cbn zeta in H; congruence.
Qed.

(** On any board, for a shape with an occupied cell in the scanned
    window, the hard drop loop ends before [dropFuel] runs out, and more
    fuel does not change what it returns. *)
Lemma dropLoop_enough_fuel (b : Board) (shape : ShapeMatrix) (srow0 : list Z)
    col r c :
  shape !! 0%nat = Some srow0 →
  (r < length shape)%nat → (c < length srow0)%nat →
  shapeAt shape r c = true →
  ∀ (fuel : nat) row,
    (Z.to_nat (ROWS - row) < fuel)%nat →
    dropLoop fuel b shape row col ≠ Fail NoReturn
    ∧ dropLoop (S fuel) b shape row col = dropLoop fuel b shape row col.
Proof.
  intros Hs0 Hr Hc Hocc.
  induction fuel as [|fuel IH]; intros row Hfuel; [lia|].
  cbn [dropLoop].
  destruct (fits b shape (row + 1) col) as [[|]|f] eqn:Hfits;
    rewrite ?bind_Ret, ?bind_Fail.
  - assert (row + 1 + Z.of_nat r < ROWS) as Hup.
    { destruct (decide (row + 1 + Z.of_nat r < ROWS)) as [|Hge]; [done|].
      exfalso.
      apply (fits_below_floor b shape srow0 (row + 1) col r c);
        [done | done | done | done | lia | done]. }
    destruct (IH (row + 1)) as [Hne Heq]; [lia|].
    split; [done|]. cbn [dropLoop] in Heq. exact Heq.
  - done.
  - split; [|done]. intros [= ->].
    by apply (fits_returns_or_throws b shape (row + 1) col).
Qed.

Lemma moveDown_total rnd s : Inv s → ∃ s', moveDown rnd s = Ret s'.
Proof.
  intros HI. unfold moveDown.
  destruct (status s); eauto.
  destruct (piece s) as [p|] eqn:Hp; eauto.
  pose proof (inv_rotation s HI p Hp) as Hrot.
  destruct (getShape_defined (type p) (rotation p) Hrot)
    as (shape & -> & Hm & _).
  cbn [defined]. rewrite bind_Ret.
  destruct (fits_total (board s) shape (row p + 1) (col p) (inv_board s HI) Hm)
    as [[|] ->]; rewrite bind_Ret; eauto.
  apply lockAndSpawn_total; [apply HI | done].
Qed.

Lemma tryMove_total (s : GameState) t rot row col (s1 s2 : GameState) :
  wfBoard (board s) → 0 <= rot →
  ∃ s', (shape ← defined (getShape t rot);
         ok ← fits (board s) shape row col;
         if (ok : bool) then Ret s1 else Ret s2) = Ret s'.
Proof.
  intros Hwf Hrot.
  destruct (getShape_defined t rot Hrot) as (shape & -> & Hm & _).
  cbn [defined]. rewrite bind_Ret.
  destruct (fits_total (board s) shape row col Hwf Hm) as [[|] ->];
    rewrite bind_Ret; eauto.
Qed.

(** On a state that satisfies the invariant no dispatch raises an error
    or loops. *)
Lemma gameReducer_total rnd s a : Inv s → ∃ s', gameReducer rnd s a = Ret s'.
Proof.
  intros HI. pose proof (inv_board s HI) as Hwf.
  destruct a; cbn [gameReducer]; eauto using moveDown_total.
  - (* start *)
    destruct (negb _); eauto.
    destruct (spawnNext_total (nextPiece s) (board s) Hwf) as [[p|] ->];
      rewrite bind_Ret; eauto.
  - destruct (negb _); eauto.
  - destruct (negb _); eauto.
  - (* move_left *)
    destruct (status s); eauto. destruct (piece s) as [p|] eqn:Hp; eauto.
    apply tryMove_total; [done | by apply (inv_rotation s HI)].
  - (* move_right *)
    destruct (status s); eauto. destruct (piece s) as [p|] eqn:Hp; eauto.
    apply tryMove_total; [done | by apply (inv_rotation s HI)].
  - (* rotate_cw *)
    destruct (status s); eauto. destruct (piece s) as [p|] eqn:Hp; eauto.
    cbn zeta. apply tryMove_total; [done|].
    pose proof (inv_rotation s HI p Hp). apply rem4_nonneg. lia.
  - (* rotate_ccw *)
    destruct (status s); eauto. destruct (piece s) as [p|] eqn:Hp; eauto.
    cbn zeta. apply tryMove_total; [done|].
    pose proof (inv_rotation s HI p Hp). apply rem4_nonneg. lia.
  - (* hard_drop *)
    destruct (status s); eauto. destruct (piece s) as [p|] eqn:Hp; eauto.
    pose proof (inv_rotation s HI p Hp) as Hrot.
    destruct (getShape_defined (type p) (rotation p) Hrot)
      as (shape & -> & Hm & Hne & _).
    cbn [defined]. rewrite bind_Ret.
    destruct (dropLoop_total (board s) shape (col p) Hwf Hm Hne
                (dropFuel (row p)) (row p)) as [row' ->];
      [unfold dropFuel; lia|].
    rewrite bind_Ret. cbn zeta. by apply lockAndSpawn_total.
  - (* hold *)
    destruct (status s); eauto. destruct (piece s) as [p|] eqn:Hp; eauto.
    destruct (canHold s); eauto. cbn zeta. cbn [type row col].
    destruct (getShape_defined
                match holdPiece s with
                | Some held => held
                | None => nextPiece s
                end 0) as (shape & -> & Hm & _); [lia|].
    cbn [defined]. rewrite bind_Ret.
    destruct (fits_total (board s) shape SPAWN_ROW SPAWN_COL Hwf Hm)
      as [[|] ->]; rewrite bind_Ret; cbn [negb]; eauto.
  - (* tick *)
    destruct (negb _); eauto using moveDown_total.
Qed.

(** ** At most four rows fill up *)

Lemma rowFull_spec (brow : list CellValue) :
  rowFull brow = true ↔ ∀ nc, brow !! nc ≠ Some Empty.
Proof.
  unfold rowFull. rewrite forallb_forall. split.
  - intros H nc Hnc. apply list_elem_of_lookup_2, list_elem_of_In, H in Hnc.
    by rewrite bool_decide_eq_true_2 in Hnc.
  - intros H cell Hin. apply list_elem_of_In, list_elem_of_lookup_1 in Hin as [nc Hnc].
    apply negb_true_iff, bool_decide_eq_false. intros ->. by apply (H nc).
Qed.

(** A row of the stamped board that the piece's rows do not reach is the
    row of the old board. *)
Lemma stamped_row_untouched (b : Board) (shape : ShapeMatrix)
    (srow0 : list Z) p (nr : nat) :
  wfBoard b →
  Forall (λ srow, length srow = length srow0) shape →
  (nr < Z.to_nat ROWS)%nat →
  ¬ (row p <= Z.of_nat nr < row p + Z.of_nat (length shape)) →
  stamped b shape (length srow0) p !! nr = b !! nr.
Proof.
  intros Hwf Hall Hnr Hout.
  assert (wfBoard (stamped b shape (length srow0) p)) as Hwf'.
  { unfold stamped. apply fold_wf; [|done].
    intros nb r Hnb. apply fold_wf; [|done].
    intros nb' c Hnb'. by apply paint_wf. }
  destruct (wfBoard_lookup _ nr Hwf' Hnr) as (brow' & Hbrow' & Hlen').
  destruct (wfBoard_lookup _ nr Hwf Hnr) as (brow & Hbrow & Hlen).
  rewrite Hbrow', Hbrow. f_equal. apply list_eq. intros nc.
  destruct (decide (nc < Z.to_nat COLS)%nat) as [Hnc|Hnc].
  - destruct (stamped_cellAt b shape srow0 p nr nc Hwf Hall Hnr Hnc)
      as [_ Hkeep].
    unfold cellAt in Hkeep. rewrite Hbrow', Hbrow in Hkeep. cbn in Hkeep.
    apply Hkeep. intros (r & c & Hocc & Hr & _).
    apply (occupied_in_window shape srow0 r c Hall) in Hocc as [Hr' _].
    lia.
  - rewrite !lookup_ge_None_2; [done | lia | lia].
Qed.

(** Locking on a board without full rows fills at most as many rows as
    the shape has. *)
Lemma stamped_full_rows (b : Board) (shape : ShapeMatrix) (srow0 : list Z) p :
  wfBoard b →
  Forall (λ brow, rowFull brow = false) b →
  Forall (λ srow, length srow = length srow0) shape →
  (length (List.filter rowFull (stamped b shape (length srow0) p))
   ≤ length shape)%nat.
Proof.
  intros Hwf Hnofull Hall.
  set (nb := stamped b shape (length srow0) p).
  assert (length nb = Z.to_nat ROWS) as Hlen.
  { unfold nb, stamped. apply fold_wf; [|done].
    intros nb' r Hnb'. apply fold_wf; [|done].
    intros nb'' c Hnb''. by apply paint_wf. }
  rewrite <- (count_full_indices nb 0 (fullAt nb)).
  2: { intros j brow Hj. unfold fullAt. cbn. by rewrite Hj. }
  assert (incl (List.filter (fullAt nb) (seq 0 (length nb)))
               (map (λ r, Z.to_nat (row p + Z.of_nat r))
                    (seq 0 (length shape)))) as Hincl.
  { intros nr Hin. apply filter_In in Hin as [Hin Hfull].
    apply in_seq in Hin.
    destruct (decide (row p <= Z.of_nat nr < row p + Z.of_nat (length shape)))
      as [Hreach|Hout].
    - apply in_map_iff. exists (Z.to_nat (Z.of_nat nr - row p)).
      split; [lia|]. apply in_seq. lia.
    - exfalso. unfold fullAt, nb in Hfull.
      rewrite (stamped_row_untouched b shape srow0 p nr) in Hfull
        by (done || lia).
      destruct (b !! nr) as [brow|] eqn:Hbrow; [|done].
      rewrite Forall_lookup in Hnofull.
      rewrite (Hnofull nr brow Hbrow) in Hfull. done. }
  apply NoDup_incl_length in Hincl.
  - by rewrite length_map, length_seq in Hincl.
  - apply List.NoDup_filter, seq_NoDup.
Qed.

(** On a well-formed board without full rows a lock clears between
    zero and four lines. *)
Lemma lockPiece_lines (b : Board) pl nb k :
  wfBoard b → Forall (λ brow, rowFull brow = false) b →
  0 <= rotation pl →
  lockPiece b pl = Ret (nb, k) → 0 <= k <= 4.
Proof.
  intros Hwf Hnofull Hrot Hlock.
  destruct (getShape_defined (type pl) (rotation pl) Hrot)
    as (shape & Hshape & Hm & _ & Hh).
  destruct (isMatrix_first shape Hm) as (srow0 & Hs0 & Hall).
  rewrite (lockPiece_eval b pl shape srow0) in Hlock by done.
  assert (clearRows (stamped b shape (length srow0) pl) = (nb, k)) as Hclear
    by congruence.
  unfold clearRows in Hclear.
  pose proof (stamped_full_rows b shape srow0 pl Hwf Hnofull Hall).
  assert (k = Z.of_nat
            (length (List.filter rowFull (stamped b shape (length srow0) pl))))
    as -> by congruence.
  lia.
Qed.

(** ** Dispatches that lock *)

(** A dispatch whose [lockTarget] is the piece [pl] returns what
    [lockAndSpawn] returns for [pl]. *)
Lemma lock_dispatch rnd s a pl s' :
  lockTarget s a = Ret (Some pl) →
  gameReducer rnd s a = Ret s' →
  lockAndSpawn rnd s pl = Ret s'.
Proof.
  intros Hlt H. apply gameReducer_outcome in H.
  destruct H; try congruence; cbn in Hlt; congruence.
Qed.

(** A dispatch whose [lockTarget] is empty does not touch the board, the
    score or the line counters. *)
Lemma no_lock_dispatch rnd s a s' :
  lockTarget s a = Ret None →
  gameReducer rnd s a = Ret s' →
  a = restart ∧ s' = createInitialState rnd
  ∨ board s' = board s ∧ score s' = score s
    ∧ linesCleared s' = linesCleared s ∧ level s' = level s
    ∧ lastClearedLines s' = lastClearedLines s
    ∧ (s' = s ∨ lastLocked s' = false).
Proof.
  intros Hlt H. apply gameReducer_outcome in H.
  destruct H; try congruence; try (right; cbn; by auto 10).
  by left.
Qed.

(** ** Games *)

Lemma dispatchAll_reachable inputs s s' :
  reachable s → dispatchAll inputs s = Ret s' → reachable s'.
Proof.
  revert s. induction inputs as [|[rnd a] inputs IH]; intros s Hs.
  - by intros [= <-].
  - cbn [dispatchAll].
    destruct (gameReducer rnd s a) as [s1|] eqn:Hstep;
      rewrite ?bind_Ret, ?bind_Fail; [|by intros [=]].
    apply IH. by apply (reach_step rnd s a).
Qed.

Lemma startedState_reachable : reachable startedState.
Proof.
  apply (reach_step TetrominoType.O (createInitialState TetrominoType.I)
           start); [apply reach_init | reflexivity].
Qed.

Lemma heldState_reachable : reachable heldState.
Proof.
  apply (reach_step TetrominoType.T startedState hold);
    [apply startedState_reachable | reflexivity].
Qed.

(** * The properties of the design document *)

(** C1.  For a board of ROWS x COLS cells, a shape matrix and an integer
    position (row, col): [fits] returns false if some occupied cell of
    the shape maps outside [0, ROWS) x [0, COLS) or onto a non-empty
    board cell, and returns true otherwise. *)
Theorem fits_spec (b : Board) (shape : ShapeMatrix) (row col : Z) :
  wfBoard b → isMatrix shape →
  ((∃ r c, collides b shape row col r c) → fits b shape row col = Ret false)
  ∧ (¬ (∃ r c, collides b shape row col r c)
     → fits b shape row col = Ret true).
Proof.
  intros Hwf Hm.
  destruct (fits_returns b shape row col Hwf Hm) as [[-> Hc]|[-> Hc]];
    split; intros H; done.
Qed.

(** The T piece one column left of the playfield does not fit an empty
    board: its cell (1, 0) would be in column -1. *)
Lemma fits_spec_witness :
  fits createEmptyBoard [[0; 1; 0]; [1; 1; 1]; [0; 0; 0]] 0 (-1) = Ret false.
Proof.
  apply (fits_spec createEmptyBoard [[0; 1; 0]; [1; 1; 1]; [0; 0; 0]] 0 (-1));
    [vm_compute; repeat constructor | vm_compute; repeat constructor |].
  exists 1%nat, 0%nat. split.
  - exists [1; 1; 1], 1. done.
  - left. unfold inside. cbn. lia.
Defined.

(** Outside these hypotheses [fits] behaves differently.  A board with
    fewer than ROWS rows makes [board[nr][nc]] read a property of
    [undefined]; and the loops scan only the columns of the shape's
    first row, so a cell of a longer row is never tested. *)
Example fits_short_board : fits [] [[1]] 0 0 = Fail TypeError.
Proof. reflexivity. Qed.

Example fits_ragged_shape : fits createEmptyBoard [[0]; [0; 1]] 0 9 = Ret true.
Proof. reflexivity. Qed.

(** The code's test for a full row decides fullness. *)
Lemma rowFull_fullRow (brow : list CellValue) :
  rowFull brow = true ↔ fullRow brow.
Proof. apply rowFull_spec. Qed.

(** Removing the rows the code finds full is removing the full rows. *)
Lemma cleared_filter (nb : Board) :
  cleared nb (List.filter (λ brow, negb (rowFull brow)) nb)
          (length (List.filter rowFull nb)).
Proof.
  induction nb as [|brow nb IH]; [constructor|].
  cbn [List.filter]. destruct (rowFull brow) eqn:Hfull; cbn [negb length].
  - apply cleared_full; [by apply rowFull_fullRow | done].
  - apply cleared_keep; [|done].
    intros H. apply rowFull_fullRow in H. congruence.
Qed.

(** The rows kept and the number of rows removed are determined by the
    board. *)
Lemma cleared_unique (nb kept kept' : Board) (k k' : nat) :
  cleared nb kept k → cleared nb kept' k' → kept = kept' ∧ k = k'.
Proof.
  intros H. revert kept' k'.
  induction H as [|brow nb kept k Hfull _ IH|brow nb kept k Hfull _ IH];
    intros kept' k' H'; inversion H'; subst; try done;
    match goal with
    | Hc : cleared nb _ _ |- _ => by destruct (IH _ _ Hc) as [-> ->]
    end.
Qed.

Lemma cleared_length (nb kept : Board) (k : nat) :
  cleared nb kept k → (length kept + k = length nb)%nat.
Proof. induction 1; cbn [length]; lia. Qed.

(** C2.  Locking a piece (rotation index not negative) on a board of
    ROWS x COLS cells writes the piece's kind into the cells the piece
    covers and leaves the other cells as they were, in a board [nb] of
    the same dimensions.  A row is full when none of its cells is
    empty.  [lockPiece] returns the board made of [k] rows of COLS empty
    cells followed by [kept], where [kept] is [nb] with exactly its full
    rows removed and the other rows in their order, and [k] is the
    number of rows removed; it reports [k] lines.  The returned board
    has ROWS x COLS cells again, and [k] is at most 4 when the board
    had no full row before.  A dispatch that locks ([move_down] or
    [tick] that cannot advance, or [hard_drop]) stores that board and
    that count in the state. *)
Theorem lockPiece_spec (b : Board) (p : PieceState) :
  wfBoard b → 0 <= rotation p →
  ∃ (shape : ShapeMatrix) (nb : Board) (k : nat) (kept : Board),
    getShape (type p) (rotation p) = Some shape
    ∧ stamp b shape p = Ret nb
    ∧ wfBoard nb
    ∧ (∀ nr nc, (nr < Z.to_nat ROWS)%nat → (nc < Z.to_nat COLS)%nat →
         (covers shape p nr nc → cellAt nb nr nc = Some (Block (type p)))
         ∧ (¬ covers shape p nr nc → cellAt nb nr nc = cellAt b nr nc))
    ∧ cleared nb kept k
    ∧ lockPiece b p
      = Ret (replicate k (replicate (Z.to_nat COLS) Empty) ++ kept,
             Z.of_nat k)
    ∧ wfBoard (replicate k (replicate (Z.to_nat COLS) Empty) ++ kept)
    ∧ ((∀ brow, brow ∈ b → ¬ fullRow brow) → (k ≤ 4)%nat)
    ∧ (∀ rnd s a s',
         board s = b → lockTarget s a = Ret (Some p) →
         gameReducer rnd s a = Ret s' →
         board s' = replicate k (replicate (Z.to_nat COLS) Empty) ++ kept
         ∧ lastClearedLines s' = Z.of_nat k).
Proof.
  intros Hwf Hrot.
  destruct (getShape_defined (type p) (rotation p) Hrot)
    as (shape & Hshape & Hm & _ & Hh).
  destruct (isMatrix_first shape Hm) as (srow0 & Hs0 & Hall).
  destruct (stamp_eval b shape srow0 p Hwf Hs0) as [Hstamp Hnb].
  pose proof (lockPiece_eval b p shape srow0 Hwf Hshape Hs0) as Hlock.
  set (nb := stamped b shape (length srow0) p) in *.
  exists shape, nb, (length (List.filter rowFull nb)),
         (List.filter (λ brow, negb (rowFull brow)) nb).
  split; [done|]. split; [done|]. split; [done|]. split.
  { intros nr nc Hnr Hnc. by apply stamped_cellAt. }
  split; [apply cleared_filter|]. split; [done|]. split.
  { apply (clearRows_wf nb Hnb). }
  split.
  { intros Hnofull.
    assert (Forall (λ brow, rowFull brow = false) b) as Hno.
    { apply Forall_forall. intros brow Hin.
      destruct (rowFull brow) eqn:Hfull; [|done].
      apply list_elem_of_In in Hin.
      destruct (Hnofull brow Hin). by apply rowFull_fullRow. }
    pose proof (stamped_full_rows b shape srow0 p Hwf Hno Hall).
    fold nb in H. lia. }
  intros rnd s a s' Hb Hlt Hstep.
  apply (lock_dispatch rnd s a p s' Hlt), lockAndSpawn_inv in Hstep
    as (nb' & k' & Hlock' & Hb' & Hk' & _).
  rewrite Hb, Hlock in Hlock'. unfold clearRows, emptyRow in Hlock'.
  split; congruence.
Qed.

(** The lock that ends [oneLineGame]: the O piece in columns 8 and 9
    completes the bottom row.  That row is removed, the nineteen rows
    above it are kept in their order under one new empty row, and one
    line is reported. *)
Lemma lockPiece_spec_witness :
  let b := board (stateAfter (take 12 oneLineGame)
                    (createInitialState TetrominoType.I)) in
  let p := {| type := TetrominoType.O; row := 18; col := 8; rotation := 0 |} in
  ∃ (nb kept : Board),
    stamp b [[1; 1]; [1; 1]] p = Ret nb
    ∧ (∃ brow, nb !! 19%nat = Some brow ∧ fullRow brow)
    ∧ cleared nb kept 1
    ∧ kept = take 19 nb
    ∧ lockPiece b p
      = Ret (replicate 1 (replicate (Z.to_nat COLS) Empty) ++ kept, 1).
Proof.
  intros b p.
  destruct (lockPiece_spec b p)
    as (shape & nb & k & kept & Hshape & Hstamp & _ & _ & Hcl & Hlock & _);
    [vm_compute; repeat constructor | cbn; lia |].
  assert (shape = [[1; 1]; [1; 1]]) as -> by (vm_compute in Hshape; congruence).
  assert (∃ x, lockPiece b p = Ret (x, 1)) as [x Hx]
    by (eexists; vm_compute; reflexivity).
  assert (k = 1%nat) as ->.
  { rewrite Hlock in Hx. injection Hx as _ Hk. lia. }
  assert (∃ brow, nb !! 19%nat = Some brow ∧ fullRow brow ∧ cleared (take 19 nb ++ [brow]) (take 19 nb) 1
          ∧ nb = take 19 nb ++ [brow]) as (brow & Hrow & Hfull & Hcl' & Hnb).
  { assert (Ret nb = stamp b [[1; 1]; [1; 1]] p) as Hnb by done.
    vm_compute in Hnb. injection Hnb as ->.
    eexists. split; [reflexivity|]. split.
    { apply rowFull_fullRow. reflexivity. }
    split; [|reflexivity].
    cbn [take app].
    repeat (apply cleared_keep;
            [intros Hf; apply rowFull_fullRow in Hf; discriminate|]).
    apply cleared_full; [by apply rowFull_fullRow | constructor]. }
  exists nb, kept. split; [done|]. split; [eauto|]. split; [done|].
  split; [|done].
  rewrite Hnb in Hcl at 1.
  by destruct (cleared_unique _ _ _ _ _ Hcl Hcl').
Defined.

(** A rotation whose remainder is negative has no shape, and reading
    the length of [undefined] raises. *)
Example lockPiece_negative_rotation :
  lockPiece createEmptyBoard
    {| type := TetrominoType.T; row := 0; col := 3; rotation := -1 |}
  = Fail TypeError.
Proof. reflexivity. Qed.

Lemma LINE_SCORES_nonneg k : 0 <= default 0 (LINE_SCORES k).
Proof.
  unfold LINE_SCORES.
  repeat (destruct (_ =? _); [cbn; lia|]). cbn. lia.
Qed.

(** C3.  A dispatch that locks a piece adds to the score exactly the
    table value for the number [k] of lines that lock cleared (0 for 0,
    100 for 1, 300 for 2, 500 for 3, 800 for 4), and [k] is between 0
    and 4 in a game; no dispatch other than [restart] lowers the score;
    in a game every dispatch returns. *)
Theorem score_spec (rnd : TetrominoType) (s : GameState) (a : GameAction) :
  (reachable s → ∃ s', gameReducer rnd s a = Ret s')
  ∧ (∀ s', gameReducer rnd s a = Ret s' →
       (a ≠ restart → score s <= score s')
       ∧ (∀ pl, lockTarget s a = Ret (Some pl) →
            ∃ nb k, lockPiece (board s) pl = Ret (nb, k)
                    ∧ score s' = score s + default 0 (LINE_SCORES k)
                    ∧ (reachable s → 0 <= k <= 4)))
  ∧ default 0 (LINE_SCORES 0) = 0
  ∧ default 0 (LINE_SCORES 1) = 100
  ∧ default 0 (LINE_SCORES 2) = 300
  ∧ default 0 (LINE_SCORES 3) = 500
  ∧ default 0 (LINE_SCORES 4) = 800.
Proof.
  split; [|split; [|done]].
  { intros Hs. by apply gameReducer_total, reachable_Inv. }
  intros s' Hstep. split.
  - intros Hne.
    destruct (lockTarget s a) as [[pl|]|f] eqn:Hlt.
    + apply (lock_dispatch rnd s a pl s' Hlt), lockAndSpawn_inv in Hstep
        as (nb & k & _ & _ & _ & -> & _).
      pose proof (LINE_SCORES_nonneg k). lia.
    + destruct (no_lock_dispatch rnd s a s' Hlt Hstep)
        as [[? _]|(_ & -> & _)]; [done | lia].
    + apply gameReducer_outcome in Hstep.
      destruct Hstep; try congruence; try (cbn; lia); cbn in Hlt; congruence.
  - intros pl Hlt.
    pose proof (lock_dispatch rnd s a pl s' Hlt Hstep) as Hlock.
    apply lockAndSpawn_inv in Hlock as (nb & k & Hlock & _ & _ & Hsc & _).
    exists nb, k. split; [done|]. split; [done|].
    intros Hs. apply reachable_Inv in Hs.
    apply gameReducer_outcome in Hstep.
    assert (0 <= rotation pl) as Hrot.
    { destruct Hstep; try congruence; cbn in Hlt; try congruence.
      assert (pl0 = pl) as -> by congruence.
      rewrite H3. by apply (inv_rotation s Hs). }
    by apply (lockPiece_lines (board s) pl nb k
                (inv_board s Hs) (inv_rows s Hs) Hrot).
Qed.

(** The last dispatch of [oneLineGame], the hard drop of the O piece in
    columns 8 and 9, completes the bottom row and scores its 100
    points. *)
Lemma score_spec_witness :
  let s := stateAfter (take 12 oneLineGame)
             (createInitialState TetrominoType.I) in
  let s' := stateAfter oneLineGame (createInitialState TetrominoType.I) in
  let pl := {| type := TetrominoType.O; row := 18; col := 8; rotation := 0 |} in
  gameReducer TetrominoType.T s hard_drop = Ret s'
  ∧ lockTarget s hard_drop = Ret (Some pl)
  ∧ score s <= score s'
  ∧ ∃ nb k, lockPiece (board s) pl = Ret (nb, k)
            ∧ score s' = score s + default 0 (LINE_SCORES k)
            ∧ (reachable s → 0 <= k <= 4).
Proof.
  intros s s' pl.
  assert (gameReducer TetrominoType.T s hard_drop = Ret s') as Hstep
    by (vm_compute; reflexivity).
  assert (lockTarget s hard_drop = Ret (Some pl)) as Hlt
    by (vm_compute; reflexivity).
  split; [exact Hstep|]. split; [exact Hlt|].
  destruct (score_spec TetrominoType.T s hard_drop) as (_ & Hsc & _).
  destruct (Hsc s' Hstep) as [Hmono Hlock].
  split; [apply Hmono; discriminate | apply Hlock, Hlt].
Defined.

Lemma stateAfter_reachable inputs s : reachable s → reachable (stateAfter inputs s).
Proof.
  intros Hs. unfold stateAfter.
  destruct (dispatchAll inputs s) as [s'|] eqn:Hrun; [|done].
  by apply (dispatchAll_reachable inputs s).
Qed.

(** C4.  In every state of a game, level = floor(linesCleared /
    LINES_PER_LEVEL) + 1 with LINES_PER_LEVEL = 10, so that 9 lines give
    level 1 and 10 lines give level 2; and a lock from any state
    computes the level afresh from the new total of lines. *)
Theorem level_spec (s : GameState) :
  reachable s →
  level s = linesCleared s / LINES_PER_LEVEL + 1
  ∧ LINES_PER_LEVEL = 10
  ∧ (linesCleared s = 9 → level s = 1)
  ∧ (linesCleared s = 10 → level s = 2)
  ∧ (∀ rnd s0 a pl s',
       lockTarget s0 a = Ret (Some pl) →
       gameReducer rnd s0 a = Ret s' →
       linesCleared s' = linesCleared s0 + lastClearedLines s'
       ∧ level s' = linesCleared s' / LINES_PER_LEVEL + 1).
Proof.
  intros Hs. pose proof (inv_level s (reachable_Inv s Hs)) as Hlevel.
  split; [done|]. split; [done|].
  split; [by intros H9; rewrite Hlevel, H9|].
  split; [by intros H10; rewrite Hlevel, H10|].
  intros rnd s0 a pl s' Hlt Hstep.
  apply (lock_dispatch rnd s0 a pl s' Hlt), lockAndSpawn_inv in Hstep
    as (nb & k & _ & _ & Hk & _ & Hli & Hle & _).
  split; congruence.
Qed.

(** [nineLineGame] ends with 9 lines at level 1; two more I pieces make
    it 10 lines at level 2. *)
Lemma level_spec_witness :
  let s9 := stateAfter nineLineGame (createInitialState TetrominoType.I) in
  let s10 := stateAfter
               (turn TetrominoType.I [move_left; move_left; move_left]
                ++ turn TetrominoType.I [move_right]) s9 in
  (linesCleared s9 = 9 ∧ level s9 = 1)
  ∧ (linesCleared s10 = 10 ∧ level s10 = 2).
Proof.
  intros s9 s10.
  assert (reachable s9) as H9 by apply stateAfter_reachable, reach_init.
  assert (reachable s10) as H10 by apply stateAfter_reachable, H9.
  destruct (level_spec s9 H9) as (_ & _ & Hl9 & _).
  destruct (level_spec s10 H10) as (_ & _ & _ & Hl10 & _).
  assert (linesCleared s9 = 9) as E9 by (vm_compute; reflexivity).
  assert (linesCleared s10 = 10) as E10 by (vm_compute; reflexivity).
  split; (split; [assumption|]); [apply Hl9, E9 | apply Hl10, E10].
Defined.

(** C6.  With canHold = false, [hold] returns the state unchanged; and
    any dispatch other than [restart] and [start] that takes canHold
    from false to true locks a piece and spawns the next one. *)
Theorem hold_guard_spec (rnd : TetrominoType) (s : GameState) :
  canHold s = false →
  gameReducer rnd s hold = Ret s
  ∧ (∀ a s',
       a ≠ restart → a ≠ start →
       gameReducer rnd s a = Ret s' → canHold s' = true →
       ∃ pl, lockTarget s a = Ret (Some pl)
             ∧ piece s' = Some (spawnPiece (nextPiece s))
             ∧ pieceFits (board s') (spawnPiece (nextPiece s))).
Proof.
  intros Hch. split.
  - cbn [gameReducer]. rewrite Hch.
    destruct (status s); try done. by destruct (piece s).
  - intros a s' Hr Hst Hstep Hch'.
    destruct (lockTarget s a) as [[pl|]|f] eqn:Hlt.
    + exists pl. split; [done|].
      apply (lock_dispatch rnd s a pl s' Hlt), lockAndSpawn_inv in Hstep
        as (nb & k & _ & Hb & _ & _ & _ & _ & _ & _ & Hsp).
      destruct Hsp as [(_ & _ & _ & Hc & _)|(_ & Hfit & Hp & _)];
        [congruence|]. split; [done|]. by rewrite Hb.
    + apply gameReducer_outcome in Hstep.
      destruct Hstep; try congruence; cbn in Hch'; congruence.
    + apply gameReducer_outcome in Hstep.
      destruct Hstep; try congruence; cbn in Hch', Hlt; congruence.
Qed.

(** After [start] and [hold] a second [hold] does nothing, and the hard
    drop of the swapped-in piece makes holding available again. *)
Lemma hold_guard_spec_witness :
  let s' := stateAfter [(TetrominoType.T, hard_drop)] heldState in
  canHold heldState = false
  ∧ gameReducer TetrominoType.T heldState hold = Ret heldState
  ∧ canHold s' = true
  ∧ ∃ pl, lockTarget heldState hard_drop = Ret (Some pl)
          ∧ piece s' = Some (spawnPiece (nextPiece heldState))
          ∧ pieceFits (board s') (spawnPiece (nextPiece heldState)).
Proof.
  intros s'.
  destruct (hold_guard_spec TetrominoType.T heldState eq_refl)
    as [Hnoop Hback].
  split; [reflexivity|]. split; [exact Hnoop|]. split; [reflexivity|].
  apply (Hback hard_drop s'); [discriminate | discriminate | | reflexivity].
  vm_compute. reflexivity.
Defined.

(** C7, as stated, fails.  In [startedState] the hold slot is empty, the
    active piece is an I and the next piece is an O.  [hold] with the
    draw T makes the O the active piece and puts the T into the
    next-piece slot: the spawned kind is the queued next piece, not
    the newly drawn kind. *)
Lemma hold_swap_counterexample :
  status startedState = playing
  ∧ piece startedState = Some (spawnPiece TetrominoType.I)
  ∧ canHold startedState = true
  ∧ holdPiece startedState = None
  ∧ gameReducer TetrominoType.T startedState hold = Ret heldState
  ∧ piece heldState = Some (spawnPiece TetrominoType.O)
  ∧ type (spawnPiece TetrominoType.O) ≠ TetrominoType.T
  ∧ nextPiece heldState = TetrominoType.T.
Proof. repeat split; discriminate. Qed.

(** C7, amended.  [hold] in a playing state with an active piece and
    canHold = true, on a board of ROWS x COLS cells, swaps in the held
    kind if the hold slot is non-empty and the queued next piece if it is
    empty.  If that kind fits at the spawn position with rotation 0, it
    becomes the active piece there, the kind of the former active piece
    goes into the hold slot, canHold becomes false, and the next-piece
    slot keeps its kind (hold slot non-empty) or takes the newly drawn
    kind (hold slot empty).  If it does not fit, status becomes
    game-over and the rest of the state stays, with lastLocked false. *)
Theorem hold_swap_spec (rnd : TetrominoType) (s : GameState) (p : PieceState) :
  wfBoard (board s) →
  status s = playing → piece s = Some p → canHold s = true →
  let swapIn := match holdPiece s with
                | Some held => held
                | None => nextPiece s
                end in
  (pieceFits (board s) (spawnPiece swapIn) →
   gameReducer rnd s hold
   = Ret {| board := board s;
            piece := Some {| type := swapIn; row := SPAWN_ROW;
                             col := SPAWN_COL; rotation := 0 |};
            nextPiece := match holdPiece s with
                         | Some _ => nextPiece s
                         | None => rnd
                         end;
            holdPiece := Some (type p);
            canHold := false;
            score := score s;
            level := level s;
            linesCleared := linesCleared s;
            status := playing;
            lastClearedLines := lastClearedLines s;
            lastLocked := false |})
  ∧ (¬ pieceFits (board s) (spawnPiece swapIn) →
     gameReducer rnd s hold = Ret (withStatus s gameover)).
Proof.
  intros Hwf Hst Hp Hch swapIn.
  destruct (getShape_defined swapIn 0) as (shape & Hshape & Hm & _); [lia|].
  assert (gameReducer rnd s hold
          = (ok ← fits (board s) shape SPAWN_ROW SPAWN_COL;
             if negb ok then Ret (withStatus s gameover)
             else Ret {| board := board s;
                         piece := Some (spawnPiece swapIn);
                         nextPiece := match holdPiece s with
                                      | Some _ => nextPiece s
                                      | None => rnd
                                      end;
                         holdPiece := Some (type p);
                         canHold := false;
                         score := score s;
                         level := level s;
                         linesCleared := linesCleared s;
                         status := status s;
                         lastClearedLines := lastClearedLines s;
                         lastLocked := false |})) as ->.
  { cbn [gameReducer]. rewrite Hst, Hp, Hch. cbn zeta. cbn [type row col].
    fold swapIn. rewrite Hshape. reflexivity. }
  destruct (fits_total (board s) shape SPAWN_ROW SPAWN_COL Hwf Hm)
    as [[|] Hfits]; rewrite Hfits, bind_Ret; cbn [negb]; split.
  - intros _. by rewrite Hst.
  - intros Hno. exfalso. apply Hno. exists shape. done.
  - intros (shape' & Hshape' & Hfits'). cbn [spawnPiece type rotation row col] in *.
    congruence.
  - done.
Qed.

(** [hold] on [startedState] with the draw T gives [heldState]. *)
Lemma hold_swap_spec_witness :
  gameReducer TetrominoType.T startedState hold = Ret heldState.
Proof.
  apply (hold_swap_spec TetrominoType.T startedState
           (spawnPiece TetrominoType.I));
    [vm_compute; repeat constructor | reflexivity | reflexivity | reflexivity |].
  eexists. split; vm_compute; reflexivity.
Defined.

(** C8, as stated, fails.  [oneLineGame] ends with a lock that clears
    one line.  The next dispatch, [move_left], returns a new state and
    clears no line, and lastClearedLines is still 1. *)
Lemma feedback_counterexample :
  let s := stateAfter oneLineGame (createInitialState TetrominoType.I) in
  let s' := stateAfter [(TetrominoType.T, move_left)] s in
  reachable s
  ∧ gameReducer TetrominoType.T s move_left = Ret s'
  ∧ s' ≠ s
  ∧ lockTarget s move_left = Ret None
  ∧ lastLocked s' = false
  ∧ lastClearedLines s' = 1.
Proof.
  intros s s'. split; [apply stateAfter_reachable, reach_init|].
  split; [vm_compute; reflexivity|]. split; [|by vm_compute].
  intros H. apply (f_equal lastLocked) in H. vm_compute in H. discriminate.
Qed.

(** C8, amended.  After a dispatch that returns a new state, lastLocked
    is true iff the dispatch locked a piece; lastClearedLines is the
    number of lines that lock cleared if it locked a piece, 0 after
    [restart], and the value it had before otherwise. *)
Theorem feedback_spec (rnd : TetrominoType) (s : GameState) (a : GameAction)
    (s' : GameState) :
  gameReducer rnd s a = Ret s' → s' ≠ s →
  (lastLocked s' = true ↔ ∃ pl, lockTarget s a = Ret (Some pl))
  ∧ (∀ pl, lockTarget s a = Ret (Some pl) →
       ∃ nb, lockPiece (board s) pl = Ret (nb, lastClearedLines s'))
  ∧ (lockTarget s a = Ret None →
     lastClearedLines s'
     = if decide (a = restart) then 0 else lastClearedLines s).
Proof.
  intros Hstep Hnew. split; [|split].
  - split.
    + intros Hll. apply gameReducer_outcome in Hstep.
      destruct Hstep; try done; eauto.
    + intros [pl Hlt].
      apply (lock_dispatch rnd s a pl s' Hlt), lockAndSpawn_inv in Hstep
        as (nb & k & _ & _ & _ & _ & _ & _ & Hll & _). done.
  - intros pl Hlt.
    apply (lock_dispatch rnd s a pl s' Hlt), lockAndSpawn_inv in Hstep
      as (nb & k & Hlock & _ & Hk & _).
    exists nb. by rewrite Hk.
  - intros Hlt. destruct (decide (a = restart)) as [->|Hne].
    + cbn [gameReducer] in Hstep. by injection Hstep as <-.
    + by destruct (no_lock_dispatch rnd s a s' Hlt Hstep)
        as [[? _]|(_ & _ & _ & _ & Hk & _)].
Qed.

(** The last dispatch of [oneLineGame] locks the O piece and clears one
    line. *)
Lemma feedback_spec_witness :
  let s := stateAfter (take 12 oneLineGame)
             (createInitialState TetrominoType.I) in
  let s' := stateAfter oneLineGame (createInitialState TetrominoType.I) in
  let pl := {| type := TetrominoType.O; row := 18; col := 8; rotation := 0 |} in
  lastLocked s' = true
  ∧ ∃ nb, lockPiece (board s) pl = Ret (nb, lastClearedLines s').
Proof.
  intros s s' pl.
  assert (gameReducer TetrominoType.T s hard_drop = Ret s') as Hstep
    by (vm_compute; reflexivity).
  assert (s' ≠ s) as Hnew.
  { intros H. apply (f_equal lastLocked) in H. vm_compute in H. discriminate. }
  assert (lockTarget s hard_drop = Ret (Some pl)) as Hlt
    by (vm_compute; reflexivity).
  destruct (feedback_spec TetrominoType.T s hard_drop s' Hstep Hnew)
    as (Hll & Hlines & _).
  split; [apply Hll; by exists pl | by apply Hlines].
Defined.

(** C9, as stated, fails.  After [start] and [pause] the status is
    paused and the active piece is still there ([resume] needs it). *)
Lemma active_piece_counterexample :
  let s := stateAfter [(TetrominoType.O, start); (TetrominoType.O, pause)]
             (createInitialState TetrominoType.I) in
  reachable s
  ∧ status s = paused
  ∧ piece s = Some (spawnPiece TetrominoType.I).
Proof.
  intros s. split; [apply stateAfter_reachable, reach_init|].
  split; reflexivity.
Qed.

(** C9, amended.  In every state of a game there is an active piece
    while the status is playing or paused, and none while it is idle. *)
Theorem active_piece_spec (s : GameState) :
  reachable s →
  (status s = playing ∨ status s = paused → ∃ p, piece s = Some p)
  ∧ (status s = idle → piece s = None).
Proof.
  intros Hs. apply reachable_Inv in Hs. split.
  - intros Hst. by apply (inv_active s Hs).
  - apply (inv_idle s Hs).
Qed.

(** [startedState] is playing and has its piece. *)
Lemma active_piece_spec_witness :
  ∃ p, piece startedState = Some p.
Proof.
  apply (active_piece_spec startedState).
  - apply (reach_step TetrominoType.O (createInitialState TetrominoType.I)
             start); [apply reach_init | reflexivity].
  - left. reflexivity.
Defined.

(** A game-over state can have an active piece too: in [towerGame] the
    I piece that [hold] would swap in is blocked by the tower, so [hold]
    ends the game and leaves the O piece in the state, whereas a lock
    that ends the game sets the piece to null. *)
Example gameover_after_hold_keeps_piece :
  let s := stateAfter (towerGame ++ [(TetrominoType.T, hold)])
             (createInitialState TetrominoType.I) in
  reachable s
  ∧ status s = gameover
  ∧ piece s = Some (spawnPiece TetrominoType.O).
Proof.
  intros s. split; [apply stateAfter_reachable, reach_init|].
  split; vm_compute; reflexivity.
Qed.

(** C10.  In every state of a game the active piece, if there is one,
    fits the board: [fits] holds for its shape at its position, that is,
    every occupied cell of the shape lies in [0, ROWS) x [0, COLS) and
    over an empty board cell. *)
Theorem piece_fits_spec (s : GameState) (p : PieceState) :
  reachable s → piece s = Some p →
  ∃ shape,
    getShape (type p) (rotation p) = Some shape
    ∧ fits (board s) shape (row p) (col p) = Ret true
    ∧ ∀ r c, occupied shape r c →
        inside (row p + Z.of_nat r) (col p + Z.of_nat c)
        ∧ cellAt (board s) (Z.to_nat (row p + Z.of_nat r))
                           (Z.to_nat (col p + Z.of_nat c)) = Some Empty.
Proof.
  intros Hs Hp. apply reachable_Inv in Hs.
  destruct (inv_fits s Hs p Hp) as (shape & Hshape & Hfits).
  pose proof (inv_board s Hs) as Hwf.
  exists shape. split; [done|]. split; [done|].
  destruct (getShape_defined (type p) (rotation p)
              (inv_rotation s Hs p Hp)) as (shape' & Hshape' & Hm & _).
  assert (shape' = shape) as -> by congruence.
  destruct (fits_returns (board s) shape (row p) (col p) Hwf Hm)
    as [[Hf _]|[_ Hno]]; [congruence|].
  intros r c Hocc.
  destruct (decide (inside (row p + Z.of_nat r) (col p + Z.of_nat c)))
    as [Hin|Hout].
  - split; [done|].
    destruct Hin as [Hr Hc].
    destruct (wfBoard_lookup (board s) (Z.to_nat (row p + Z.of_nat r)) Hwf)
      as (brow & Hbrow & Hlen); [lia|].
    destruct (lookup_lt_is_Some_2 brow (Z.to_nat (col p + Z.of_nat c)))
      as [cell Hcell]; [lia|].
    unfold cellAt. rewrite Hbrow. cbn. rewrite Hcell.
    destruct cell as [|t]; [done|].
    exfalso. apply Hno. exists r, c. split; [done|]. right.
    exists t. unfold cellAt. rewrite Hbrow. cbn. done.
  - exfalso. apply Hno. exists r, c. split; [done|]. by left.
Qed.

(** The I piece of [startedState] lies in row 1, columns 3 to 6, of the
    empty board. *)
Lemma piece_fits_spec_witness :
  ∃ shape,
    getShape TetrominoType.I 0 = Some shape
    ∧ fits createEmptyBoard shape 0 3 = Ret true
    ∧ ∀ r c, occupied shape r c →
        inside (0 + Z.of_nat r) (3 + Z.of_nat c)
        ∧ cellAt createEmptyBoard (Z.to_nat (0 + Z.of_nat r))
                                  (Z.to_nat (3 + Z.of_nat c)) = Some Empty.
Proof.
  apply (piece_fits_spec startedState (spawnPiece TetrominoType.I)).
  - apply (reach_step TetrominoType.O (createInitialState TetrominoType.I)
             start); [apply reach_init | reflexivity].
  - reflexivity.
Defined.

(** * Further properties of the sources *)

(** ** The reducer *)

(** X1.  While the status is idle only [start] and [restart] do
    something, while it is paused only [resume] and [restart], and once
    it is game-over only [restart]: every other dispatch returns the
    state as it is. *)
Theorem status_gate (rnd : TetrominoType) (s : GameState) (a : GameAction) :
  (status s = idle → a ≠ start → a ≠ restart → gameReducer rnd s a = Ret s)
  ∧ (status s = paused → a ≠ resume → a ≠ restart →
     gameReducer rnd s a = Ret s)
  ∧ (status s = gameover → a ≠ restart → gameReducer rnd s a = Ret s).
Proof.
  repeat split; intros Hst; destruct a; try done; intros;
    cbn [gameReducer]; unfold moveDown; rewrite Hst; reflexivity.
Qed.

(** A paused game ignores a hard drop. *)
Lemma status_gate_witness :
  gameReducer TetrominoType.T (withStatus startedState paused) hard_drop
  = Ret (withStatus startedState paused).
Proof.
  destruct (status_gate TetrominoType.T (withStatus startedState paused)
              hard_drop) as (_ & Hpaused & _).
  apply Hpaused; [reflexivity | discriminate | discriminate].
Defined.

Lemma lockTarget_actions s a pl :
  lockTarget s a = Ret (Some pl) →
  (a = move_down ∨ a = tick ∨ a = hard_drop) ∧ status s = playing.
Proof.
  destruct a; cbn [lockTarget]; try discriminate;
    (destruct (status s) eqn:Hst; try discriminate); auto.
Qed.

Lemma lockTarget_returns rnd s a s' :
  gameReducer rnd s a = Ret s' → ∃ t, lockTarget s a = Ret t.
Proof.
  intros H. apply gameReducer_outcome in H.
  destruct H; eauto; cbn [lockTarget]; eauto.
Qed.

(** X2.  Only [restart], and [move_down], [tick] and [hard_drop] when
    they lock the piece, change the board, the score, the number of
    lines or the level: if a dispatch returns a state in which one of
    them differs, the action is [restart], or it is one of the three,
    the game was playing and the returned state has lastLocked set. *)
Theorem board_and_counters_frame (rnd : TetrominoType) (s : GameState)
    (a : GameAction) (s' : GameState) :
  gameReducer rnd s a = Ret s' →
  board s' ≠ board s ∨ score s' ≠ score s
  ∨ linesCleared s' ≠ linesCleared s ∨ level s' ≠ level s →
  a = restart
  ∨ ((a = move_down ∨ a = tick ∨ a = hard_drop)
     ∧ status s = playing ∧ lastLocked s' = true).
Proof.
  intros Hstep Hdiff.
  destruct (lockTarget_returns rnd s a s' Hstep) as [[pl|] Hlt].
  - right. destruct (lockTarget_actions s a pl Hlt) as [Ha Hst].
    split; [done|]. split; [done|].
    apply (lock_dispatch rnd s a pl s' Hlt), lockAndSpawn_inv in Hstep
      as (nb & k & _ & _ & _ & _ & _ & _ & Hll & _). done.
  - destruct (no_lock_dispatch rnd s a s' Hlt Hstep)
      as [[-> _]|(Hb & Hsc & Hli & Hle & _)]; [by left|].
    exfalso. destruct Hdiff as [?|[?|[?|?]]]; congruence.
Qed.

(** The hard drop that ends [oneLineGame] changes the score. *)
Lemma board_and_counters_frame_witness :
  let s := stateAfter (take 12 oneLineGame)
             (createInitialState TetrominoType.I) in
  let s' := stateAfter oneLineGame (createInitialState TetrominoType.I) in
  hard_drop = restart
  ∨ ((hard_drop = move_down ∨ hard_drop = tick ∨ hard_drop = hard_drop)
     ∧ status s = playing ∧ lastLocked s' = true).
Proof.
  intros s s'.
  apply (board_and_counters_frame TetrominoType.T s hard_drop s').
  - vm_compute. reflexivity.
  - right. left. vm_compute. discriminate.
Defined.

Lemma rowFull_false (brow : list CellValue) :
  rowFull brow = false → ∃ c, brow !! c = Some Empty.
Proof.
  induction brow as [|cell brow IH]; [done|].
  unfold rowFull. cbn [forallb].
  destruct cell as [|t].
  - intros _. by exists 0%nat.
  - cbn. intros H. destruct (IH H) as [c Hc]. by exists (S c).
Qed.

(** X3.  In every state of a game the board has ROWS rows of COLS cells
    and none of its rows is full. *)
Theorem board_invariant (s : GameState) :
  reachable s →
  length (board s) = Z.to_nat ROWS
  ∧ (∀ brow, brow ∈ board s →
       length brow = Z.to_nat COLS ∧ ∃ c, brow !! c = Some Empty).
Proof.
  intros Hs. apply reachable_Inv in Hs.
  destruct (inv_board s Hs) as [Hlen Hall]. split; [done|].
  intros brow Hin. split.
  - rewrite List.Forall_forall in Hall. by apply Hall, list_elem_of_In.
  - pose proof (inv_rows s Hs) as Hrows.
    rewrite List.Forall_forall in Hrows.
    specialize (Hrows brow (proj1 (list_elem_of_In _ _) Hin)).
    by apply rowFull_false.
Qed.

(** The board after [oneLineGame]. *)
Lemma board_invariant_witness :
  let s := stateAfter oneLineGame (createInitialState TetrominoType.I) in
  length (board s) = Z.to_nat ROWS
  ∧ (∀ brow, brow ∈ board s →
       length brow = Z.to_nat COLS ∧ ∃ c, brow !! c = Some Empty).
Proof.
  intros s. apply (board_invariant s).
  apply stateAfter_reachable, reach_init.
Defined.

Lemma LINE_SCORES_bounds k :
  0 <= k <= 4 →
  100 * k <= default 0 (LINE_SCORES k) <= 200 * k
  ∧ (100 | default 0 (LINE_SCORES k)).
Proof.
  intros Hk.
  assert (k = 0 ∨ k = 1 ∨ k = 2 ∨ k = 3 ∨ k = 4) as [->|[->|[->|[->| ->]]]]
    by lia; cbn; (split; [lia|]).
  - by exists 0.
  - by exists 1.
  - by exists 3.
  - by exists 5.
  - by exists 8.
Qed.

(** A lock from a state that satisfies the invariant: the count of
    lines and what it adds to the counters. *)
Lemma lock_counters rnd s a pl s' :
  Inv s →
  lockTarget s a = Ret (Some pl) →
  gameReducer rnd s a = Ret s' →
  ∃ k, 0 <= k <= 4
       ∧ lastClearedLines s' = k
       ∧ linesCleared s' = linesCleared s + k
       ∧ score s' = score s + default 0 (LINE_SCORES k).
Proof.
  intros HI Hlt Hstep.
  pose proof (lock_dispatch rnd s a pl s' Hlt Hstep) as Hlock.
  apply lockAndSpawn_inv in Hlock
    as (nb & k & Hlock & _ & Hk & Hsc & Hli & _).
  exists k. split; [|done].
  assert (0 <= rotation pl) as Hrot.
  { apply gameReducer_outcome in Hstep.
    destruct Hstep; try congruence; cbn in Hlt; try congruence.
    assert (pl0 = pl) as -> by congruence.
    rewrite H3. by apply (inv_rotation s HI). }
  by apply (lockPiece_lines (board s) pl nb k
              (inv_board s HI) (inv_rows s HI) Hrot).
Qed.

Lemma reachable_counters (s : GameState) :
  reachable s →
  0 <= linesCleared s
  ∧ 100 * linesCleared s <= score s <= 200 * linesCleared s
  ∧ (100 | score s).
Proof.
  induction 1 as [rnd|rnd s a s' Hs IH Hstep].
  - cbn. repeat split; try lia. by exists 0.
  - destruct IH as (Hli & Hsc & Hdiv).
    destruct (lockTarget_returns rnd s a s' Hstep) as [[pl|] Hlt].
    + destruct (lock_counters rnd s a pl s' (reachable_Inv s Hs) Hlt Hstep)
        as (k & Hk & _ & -> & ->).
      destruct (LINE_SCORES_bounds k Hk) as [Hb Hd].
      repeat split; try lia. by apply Z.divide_add_r.
    + destruct (no_lock_dispatch rnd s a s' Hlt Hstep)
        as [[_ ->]|(_ & -> & -> & _)]; [|done].
      cbn. repeat split; try lia. by exists 0.
Qed.

(** X4.  In every state of a game the number of cleared lines is not
    negative, the score is a multiple of 100 between 100 and 200 points
    per cleared line, and the level is at least 1. *)
Theorem counters_invariant (s : GameState) :
  reachable s →
  0 <= linesCleared s
  ∧ 100 * linesCleared s <= score s <= 200 * linesCleared s
  ∧ (100 | score s)
  ∧ 1 <= level s.
Proof.
  intros Hs.
  destruct (reachable_counters s Hs) as (Hli & Hsc & Hdiv).
  repeat split; try done; try lia.
  rewrite (inv_level s (reachable_Inv s Hs)).
  pose proof (Z.div_pos (linesCleared s) LINES_PER_LEVEL Hli ltac:(done)).
  lia.
Qed.

(** After [nineLineGame]: 9 lines, 900 points, level 1. *)
Lemma counters_invariant_witness :
  let s := stateAfter nineLineGame (createInitialState TetrominoType.I) in
  (linesCleared s = 9 ∧ score s = 900)
  ∧ 0 <= linesCleared s
  ∧ 100 * linesCleared s <= score s <= 200 * linesCleared s
  ∧ (100 | score s)
  ∧ 1 <= level s.
Proof.
  intros s. split; [split; vm_compute; reflexivity|].
  apply (counters_invariant s). apply stateAfter_reachable, reach_init.
Defined.

(** X5.  In a game no dispatch other than [restart] lowers the number
    of cleared lines or the level. *)
Theorem counters_monotone (rnd : TetrominoType) (s : GameState)
    (a : GameAction) (s' : GameState) :
  reachable s → a ≠ restart →
  gameReducer rnd s a = Ret s' →
  linesCleared s <= linesCleared s' ∧ level s <= level s'.
Proof.
  intros Hs Hne Hstep.
  pose proof (reachable_Inv s Hs) as HI.
  assert (linesCleared s <= linesCleared s') as Hli.
  { destruct (lockTarget_returns rnd s a s' Hstep) as [[pl|] Hlt].
    - destruct (lock_counters rnd s a pl s' HI Hlt Hstep)
        as (k & Hk & _ & -> & _). lia.
    - destruct (no_lock_dispatch rnd s a s' Hlt Hstep)
        as [[? _]|(_ & _ & -> & _)]; [done | lia]. }
  split; [done|].
  rewrite (inv_level s HI).
  rewrite (inv_level s' (reachable_Inv s' (reach_step rnd s a s' Hs Hstep))).
  pose proof (Z.div_le_mono (linesCleared s) (linesCleared s')
                LINES_PER_LEVEL ltac:(done) Hli).
  lia.
Qed.

(** The two pieces that take [nineLineGame] from 9 to 10 lines raise
    the level. *)
Lemma counters_monotone_witness :
  let s9 := stateAfter nineLineGame (createInitialState TetrominoType.I) in
  let s := stateAfter
             (turn TetrominoType.I [move_left; move_left; move_left]
              ++ [(TetrominoType.I, move_right)]) s9 in
  let s' := stateAfter [(TetrominoType.I, hard_drop)] s in
  (level s = 1 ∧ level s' = 2)
  ∧ linesCleared s <= linesCleared s' ∧ level s <= level s'.
Proof.
  intros s9 s s'. split; [split; vm_compute; reflexivity|].
  apply (counters_monotone TetrominoType.I s hard_drop s').
  - apply stateAfter_reachable, stateAfter_reachable, reach_init.
  - discriminate.
  - vm_compute. reflexivity.
Defined.

(** Every kind fits at the spawn position of the empty board. *)
Lemma spawn_on_empty_board t :
  spawnNext t createEmptyBoard = Ret (Some (spawnPiece t)).
Proof. by destruct t. Qed.

(** An idle state of a game is an initial state. *)
Lemma idle_is_initial s :
  reachable s → status s = idle → s = createInitialState (nextPiece s).
Proof.
  induction 1 as [rnd|rnd s a s' Hs IH Hstep]; [done|].
  apply gameReducer_outcome in Hstep.
  destruct Hstep as [a Hlt| Hst | Hst | | Hst Hsp | p Hst Hsp
                     | a p p' Hst Hp Hlt Hty Hrot Hfit
                     | a p pl s' Hst Hp Hlt Hty Hrot Hlock
                     | p shape Hst Hp Hch Hshape Hfit | p Hst Hp Hch Hfit];
    cbn; try done; try congruence.
  apply lockAndSpawn_inv in Hlock
    as (nb & k & _ & _ & _ & _ & _ & _ & _ & _ & Hsp).
  destruct Hsp as [(_ & _ & Hs' & _)|(_ & _ & _ & Hs' & _)]; congruence.
Qed.

(** X6.  In a game [start] never ends in game-over: from an idle state
    it returns a playing state whose active piece is the previewed kind
    at the spawn position, on the empty board, with all counters at
    their initial values and the drawn kind as the next piece. *)
Theorem start_begins_game (rnd : TetrominoType) (s : GameState) :
  reachable s → status s = idle →
  gameReducer rnd s start
  = Ret {| board := createEmptyBoard;
           piece := Some (spawnPiece (nextPiece s));
           nextPiece := rnd;
           holdPiece := None;
           canHold := true;
           score := 0;
           level := 1;
           linesCleared := 0;
           status := playing;
           lastClearedLines := 0;
           lastLocked := false |}.
Proof.
  intros Hs Hst. rewrite (idle_is_initial s Hs Hst) at 1.
  cbn [gameReducer createInitialState status bool_decide decide_rel negb
       nextPiece board].
  rewrite spawn_on_empty_board. reflexivity.
Qed.

(** [start] after a [restart] in the middle of [oneLineGame]. *)
Lemma start_begins_game_witness :
  let s := stateAfter (take 12 oneLineGame ++ [(TetrominoType.J, restart)])
             (createInitialState TetrominoType.I) in
  gameReducer TetrominoType.L s start
  = Ret {| board := createEmptyBoard;
           piece := Some (spawnPiece TetrominoType.J);
           nextPiece := TetrominoType.L;
           holdPiece := None;
           canHold := true;
           score := 0;
           level := 1;
           linesCleared := 0;
           status := playing;
           lastClearedLines := 0;
           lastLocked := false |}.
Proof.
  intros s.
  apply (start_begins_game TetrominoType.L s);
    [apply stateAfter_reachable, reach_init | reflexivity].
Defined.

(** X7.  The preview is kept: whenever a dispatch other than [restart]
    changes the next-piece slot, the kind that was in it is now the
    active piece, at the spawn position with rotation 0, and the slot
    holds the newly drawn kind. *)
Theorem next_piece_queue (rnd : TetrominoType) (s : GameState)
    (a : GameAction) (s' : GameState) :
  gameReducer rnd s a = Ret s' → a ≠ restart →
  nextPiece s' ≠ nextPiece s →
  piece s' = Some {| type := nextPiece s; row := SPAWN_ROW;
                     col := SPAWN_COL; rotation := 0 |}
  ∧ nextPiece s' = rnd.
Proof.
  intros Hstep Hne Hnext. apply gameReducer_outcome in Hstep.
  destruct Hstep as [a Hlt| Hst | Hst | | Hst Hsp | p Hst Hsp
                     | a p p' Hst Hp Hlt Hty Hrot Hfit
                     | a p pl s' Hst Hp Hlt Hty Hrot Hlock
                     | p shape Hst Hp Hch Hshape Hfit | p Hst Hp Hch Hfit];
    try done.
  - apply spawnNext_inv in Hsp as [[? _]|[[= ->] _]]; done.
  - apply lockAndSpawn_inv in Hlock
      as (nb & k & _ & _ & _ & _ & _ & _ & _ & _ & Hsp).
    destruct Hsp as [(_ & _ & _ & _ & Hn)|(_ & _ & Hp' & _ & _ & Hn)];
      [congruence | done].
  - cbn in Hnext |- *. destruct (holdPiece s); done.
Qed.

(** [hold] with an empty hold slot takes the previewed O piece. *)
Lemma next_piece_queue_witness :
  piece heldState = Some {| type := TetrominoType.O; row := SPAWN_ROW;
                            col := SPAWN_COL; rotation := 0 |}
  ∧ nextPiece heldState = TetrominoType.T.
Proof.
  apply (next_piece_queue TetrominoType.T startedState hold heldState);
    [reflexivity | discriminate | discriminate].
Defined.

(** ** Where the active piece comes from *)

(** The run of a move: test the new position, move or not. *)
Lemma tryMove_inv (s : GameState) t rot row col (s1 s2 s' : GameState) :
  (shape ← defined (getShape t rot);
   ok ← fits (board s) shape row col;
   if (ok : bool) then Ret s1 else Ret s2) = Ret s' →
  ∃ shape, getShape t rot = Some shape
           ∧ (fits (board s) shape row col = Ret true ∧ s' = s1
              ∨ fits (board s) shape row col = Ret false ∧ s' = s2).
Proof.
  run_case Hshape.
  destruct (fits _ _ _ _) as [[|]|] eqn:Hfits;
    rewrite ?bind_Ret, ?bind_Fail; [| |by intros [=]]; intros [= <-];
    eexists; split; try reflexivity; auto.
Qed.

Lemma moveDown_inv rnd s s' :
  moveDown rnd s = Ret s' →
  s' = s
  ∨ ∃ p, status s = playing ∧ piece s = Some p
         ∧ (s' = withPiece s {| type := type p; row := row p + 1;
                                col := col p; rotation := rotation p |}
            ∨ lockAndSpawn rnd s p = Ret s').
Proof.
  unfold moveDown.
  destruct (status s) eqn:Hst; try (intros [= <-]; by left).
  destruct (piece s) as [p|] eqn:Hp; [|intros [= <-]; by left].
  run_case Hshape.
  destruct (fits _ _ _ _) as [[|]|] eqn:Hfits;
    rewrite ?bind_Ret, ?bind_Fail; [| |by intros [=]].
  - intros [= <-]. right. exists p. auto.
  - intros H. right. exists p. auto.
Qed.

(** The active piece of the state a dispatch returns is a freshly
    spawned piece, the piece as it was, or the piece moved by the
    action. *)
Lemma piece_step rnd s a s' p' :
  gameReducer rnd s a = Ret s' → piece s' = Some p' →
  p' = spawnPiece (type p')
  ∨ ∃ p, piece s = Some p
         ∧ (p' = p
            ∨ status s = playing ∧ movedPiece a p = Some p'
              ∧ s' = withPiece s p').
Proof.
  assert (∀ s1, lockAndSpawn rnd s s1 = Ret s' → piece s' = Some p' →
                p' = spawnPiece (type p')) as Hlock.
  { intros s1 H Hp'. apply lockAndSpawn_inv in H
      as (nb & k & _ & _ & _ & _ & _ & _ & _ & _ & Hsp).
    destruct Hsp as [(_ & Hn & _)|(_ & _ & Hn & _)]; [congruence|].
    assert (p' = spawnPiece (nextPiece s)) as -> by congruence. done. }
  assert (∀ q, piece s = Some q → status s = playing →
               movedPiece a q = Some p' → s' = withPiece s p' →
               p' = spawnPiece (type p')
               ∨ ∃ p, piece s = Some p
                      ∧ (p' = p
                         ∨ status s = playing ∧ movedPiece a p = Some p'
                           ∧ s' = withPiece s p')) as Hmoved.
  { intros q Hq Hst Hm Hs'. right. exists q. auto. }
  assert (s' = s → piece s' = Some p' →
          p' = spawnPiece (type p')
          ∨ ∃ p, piece s = Some p
                 ∧ (p' = p
                    ∨ status s = playing ∧ movedPiece a p = Some p'
                      ∧ s' = withPiece s p')) as Hsame.
  { intros -> Hp'. right. exists p'. auto. }
  assert (∀ st, s' = withStatus s st → piece s' = Some p' →
          p' = spawnPiece (type p')
          ∨ ∃ p, piece s = Some p
                 ∧ (p' = p
                    ∨ status s = playing ∧ movedPiece a p = Some p'
                      ∧ s' = withPiece s p')) as Hstatus.
  { intros st -> Hp'. right. exists p'. auto. }
  destruct a; cbn [gameReducer].
  - (* start *)
    destruct (negb _); [intros [= <-]; by apply Hsame|].
    destruct (spawnNext _ _) as [[p|]|] eqn:Hsp;
      rewrite ?bind_Ret, ?bind_Fail; [| |by intros [=]]; intros [= <-].
    + cbn. intros [= <-].
      apply spawnNext_inv in Hsp as [[? _]|[[= ->] _]]; [done | by left].
    + by apply (Hstatus gameover).
  - destruct (negb _); intros [= <-];
      [by apply Hsame | by apply (Hstatus paused)].
  - destruct (negb _); intros [= <-];
      [by apply Hsame | by apply (Hstatus playing)].
  - by intros [= <-].
  - (* move_left *)
    destruct (status s) eqn:Hst; try (intros [= <-]; by apply Hsame).
    destruct (piece s) as [p|] eqn:Hp; [|intros [= <-]; by apply Hsame].
    intros H Hp'. apply tryMove_inv in H as (shape & _ & [[_ ->]|[_ ->]]);
      [|by apply Hsame].
    cbn in Hp'. injection Hp' as <-. by apply (Hmoved p).
  - (* move_right *)
    destruct (status s) eqn:Hst; try (intros [= <-]; by apply Hsame).
    destruct (piece s) as [p|] eqn:Hp; [|intros [= <-]; by apply Hsame].
    intros H Hp'. apply tryMove_inv in H as (shape & _ & [[_ ->]|[_ ->]]);
      [|by apply Hsame].
    cbn in Hp'. injection Hp' as <-. by apply (Hmoved p).
  - (* move_down *)
    intros H Hp'. apply moveDown_inv in H
      as [->|(p & Hst & Hp & [->|H])]; [by apply Hsame | |].
    + cbn in Hp'. injection Hp' as <-. by apply (Hmoved p).
    + left. by apply (Hlock p).
  - (* rotate_cw *)
    destruct (status s) eqn:Hst; try (intros [= <-]; by apply Hsame).
    destruct (piece s) as [p|] eqn:Hp; [|intros [= <-]; by apply Hsame].
    cbn zeta.
    intros H Hp'. apply tryMove_inv in H as (shape & _ & [[_ ->]|[_ ->]]);
      [|by apply Hsame].
    cbn in Hp'. injection Hp' as <-. by apply (Hmoved p).
  - (* rotate_ccw *)
    destruct (status s) eqn:Hst; try (intros [= <-]; by apply Hsame).
    destruct (piece s) as [p|] eqn:Hp; [|intros [= <-]; by apply Hsame].
    cbn zeta.
    intros H Hp'. apply tryMove_inv in H as (shape & _ & [[_ ->]|[_ ->]]);
      [|by apply Hsame].
    cbn in Hp'. injection Hp' as <-. by apply (Hmoved p).
  - (* hard_drop *)
    destruct (status s) eqn:Hst; try (intros [= <-]; by apply Hsame).
    destruct (piece s) as [p|] eqn:Hp; [|intros [= <-]; by apply Hsame].
    run_case Hshape. run_case Hdrop. cbn zeta.
    intros H Hp'. left. by eapply Hlock.
  - (* hold *)
    destruct (status s) eqn:Hst; try (intros [= <-]; by apply Hsame).
    destruct (piece s) as [p|] eqn:Hp; [|intros [= <-]; by apply Hsame].
    destruct (canHold s); [|intros [= <-]; by apply Hsame].
    cbn zeta. cbn [type row col]. run_case Hshape.
    destruct (fits _ _ _ _) as [[|]|] eqn:Hfits;
      rewrite ?bind_Ret, ?bind_Fail; [| |by intros [=]];
      cbn [negb]; intros [= <-].
    + cbn. intros [= <-]. by left.
    + intros Hp'. apply (Hstatus gameover); [done|]. exact Hp'.
  - (* tick *)
    destruct (negb _) eqn:Hst; [intros [= <-]; by apply Hsame|].
    apply status_guard in Hst.
    intros H Hp'. apply moveDown_inv in H
      as [->|(p & _ & Hp & [->|H])]; [by apply Hsame | |].
    + cbn in Hp'. injection Hp' as <-. by apply (Hmoved p).
    + left. by apply (Hlock p).
Qed.

(** In a game the rotation index of the active piece is 0, 1, 2 or 3. *)
Lemma reachable_rotation s p :
  reachable s → piece s = Some p → 0 <= rotation p < 4.
Proof.
  intros Hs. revert p.
  induction Hs as [rnd|rnd s a s' Hs IH Hstep]; [done|].
  intros p' Hp'.
  destruct (piece_step rnd s a s' p' Hstep Hp')
    as [->|(p & Hp & [->|(_ & Hm & _)])].
  - cbn. lia.
  - by apply IH.
  - specialize (IH p Hp).
    destruct a; cbn in Hm; try discriminate; injection Hm as <-; cbn;
      try done; apply rem4_nonneg; lia.
Qed.

(** ** Moves that undo each other *)

(** A shift or a rotation tests the moved piece and takes it or leaves
    the state. *)
Lemma move_run rnd s a p p1 :
  status s = playing → piece s = Some p →
  a = move_left ∨ a = move_right ∨ a = rotate_cw ∨ a = rotate_ccw →
  movedPiece a p = Some p1 →
  gameReducer rnd s a
  = (shape ← defined (getShape (type p1) (rotation p1));
     ok ← fits (board s) shape (row p1) (col p1);
     if (ok : bool) then Ret (withPiece s p1) else Ret s).
Proof.
  intros Hst Hp [->|[->|[->| ->]]] [= <-]; cbn [gameReducer];
    rewrite Hst, Hp; reflexivity.
Qed.

(** A shift or a rotation that did something moved the piece to a
    position where it fits. *)
Lemma move_done rnd s a s1 :
  a = move_left ∨ a = move_right ∨ a = rotate_cw ∨ a = rotate_ccw →
  gameReducer rnd s a = Ret s1 → s1 ≠ s →
  ∃ p p1, status s = playing ∧ piece s = Some p
          ∧ movedPiece a p = Some p1
          ∧ pieceFits (board s) p1
          ∧ s1 = withPiece s p1.
Proof.
  intros Ha Hstep Hnew.
  destruct (decide (status s = playing)) as [Hst|Hst].
  2: { exfalso. apply Hnew.
       destruct Ha as [->|[->|[->| ->]]]; cbn [gameReducer] in Hstep;
         destruct (status s); try done; congruence. }
  destruct (piece s) as [p|] eqn:Hp.
  2: { exfalso. apply Hnew.
       destruct Ha as [->|[->|[->| ->]]]; cbn [gameReducer] in Hstep;
         rewrite Hst, Hp in Hstep; congruence. }
  assert (∃ p1, movedPiece a p = Some p1) as [p1 Hp1]
    by (destruct Ha as [->|[->|[->| ->]]]; cbn; eauto).
  rewrite (move_run rnd s a p p1 Hst Hp Ha Hp1) in Hstep.
  apply tryMove_inv in Hstep as (shape & Hshape & [[Hfits ->]|[_ ->]]);
    [|done].
  exists p, p1. repeat split; try done. by exists shape.
Qed.

Lemma move_back rnd s p p1 b :
  status s = playing → pieceFits (board s) p →
  b = move_left ∨ b = move_right ∨ b = rotate_cw ∨ b = rotate_ccw →
  movedPiece b p1 = Some p →
  gameReducer rnd (withPiece s p1) b = Ret (withPiece s p).
Proof.
  intros Hst (shape & Hshape & Hfits) Hb Hp.
  rewrite (move_run rnd (withPiece s p1) b p1 p Hst eq_refl Hb Hp).
  rewrite Hshape. cbn [defined withPiece board]. rewrite bind_Ret, Hfits.
  reflexivity.
Qed.

(** X8.  In a game a shift that moved the piece is undone by the
    opposite shift: after [move_left] has returned a new state,
    [move_right] returns the state before the two, with lastLocked
    false; and the same for [move_right] followed by [move_left]. *)
Theorem shift_round_trip (rnd rnd' : TetrominoType) (s s1 : GameState)
    (a b : GameAction) :
  reachable s →
  a = move_left ∧ b = move_right ∨ a = move_right ∧ b = move_left →
  gameReducer rnd s a = Ret s1 → s1 ≠ s →
  ∃ p, piece s = Some p ∧ gameReducer rnd' s1 b = Ret (withPiece s p).
Proof.
  intros Hs Hab Hstep Hnew.
  assert (a = move_left ∨ a = move_right ∨ a = rotate_cw ∨ a = rotate_ccw)
    as Ha by (destruct Hab as [[-> _]|[-> _]]; auto).
  destruct (move_done rnd s a s1 Ha Hstep Hnew)
    as (p & p1 & Hst & Hp & Hp1 & _ & ->).
  exists p. split; [done|].
  apply move_back; [done | by apply (inv_fits s (reachable_Inv s Hs)) | |].
  - destruct Hab as [[_ ->]|[_ ->]]; auto.
  - destruct Hab as [[-> ->]|[-> ->]]; injection Hp1 as <-; destruct p;
      cbn; do 2 f_equal; lia.
Qed.

(** Left, then right, from [startedState]. *)
Lemma shift_round_trip_witness :
  let s1 := stateAfter [(TetrominoType.T, move_left)] startedState in
  ∃ p, piece startedState = Some p
       ∧ gameReducer TetrominoType.T s1 move_right
         = Ret (withPiece startedState p).
Proof.
  intros s1.
  apply (shift_round_trip TetrominoType.T TetrominoType.T startedState s1
           move_left move_right).
  - apply (reach_step TetrominoType.O (createInitialState TetrominoType.I)
             start); [apply reach_init | reflexivity].
  - left. split; reflexivity.
  - reflexivity.
  - discriminate.
Defined.

(** X9.  In a game the rotation index of the active piece is 0, 1, 2 or
    3, and a rotation that turned the piece is undone by the opposite
    rotation: after [rotate_cw] has returned a new state, [rotate_ccw]
    returns the state before the two, with lastLocked false; and the
    same for [rotate_ccw] followed by [rotate_cw]. *)
Theorem rotation_round_trip (rnd rnd' : TetrominoType) (s s1 : GameState)
    (a b : GameAction) :
  reachable s →
  (∀ p, piece s = Some p → 0 <= rotation p < 4)
  ∧ (a = rotate_cw ∧ b = rotate_ccw ∨ a = rotate_ccw ∧ b = rotate_cw →
     gameReducer rnd s a = Ret s1 → s1 ≠ s →
     ∃ p, piece s = Some p ∧ gameReducer rnd' s1 b = Ret (withPiece s p)).
Proof.
  intros Hs. split; [intros p; by apply reachable_rotation|].
  intros Hab Hstep Hnew.
  assert (a = move_left ∨ a = move_right ∨ a = rotate_cw ∨ a = rotate_ccw)
    as Ha by (destruct Hab as [[-> _]|[-> _]]; auto).
  destruct (move_done rnd s a s1 Ha Hstep Hnew)
    as (p & p1 & Hst & Hp & Hp1 & _ & ->).
  exists p. split; [done|].
  apply move_back; [done | by apply (inv_fits s (reachable_Inv s Hs)) | |].
  - destruct Hab as [[_ ->]|[_ ->]]; auto.
  - pose proof (reachable_rotation s p Hs Hp) as Hrot.
    assert (rotation p = 0 ∨ rotation p = 1 ∨ rotation p = 2
            ∨ rotation p = 3) as Hcases by lia.
    destruct Hab as [[-> ->]|[-> ->]]; injection Hp1 as <-; destruct p;
      cbn in *; do 2 f_equal;
      destruct Hcases as [->|[->|[->| ->]]]; reflexivity.
Qed.

(** Clockwise, then counterclockwise, from [startedState]. *)
Lemma rotation_round_trip_witness :
  let s1 := stateAfter [(TetrominoType.T, rotate_cw)] startedState in
  ∃ p, piece startedState = Some p
       ∧ gameReducer TetrominoType.T s1 rotate_ccw
         = Ret (withPiece startedState p).
Proof.
  intros s1.
  destruct (rotation_round_trip TetrominoType.T TetrominoType.T
              startedState s1 rotate_cw rotate_ccw) as [_ Hback].
  - apply (reach_step TetrominoType.O (createInitialState TetrominoType.I)
             start); [apply reach_init | reflexivity].
  - apply Hback; [left; split; reflexivity | reflexivity | discriminate].
Defined.

(** ** Falling *)

(** Where the drop loop stops: at the first row below which the shape
    does not fit, after rows where it fits. *)
Lemma dropLoop_spec (b : Board) (shape : ShapeMatrix) col :
  wfBoard b → isMatrix shape → nonEmptyShape shape →
  ∀ (fuel : nat) row,
    (Z.to_nat (ROWS - row) < fuel)%nat →
    ∃ row', dropLoop fuel b shape row col = Ret row'
            ∧ row <= row'
            ∧ fits b shape (row' + 1) col = Ret false
            ∧ ∀ r, row < r <= row' → fits b shape r col = Ret true.
Proof.
  intros Hwf Hm Hne. induction fuel as [|fuel IH]; intros row Hfuel; [lia|].
  cbn [dropLoop].
  destruct (fits_total b shape (row + 1) col Hwf Hm) as [[|] Hfits];
    rewrite Hfits, bind_Ret.
  - pose proof (fits_true_above_floor b shape (row + 1) col Hwf Hm Hne Hfits).
    destruct (IH (row + 1)) as (row' & Hrun & Hle & Hstop & Hfit); [lia|].
    exists row'. split; [done|]. split; [lia|]. split; [done|].
    intros r Hr. destruct (decide (r = row + 1)) as [->|]; [done|].
    apply Hfit. lia.
  - exists row. split; [done|]. split; [lia|]. split; [done|]. lia.
Qed.

(** The drop loop from the position of the active piece. *)
Lemma ghost_row_facts (s : GameState) (p : PieceState) :
  reachable s → piece s = Some p →
  ∃ (shape : ShapeMatrix) (g : Z),
    getShape (type p) (rotation p) = Some shape
    ∧ Renderer.getGhostRow (board s) p = Ret g
    ∧ row p <= g < ROWS
    ∧ (∀ r, row p <= r <= g → fits (board s) shape r (col p) = Ret true)
    ∧ fits (board s) shape (g + 1) (col p) = Ret false
    ∧ (status s = playing →
       lockTarget s hard_drop
       = Ret (Some {| type := type p; row := g; col := col p;
                      rotation := rotation p |})).
Proof.
  intros Hs Hp. apply reachable_Inv in Hs.
  pose proof (inv_board s Hs) as Hwf.
  destruct (getShape_defined (type p) (rotation p) (inv_rotation s Hs p Hp))
    as (shape & Hshape & Hm & Hne & _).
  destruct (dropLoop_spec (board s) shape (col p) Hwf Hm Hne
              (dropFuel (row p)) (row p))
    as (g & Hrun & Hle & Hstop & Hfit); [unfold dropFuel; lia|].
  assert (fits (board s) shape (row p) (col p) = Ret true) as Hhere.
  { destruct (inv_fits s Hs p Hp) as (shape' & Hshape' & Hfits).
    congruence. }
  assert (∀ r, row p <= r <= g → fits (board s) shape r (col p) = Ret true)
    as Hall.
  { intros r Hr. destruct (decide (r = row p)) as [->|]; [done|].
    apply Hfit. lia. }
  exists shape, g. split; [done|]. split.
  { unfold Renderer.getGhostRow. rewrite Hshape. exact Hrun. }
  split.
  { split; [done|].
    apply (fits_true_above_floor (board s) shape g (col p) Hwf Hm Hne).
    apply Hall. lia. }
  split; [done|]. split; [done|].
  intros Hst. cbn [lockTarget]. rewrite Hst, Hp, Hshape. cbn [defined].
  rewrite bind_Ret, Hrun. reflexivity.
Qed.

(** X10.  In a game the ghost row of the active piece is the row where
    a hard drop locks it: the piece fits there and at every row between
    its own and that one, it does not fit one row further down, and
    [hard_drop] in a playing state locks the piece at that row. *)
Theorem ghost_row_spec (s : GameState) (p : PieceState) :
  reachable s → piece s = Some p →
  ∃ (shape : ShapeMatrix) (g : Z),
    getShape (type p) (rotation p) = Some shape
    ∧ Renderer.getGhostRow (board s) p = Ret g
    ∧ row p <= g < ROWS
    ∧ (∀ r, row p <= r <= g → fits (board s) shape r (col p) = Ret true)
    ∧ fits (board s) shape (g + 1) (col p) = Ret false
    ∧ (status s = playing →
       lockTarget s hard_drop
       = Ret (Some {| type := type p; row := g; col := col p;
                      rotation := rotation p |})).
Proof. apply ghost_row_facts. Qed.

(** The I piece of [startedState] falls to row 18, where its cells are
    in the bottom row. *)
Lemma ghost_row_spec_witness :
  Renderer.getGhostRow (board startedState) (spawnPiece TetrominoType.I)
  = Ret 18
  ∧ ∃ (shape : ShapeMatrix) (g : Z),
      getShape TetrominoType.I 0 = Some shape
      ∧ Renderer.getGhostRow (board startedState)
          (spawnPiece TetrominoType.I) = Ret g
      ∧ 0 <= g < ROWS
      ∧ (∀ r, 0 <= r <= g →
           fits (board startedState) shape r 3 = Ret true)
      ∧ fits (board startedState) shape (g + 1) 3 = Ret false
      ∧ (status startedState = playing →
         lockTarget startedState hard_drop
         = Ret (Some {| type := TetrominoType.I; row := g; col := 3;
                        rotation := 0 |})).
Proof.
  split; [vm_compute; reflexivity|].
  apply (ghost_row_spec startedState (spawnPiece TetrominoType.I)).
  - apply (reach_step TetrominoType.O (createInitialState TetrominoType.I)
             start); [apply reach_init | reflexivity].
  - reflexivity.
Defined.

(** [n] soft drops through rows where the piece fits. *)
Lemma softDrops_fitting rnd (n : nat) :
  ∀ s p (shape : ShapeMatrix),
    status s = playing → piece s = Some p →
    getShape (type p) (rotation p) = Some shape →
    (∀ r, row p < r <= row p + Z.of_nat n →
          fits (board s) shape r (col p) = Ret true) →
    softDrops n rnd s
    = Ret (match n with
           | O => s
           | S _ => withPiece s {| type := type p;
                                   row := row p + Z.of_nat n;
                                   col := col p;
                                   rotation := rotation p |}
           end).
Proof.
  induction n as [|n IH]; intros s p shape Hst Hp Hshape Hfit; [done|].
  cbn [softDrops gameReducer]. unfold moveDown. rewrite Hst, Hp, Hshape.
  cbn [defined]. rewrite bind_Ret, (Hfit (row p + 1)) by lia.
  rewrite !bind_Ret.
  rewrite (IH _ {| type := type p; row := row p + 1; col := col p;
                   rotation := rotation p |} shape); try done.
  - destruct n as [|n]; [do 3 f_equal; lia|].
    unfold withPiece. cbn. do 4 f_equal. lia.
  - cbn. intros r Hr. apply Hfit. lia.
Qed.

(** X11.  In a playing state of a game a hard drop is as many soft
    drops as the piece can fall, followed by the [move_down] that locks
    it: with [g] the ghost row of the active piece, [g - row]
    dispatches of [move_down] followed by one more return what
    [hard_drop] returns. *)
Theorem hard_drop_is_soft_drops (rnd : TetrominoType) (s : GameState)
    (p : PieceState) :
  reachable s → status s = playing → piece s = Some p →
  ∃ g, Renderer.getGhostRow (board s) p = Ret g
       ∧ row p <= g
       ∧ (s' ← softDrops (Z.to_nat (g - row p)) rnd s;
          gameReducer rnd s' move_down)
         = gameReducer rnd s hard_drop.
Proof.
  intros Hs Hst Hp.
  destruct (ghost_row_facts s p Hs Hp)
    as (shape & g & Hshape & Hghost & [Hle _] & Hfit & Hstop & _).
  exists g. split; [done|]. split; [done|].
  rewrite (softDrops_fitting rnd (Z.to_nat (g - row p)) s p shape Hst Hp Hshape)
    by (intros r Hr; apply Hfit; lia).
  rewrite bind_Ret.
  assert (gameReducer rnd s hard_drop
          = lockAndSpawn rnd s {| type := type p; row := g; col := col p;
                                  rotation := rotation p |}) as ->.
  { cbn [gameReducer]. rewrite Hst, Hp, Hshape. cbn [defined].
    rewrite bind_Ret. unfold Renderer.getGhostRow in Hghost.
    rewrite Hshape in Hghost. cbn [defined] in Hghost.
    rewrite bind_Ret in Hghost. rewrite Hghost. by rewrite bind_Ret. }
  destruct (Z.to_nat (g - row p)) as [|n] eqn:Hn.
  - assert (g = row p) as -> by lia.
    cbn [gameReducer]. unfold moveDown. rewrite Hst, Hp, Hshape.
    cbn [defined]. rewrite bind_Ret, Hstop, bind_Ret.
    by destruct p.
  - assert (row p + Z.of_nat (S n) = g) as -> by lia.
    cbn [gameReducer]. unfold moveDown.
    cbn [withPiece status piece board type row col rotation].
    rewrite Hst, Hshape. cbn [defined]. rewrite bind_Ret, Hstop, bind_Ret.
    reflexivity.
Qed.

(** From [startedState]: 18 soft drops and one more, or one hard drop. *)
Lemma hard_drop_is_soft_drops_witness :
  (s' ← softDrops 18 TetrominoType.T startedState;
   gameReducer TetrominoType.T s' move_down)
  = gameReducer TetrominoType.T startedState hard_drop.
Proof.
  destruct (hard_drop_is_soft_drops TetrominoType.T startedState
              (spawnPiece TetrominoType.I)) as (g & Hg & _ & Heq).
  - apply (reach_step TetrominoType.O (createInitialState TetrominoType.I)
             start); [apply reach_init | reflexivity].
  - reflexivity.
  - reflexivity.
  - assert (g = 18) as -> by (vm_compute in Hg; congruence).
    exact Heq.
Defined.

(** ** tetrominoes.ts *)

(** X12.  [getShape] is [undefined] exactly for the rotations whose
    remainder by 4 is negative; for a rotation that is not negative it
    is defined, is the entry of [SHAPES] at the rotation modulo 4, and
    does not change when 4 is added to the rotation. *)
Theorem getShape_spec (t : TetrominoType) (rot : Z) :
  (getShape t rot = None ↔ Z.rem rot 4 < 0)
  ∧ (0 <= rot →
     getShape t rot = SHAPES t !! Z.to_nat (rot mod 4)
     ∧ is_Some (getShape t rot)
     ∧ getShape t (rot + 4) = getShape t rot).
Proof.
  assert (length (SHAPES t) = 4%nat) as Hlen by by destruct t.
  assert (∀ z, getShape t z
               = if Z.rem z 4 <? 0 then None
                 else SHAPES t !! Z.to_nat (Z.rem z 4)) as Hget.
  { intros z. unfold getShape. by rewrite Hlen. }
  split.
  - rewrite Hget. destruct (Z.ltb_spec (Z.rem rot 4) 0) as [Hneg|Hpos].
    + done.
    + split; [|lia]. intros Hnone. apply lookup_ge_None in Hnone.
      pose proof (Z.rem_bound_abs rot 4 ltac:(lia)). lia.
  - intros Hrot.
    assert (Z.rem rot 4 = rot mod 4) as Hrem
      by (apply Z.rem_mod_nonneg; lia).
    assert (Z.rem (rot + 4) 4 = rot mod 4) as Hrem4.
    { rewrite Z.rem_mod_nonneg by lia.
      replace (rot + 4) with (rot + 1 * 4) by lia.
      by rewrite Z.mod_add. }
    pose proof (Z.mod_pos_bound rot 4 ltac:(lia)) as Hb.
    rewrite !Hget, Hrem, Hrem4.
    destruct (Z.ltb_spec (rot mod 4) 0) as [|_]; [lia|].
    split; [done|]. split; [|done].
    apply lookup_lt_is_Some. lia.
Qed.

(** Rotation 6 of the T piece is its rotation 2; rotation -1 has no
    shape. *)
Lemma getShape_spec_witness :
  getShape TetrominoType.T (-1) = None
  ∧ getShape TetrominoType.T (2 + 4) = getShape TetrominoType.T 2.
Proof.
  split.
  - apply (getShape_spec TetrominoType.T (-1)). reflexivity.
  - apply (getShape_spec TetrominoType.T 2). lia.
Defined.

(** X13.  Every kind has four shapes; each shape is a square matrix
    with exactly four occupied cells, and the shape at the next index
    (the first one after the last) is its clockwise quarter turn. *)
Theorem SHAPES_table (t : TetrominoType) (n : nat) (shape : ShapeMatrix) :
  SHAPES t !! n = Some shape →
  length (SHAPES t) = 4%nat
  ∧ Forall (λ srow, length srow = length shape) shape
  ∧ cellCount shape = 4%nat
  ∧ SHAPES t !! ((n + 1) mod 4)%nat = Some (rotateCW shape).
Proof.
  intros Hn.
  assert (n < 4)%nat as Hlt.
  { apply lookup_lt_Some in Hn. by destruct t. }
  destruct t;
    (destruct n as [|[|[|[|n]]]]; [| | | | lia]);
    injection Hn as <-;
    (split; [reflexivity|]); (split; [repeat constructor|]);
    split; reflexivity.
Qed.

(** The S piece upright (index 1) and its quarter turn (index 2). *)
Lemma SHAPES_table_witness :
  SHAPES TetrominoType.S !! 2%nat
  = Some (rotateCW [[0; 1; 0]; [0; 1; 1]; [0; 0; 1]]).
Proof.
  apply (SHAPES_table TetrominoType.S 1 [[0; 1; 0]; [0; 1; 1]; [0; 0; 1]]).
  reflexivity.
Defined.

(** ** input.ts *)

Lemma ownProperty_elem (entries : list (Stdlib.Strings.String.string * GameAction))
    key a :
  NoDup (map fst entries) →
  Input.ownProperty entries key = Some a ↔ (key, a) ∈ entries.
Proof.
  induction entries as [|[k b] entries IH]; cbn [Input.ownProperty map fst].
  - intros _. split; [done|]. intros H. by apply elem_of_nil in H.
  - intros Hnd. inversion Hnd as [|? ? Hk Hnd']; subst.
    rewrite elem_of_cons. case_bool_decide as Hkey.
    + subst k. split.
      * intros [= ->]. by left.
      * intros [[= ->]|Hin]; [done|]. exfalso. apply Hk.
        apply list_elem_of_In, (in_map fst _ (key, a)), list_elem_of_In, Hin.
    + rewrite (IH Hnd'). split; [by right|].
      intros [[= -> ->]|Hin]; [done | done].
Qed.

Lemma keyToActionEntries_NoDup : NoDup (map fst Input.keyToActionEntries).
Proof. apply (bool_decide_unpack _). vm_compute. exact I. Qed.

Lemma keyToGameAction_iff (inherited : Stdlib.Strings.String.string → bool)
    (e : Input.KeyboardEvent) (a : GameAction) :
  Input.keyToGameAction inherited e = Some (Input.Action a)
  ↔ (Input.code e, a) ∈ Input.keyToActionEntries
    ∧ (Input.repeat e = true → a ∈ [move_left; move_right; move_down]).
Proof.
  rewrite <- (ownProperty_elem _ _ _ keyToActionEntries_NoDup).
  unfold Input.keyToGameAction, Input.keyToAction, Input.repeatable.
  destruct (Input.ownProperty _ _) as [b|];
    destruct (Input.repeat e); try case_bool_decide;
    try destruct (inherited _); split;
    try (intros [= ->]); try (intros [[= ->] ?]); try done; auto.
  exfalso. auto.
Qed.

(** X14.  [keyToGameAction] returns the action [a] exactly when the
    table binds the key code to [a] and, for a repeated key event, [a]
    is one of [move_left], [move_right] and [move_down]; it never
    returns [resume] or [tick]; and it returns [null] for a code that
    is neither in the table nor a member of [Object.prototype]. *)
Theorem keyToGameAction_spec
    (inherited : Stdlib.Strings.String.string → bool)
    (e : Input.KeyboardEvent) (a : GameAction) :
  (Input.keyToGameAction inherited e = Some (Input.Action a)
   ↔ (Input.code e, a) ∈ Input.keyToActionEntries
     ∧ (Input.repeat e = true → a ∈ [move_left; move_right; move_down]))
  ∧ (Input.keyToGameAction inherited e = Some (Input.Action a) →
     a ≠ resume ∧ a ≠ tick)
  ∧ ((∀ b, (Input.code e, b) ∉ Input.keyToActionEntries) →
     inherited (Input.code e) = false →
     Input.keyToGameAction inherited e = None).
Proof.
  pose proof keyToActionEntries_NoDup as Hnd.
  pose proof (keyToGameAction_iff inherited e a) as Hiff.
  split; [done|]. split.
  - intros H. apply Hiff in H as [Hin _].
    apply list_elem_of_In, (in_map snd) in Hin. cbn [snd] in Hin.
    apply list_elem_of_In in Hin.
    split; intros ->; revert Hin;
      apply (bool_decide_unpack _); vm_compute; exact I.
  - intros Hnone Hinh.
    unfold Input.keyToGameAction, Input.keyToAction.
    destruct (Input.ownProperty _ _) as [b|] eqn:Hown.
    + apply (ownProperty_elem _ _ _ Hnd) in Hown. by apply Hnone in Hown.
    + rewrite Hinh. by destruct (Input.repeat e).
Qed.

(** The space bar drops the piece, but not when the key repeats. *)
Lemma keyToGameAction_spec_witness :
  Input.keyToGameAction (λ _, false) Input.spaceDown
  = Some (Input.Action hard_drop)
  ∧ Input.keyToGameAction (λ _, false) Input.spaceHeld
    ≠ Some (Input.Action hard_drop).
Proof.
  split.
  - apply (keyToGameAction_spec (λ _, false) Input.spaceDown hard_drop).
    split; [|discriminate].
    apply (bool_decide_unpack _). vm_compute. exact I.
  - intros H.
    destruct (keyToGameAction_spec (λ _, false) Input.spaceHeld hard_drop)
      as [Hiff _].
    apply Hiff in H as [_ H]. specialize (H eq_refl). revert H.
    apply (bool_decide_unpack _). vm_compute. exact I.
Defined.

(** ** main.ts *)

Lemma gtb_irrefl z : (z >? z) = false.
Proof. rewrite Z.gtb_ltb. apply Z.ltb_irrefl. Qed.

(** A change of status alone makes no sound, unless the game ends. *)
Lemma cuesOf_withStatus a s st :
  a = pause ∨ a = resume → st ≠ gameover →
  Main.cuesOf a s (withStatus s st) = [].
Proof.
  intros Ha Hst. unfold Main.cuesOf. cbn [withStatus lastLocked score status].
  rewrite gtb_irrefl.
  rewrite (bool_decide_eq_false_2 (st = gameover)) by done.
  rewrite andb_false_r.
  destruct Ha as [-> | ->]; reflexivity.
Qed.

(** Evaluates the tests [bool_decide] makes on constants. *)
Ltac decide_consts :=
  repeat match goal with
    | |- context [bool_decide (?x = ?y)] =>
      first [ rewrite (bool_decide_eq_true_2 (x = y)) by done
            | rewrite (bool_decide_eq_false_2 (x = y)) by done ]
    end;
  cbn [andb orb negb].

(** X15.  The pause key toggles: the handler turns a playing state into
    the paused one and a paused state into the playing one, without a
    sound, so that two presses lead back to the playing state (with
    lastLocked false); in an idle or finished game the key leaves the
    state as it is. *)
Theorem pause_key_toggles (rnd rnd' : TetrominoType) (s : GameState) :
  (status s = playing →
   Main.onAction rnd rnd' pause s = Ret (withStatus s paused, [])
   ∧ Main.onAction rnd rnd' pause (withStatus s paused)
     = Ret (withStatus s playing, []))
  ∧ (status s = paused →
     Main.onAction rnd rnd' pause s = Ret (withStatus s playing, []))
  ∧ (status s = idle ∨ status s = gameover →
     ∃ cues, Main.onAction rnd rnd' pause s = Ret (s, cues)).
Proof.
  assert (∀ s0, status s0 = playing →
            Main.onAction rnd rnd' pause s0 = Ret (withStatus s0 paused, []))
    as Hplay.
  { intros s0 Hst. unfold Main.onAction, Main.dispatch.
    cbn [gameReducer]. rewrite Hst. decide_consts. cbn [gameReducer].
    rewrite Hst. decide_consts.
    rewrite bind_Ret. by rewrite cuesOf_withStatus by auto. }
  assert (∀ s0, status s0 = paused →
            Main.onAction rnd rnd' pause s0 = Ret (withStatus s0 playing, []))
    as Hpaused.
  { intros s0 Hst. unfold Main.onAction, Main.dispatch.
    cbn [gameReducer]. rewrite Hst. decide_consts. cbn [gameReducer].
    rewrite Hst. decide_consts.
    rewrite bind_Ret. by rewrite cuesOf_withStatus by auto. }
  split; [|split].
  - intros Hst. split; [by apply Hplay|].
    by rewrite (Hpaused (withStatus s paused)).
  - apply Hpaused.
  - intros Hst. unfold Main.onAction, Main.dispatch.
    destruct Hst as [Hst|Hst]; rewrite Hst; decide_consts;
      cbn [gameReducer]; rewrite Hst; decide_consts;
      rewrite bind_Ret; eauto.
Qed.

(** Two presses of the pause key on [startedState]. *)
Lemma pause_key_toggles_witness :
  Main.onAction TetrominoType.T TetrominoType.T pause startedState
  = Ret (withStatus startedState paused, [])
  ∧ Main.onAction TetrominoType.T TetrominoType.T pause
      (withStatus startedState paused)
    = Ret (withStatus startedState playing, []).
Proof.
  destruct (pause_key_toggles TetrominoType.T TetrominoType.T startedState)
    as [Hplay _].
  apply Hplay. reflexivity.
Defined.

(** X16.  The start key on a finished game begins a new one: for every
    state whose status is game-over the handler returns, without a
    sound, the playing state with the empty board, the first draw as
    the active piece at the spawn position, the second draw as the next
    piece, an empty hold slot and all counters at their initial
    values. *)
Theorem start_key_after_game_over (rnd rnd' : TetrominoType) (s : GameState) :
  status s = gameover →
  Main.onAction rnd rnd' start s
  = Ret ({| board := createEmptyBoard;
            piece := Some {| type := rnd; row := SPAWN_ROW;
                             col := SPAWN_COL; rotation := 0 |};
            nextPiece := rnd';
            holdPiece := None;
            canHold := true;
            score := 0;
            level := 1;
            linesCleared := 0;
            status := playing;
            lastClearedLines := 0;
            lastLocked := false |}, []).
Proof.
  intros Hst. unfold Main.onAction, Main.dispatch. rewrite Hst.
  decide_consts. cbn [gameReducer]. rewrite !bind_Ret.
  cbn [createInitialState status nextPiece board]. decide_consts.
  rewrite spawn_on_empty_board, !bind_Ret.
  unfold Main.cuesOf. cbn. rewrite Hst. decide_consts.
  rewrite !andb_false_r. reflexivity.
Qed.

(** The start key after the game that [towerGame] and a [hold] end. *)
Lemma start_key_after_game_over_witness :
  let s := stateAfter (towerGame ++ [(TetrominoType.T, hold)])
             (createInitialState TetrominoType.I) in
  Main.onAction TetrominoType.J TetrominoType.L start s
  = Ret ({| board := createEmptyBoard;
            piece := Some {| type := TetrominoType.J; row := SPAWN_ROW;
                             col := SPAWN_COL; rotation := 0 |};
            nextPiece := TetrominoType.L;
            holdPiece := None;
            canHold := true;
            score := 0;
            level := 1;
            linesCleared := 0;
            status := playing;
            lastClearedLines := 0;
            lastLocked := false |}, []).
Proof.
  intros s.
  apply (start_key_after_game_over TetrominoType.J TetrominoType.L s).
  vm_compute. reflexivity.
Defined.

(** Shows that a cue is not in a part of [cuesOf] that cannot make it. *)
Ltac no_cue H :=
  repeat case_match;
  repeat (apply elem_of_cons in H as [H|H]; [discriminate|]);
  by apply elem_of_nil in H.

Lemma cuesOf_lineClear a prev st k :
  Main.playLineClear k ∈ Main.cuesOf a prev st
  ↔ score prev < score st ∧ 0 < lastClearedLines st
    ∧ k = lastClearedLines st.
Proof.
  unfold Main.cuesOf. rewrite !elem_of_app. split.
  - intros [H|[H|[H|[H|[H|[H|[H|H]]]]]]]; try (exfalso; no_cue H).
    destruct (_ && _) eqn:Hc; [|by apply elem_of_nil in H].
    apply andb_true_iff in Hc as [Hs Hl].
    apply Z.gtb_lt in Hs, Hl.
    apply elem_of_cons in H as [H|H]; [discriminate|].
    apply elem_of_cons in H as [[= ->]|H]; [done|].
    by apply elem_of_nil in H.
  - intros (Hs & Hl & ->). do 7 right.
    rewrite (proj2 (Z.gtb_lt _ _) Hs), (proj2 (Z.gtb_lt _ _) Hl).
    cbn [andb]. right. by left.
Qed.

Lemma cuesOf_scorePop a prev st :
  score prev < score st → 0 < lastClearedLines st →
  Main.scorePop (default 0 (LINE_SCORES (lastClearedLines st)))
  ∈ Main.cuesOf a prev st.
Proof.
  intros Hs Hl. unfold Main.cuesOf. rewrite !elem_of_app. do 7 right.
  rewrite (proj2 (Z.gtb_lt _ _) Hs), (proj2 (Z.gtb_lt _ _) Hl).
  cbn [andb]. by left.
Qed.

Lemma LINE_SCORES_pos k : 0 < k <= 4 → 0 < default 0 (LINE_SCORES k).
Proof.
  intros Hk.
  assert (k = 1 ∨ k = 2 ∨ k = 3 ∨ k = 4) as [->|[->|[->| ->]]] by lia;
    cbn; lia.
Qed.

(** X17.  In a game the line-clear sound is played with the count [k]
    exactly when the dispatch locked a piece and that lock cleared
    [k] > 0 lines, and then the score pop-up gets the points for [k]
    lines: the lastClearedLines left over from an earlier lock never
    triggers it. *)
Theorem line_clear_cue (rnd : TetrominoType) (s : GameState) (a : GameAction)
    (s' : GameState) (cues : list Main.Cue) (k : Z) :
  reachable s →
  Main.dispatch rnd a s = Ret (s', cues) →
  (Main.playLineClear k ∈ cues
   ↔ 0 < k ∧ ∃ pl nb, lockTarget s a = Ret (Some pl)
                      ∧ lockPiece (board s) pl = Ret (nb, k))
  ∧ (Main.playLineClear k ∈ cues →
     Main.scorePop (default 0 (LINE_SCORES k)) ∈ cues).
Proof.
  intros Hs Hrun. unfold Main.dispatch in Hrun.
  destruct (gameReducer rnd s a) as [s1|] eqn:Hstep; [|discriminate].
  rewrite bind_Ret in Hrun. injection Hrun as -> <-.
  pose proof (reachable_Inv s Hs) as HI.
  assert (Main.playLineClear k ∈ Main.cuesOf a s s'
          ↔ 0 < k ∧ ∃ pl nb, lockTarget s a = Ret (Some pl)
                             ∧ lockPiece (board s) pl = Ret (nb, k))
    as Hiff.
  { rewrite cuesOf_lineClear.
    destruct (lockTarget_returns rnd s a s' Hstep) as [[pl|] Hlt].
    - destruct (lock_counters rnd s a pl s' HI Hlt Hstep)
        as (k0 & Hk0 & Hlines & _ & Hscore).
      pose proof (lock_dispatch rnd s a pl s' Hlt Hstep) as Hlock.
      apply lockAndSpawn_inv in Hlock as (nb & k1 & Hlock & _ & Hk1 & _).
      assert (k1 = k0) as -> by congruence.
      split.
      + intros (_ & Hpos & ->). split; [lia|].
        exists pl, nb. by rewrite Hlines.
      + intros (Hpos & pl' & nb' & Hlt' & Hlock').
        assert (pl' = pl) as -> by congruence.
        assert (k = k0) as -> by congruence.
        pose proof (LINE_SCORES_pos k0 ltac:(lia)). lia.
    - split.
      + intros (Hsc & Hpos & _).
        destruct (no_lock_dispatch rnd s a s' Hlt Hstep)
          as [[_ ->]|(_ & Hsame & _)]; [done | lia].
      + intros (_ & pl & nb & Hlt' & _). congruence. }
  split; [done|].
  intros Hin. apply cuesOf_lineClear in Hin as (Hsc & Hpos & ->).
  by apply cuesOf_scorePop.
Qed.

(** The hard drop that ends [oneLineGame] plays the line-clear sound for
    one line and pops up 100 points. *)
Lemma line_clear_cue_witness :
  let s := stateAfter (take 12 oneLineGame)
             (createInitialState TetrominoType.I) in
  let s' := stateAfter oneLineGame (createInitialState TetrominoType.I) in
  Main.dispatch TetrominoType.T hard_drop s
  = Ret (s', [Main.playHardDrop; Main.scorePop 100; Main.playLineClear 1])
  ∧ 0 < 1
  ∧ ∃ pl nb, lockTarget s hard_drop = Ret (Some pl)
             ∧ lockPiece (board s) pl = Ret (nb, 1).
Proof.
  intros s s'.
  assert (Main.dispatch TetrominoType.T hard_drop s
          = Ret (s', [Main.playHardDrop; Main.scorePop 100;
                      Main.playLineClear 1])) as Hrun
    by (vm_compute; reflexivity).
  split; [exact Hrun|].
  destruct (line_clear_cue TetrominoType.T s hard_drop s' _ 1
              ltac:(apply stateAfter_reachable, reach_init) Hrun)
    as [Hiff _].
  apply Hiff. right. right. left.
Defined.

Lemma cuesOf_move a prev st :
  Main.playMove ∈ Main.cuesOf a prev st
  ↔ (a = move_left ∨ a = move_right)
    ∧ ∃ pp p, piece prev = Some pp ∧ piece st = Some p ∧ col p ≠ col pp.
Proof.
  unfold Main.cuesOf. rewrite !elem_of_app. split.
  - intros [H|[H|[H|[H|[H|[H|[H|H]]]]]]]; try (exfalso; no_cue H).
    destruct (_ || _) eqn:Ha; [|by apply elem_of_nil in H].
    destruct (piece prev) as [pp|]; [|by apply elem_of_nil in H].
    destruct (piece st) as [p|]; [|by apply elem_of_nil in H].
    destruct (Z.eqb_spec (col p) (col pp)) as [|Hne];
      [by apply elem_of_nil in H|].
    split; [|by exists pp, p].
    apply orb_true_iff in Ha as [Ha|Ha]; apply bool_decide_eq_true in Ha;
      auto.
  - intros (Ha & pp & p & -> & -> & Hne). right. left.
    destruct (Z.eqb_spec (col p) (col pp)) as [|_]; [done|]. cbn [negb].
    destruct Ha as [-> | ->]; decide_consts; by left.
Qed.

Lemma cuesOf_rotate a prev st :
  Main.playRotate ∈ Main.cuesOf a prev st
  ↔ (a = rotate_cw ∨ a = rotate_ccw)
    ∧ ∃ pp p, piece prev = Some pp ∧ piece st = Some p
              ∧ rotation p ≠ rotation pp.
Proof.
  unfold Main.cuesOf. rewrite !elem_of_app. split.
  - intros [H|[H|[H|[H|[H|[H|[H|H]]]]]]]; try (exfalso; no_cue H).
    destruct (_ || _) eqn:Ha; [|by apply elem_of_nil in H].
    destruct (piece prev) as [pp|]; [|by apply elem_of_nil in H].
    destruct (piece st) as [p|]; [|by apply elem_of_nil in H].
    destruct (Z.eqb_spec (rotation p) (rotation pp)) as [|Hne];
      [by apply elem_of_nil in H|].
    split; [|by exists pp, p].
    apply orb_true_iff in Ha as [Ha|Ha]; apply bool_decide_eq_true in Ha;
      auto.
  - intros (Ha & pp & p & -> & -> & Hne). right. right. left.
    destruct (Z.eqb_spec (rotation p) (rotation pp)) as [|_]; [done|].
    cbn [negb]. destruct Ha as [-> | ->]; decide_consts; by left.
Qed.

Lemma cuesOf_softDrop a prev st :
  Main.playSoftDrop ∈ Main.cuesOf a prev st
  ↔ a = move_down
    ∧ ∃ pp p, piece prev = Some pp ∧ piece st = Some p
              ∧ lastLocked st = false ∧ row pp < row p.
Proof.
  unfold Main.cuesOf. rewrite !elem_of_app. split.
  - intros [H|[H|[H|[H|[H|[H|[H|H]]]]]]]; try (exfalso; no_cue H).
    case_bool_decide as Ha; [|by apply elem_of_nil in H].
    destruct (piece prev) as [pp|]; [|by apply elem_of_nil in H].
    destruct (piece st) as [p|]; [|by apply elem_of_nil in H].
    destruct (lastLocked st); [by apply elem_of_nil in H|]. cbn [negb] in H.
    destruct (row p >? row pp) eqn:Hrow; [|by apply elem_of_nil in H].
    apply Z.gtb_lt in Hrow. split; [done|]. by exists pp, p.
  - intros (-> & pp & p & -> & -> & -> & Hrow). do 3 right. left.
    decide_consts. rewrite (proj2 (Z.gtb_lt _ _) Hrow). by left.
Qed.

(** X18.  In a game the move sound is played exactly when [move_left]
    or [move_right] returned a new state, the rotate sound exactly when
    [rotate_cw] or [rotate_ccw] did, and the soft-drop sound exactly
    when [move_down] moved the piece one row down without locking it. *)
Theorem movement_cues (rnd : TetrominoType) (s : GameState) (a : GameAction)
    (s' : GameState) (cues : list Main.Cue) :
  reachable s →
  Main.dispatch rnd a s = Ret (s', cues) →
  (Main.playMove ∈ cues ↔ (a = move_left ∨ a = move_right) ∧ s' ≠ s)
  ∧ (Main.playRotate ∈ cues ↔ (a = rotate_cw ∨ a = rotate_ccw) ∧ s' ≠ s)
  ∧ (Main.playSoftDrop ∈ cues
     ↔ a = move_down
       ∧ ∃ p, piece s = Some p
              ∧ s' = withPiece s {| type := type p; row := row p + 1;
                                    col := col p; rotation := rotation p |}).
Proof.
  intros Hs Hrun. unfold Main.dispatch in Hrun.
  destruct (gameReducer rnd s a) as [s1|] eqn:Hstep; [|discriminate].
  rewrite bind_Ret in Hrun. injection Hrun as -> <-.
  split; [|split].
  - rewrite cuesOf_move. split.
    + intros (Ha & pp & p & Hpp & Hp & Hne). split; [done|].
      intros ->. congruence.
    + intros (Ha & Hnew). split; [done|].
      destruct (move_done rnd s a s' ltac:(destruct Ha; auto) Hstep Hnew)
        as (p & p1 & _ & Hp & Hp1 & _ & ->).
      exists p, p1. split; [done|]. split; [done|].
      destruct Ha as [-> | ->]; injection Hp1 as <-; cbn; lia.
  - rewrite cuesOf_rotate. split.
    + intros (Ha & pp & p & Hpp & Hp & Hne). split; [done|].
      intros ->. congruence.
    + intros (Ha & Hnew). split; [done|].
      destruct (move_done rnd s a s' ltac:(destruct Ha; auto) Hstep Hnew)
        as (p & p1 & _ & Hp & Hp1 & _ & ->).
      exists p, p1. split; [done|]. split; [done|].
      pose proof (reachable_rotation s p Hs Hp) as Hrot.
      assert (rotation p = 0 ∨ rotation p = 1 ∨ rotation p = 2
              ∨ rotation p = 3) as Hcases by lia.
      destruct Ha as [-> | ->]; injection Hp1 as <-; cbn;
        destruct Hcases as [->|[->|[->| ->]]]; done.
  - rewrite cuesOf_softDrop. split.
    + intros (-> & pp & p & Hpp & Hp & Hll & Hrow). split; [done|].
      exists pp. split; [done|].
      cbn [gameReducer] in Hstep. apply moveDown_inv in Hstep
        as [->|(q & _ & Hq & [->|Hlock])].
      * assert (p = pp) as -> by congruence. lia.
      * assert (q = pp) as -> by congruence. done.
      * apply lockAndSpawn_inv in Hlock
          as (nb & k & _ & _ & _ & _ & _ & _ & Hll' & _). congruence.
    + intros (-> & p & Hp & ->). split; [done|].
      exists p, {| type := type p; row := row p + 1; col := col p;
                   rotation := rotation p |}.
      repeat split; try done. cbn. lia.
Qed.

(** A soft drop of the piece of [startedState]. *)
Lemma movement_cues_witness :
  let s' := withPiece startedState
              {| type := TetrominoType.I; row := 1; col := 3;
                 rotation := 0 |} in
  Main.dispatch TetrominoType.T move_down startedState
  = Ret (s', [Main.playSoftDrop])
  ∧ move_down = move_down
  ∧ ∃ p, piece startedState = Some p
         ∧ s' = withPiece startedState
                  {| type := type p; row := row p + 1; col := col p;
                     rotation := rotation p |}.
Proof.
  intros s'.
  assert (Main.dispatch TetrominoType.T move_down startedState
          = Ret (s', [Main.playSoftDrop])) as Hrun by reflexivity.
  split; [exact Hrun|].
  destruct (movement_cues TetrominoType.T startedState move_down s' _
              startedState_reachable Hrun) as (_ & _ & Hsoft).
  apply Hsoft. by left.
Defined.

(** X19.  A key only acts where the status lets it: a paused game
    changes only on the keys bound to [pause] and [restart], and an idle
    or finished game only on the keys bound to [start] and [restart];
    every other key event, repeated or not, leaves the state as it
    is. *)
Theorem keys_and_status (inherited : Stdlib.Strings.String.string → bool)
    (rnd rnd' : TetrominoType) (e : Input.KeyboardEvent) (s : GameState) :
  (Input.code e, restart) ∉ Input.keyToActionEntries →
  (status s = paused ∧ (Input.code e, pause) ∉ Input.keyToActionEntries)
  ∨ ((status s = idle ∨ status s = gameover)
     ∧ (Input.code e, start) ∉ Input.keyToActionEntries) →
  Main.onKeyDown inherited rnd rnd' e s = Ret s.
Proof.
  intros Hrestart Hst. unfold Main.onKeyDown.
  destruct (Input.keyToGameAction inherited e) as [[a|]|] eqn:Hkey;
    [|done|done].
  apply keyToGameAction_iff in Hkey as [Hin _].
  assert (a ≠ restart) as Hr by (by intros ->).
  assert (a ≠ resume ∧ a ≠ tick) as [Hres Htick].
  { apply list_elem_of_In, (in_map snd) in Hin. cbn [snd] in Hin.
    apply list_elem_of_In in Hin.
    split; intros ->; revert Hin;
      apply (bool_decide_unpack _); vm_compute; exact I. }
  assert (∀ b, (status s = paused ∧ b ≠ resume
                ∨ (status s = idle ∨ status s = gameover) ∧ b ≠ start) →
               b ≠ restart → gameReducer rnd s b = Ret s) as Hgate.
  { intros b [[Hs Hb]|[[Hs|Hs] Hb]] Hb'; destruct b; try done;
      cbn [gameReducer]; unfold moveDown; by rewrite Hs. }
  assert (∀ b, gameReducer rnd s b = Ret s →
               (b' ← Main.dispatch rnd b s;
                let '(state', _) := b' in Ret state') = Ret s) as Hdisp.
  { intros b Hb. unfold Main.dispatch. by rewrite Hb, !bind_Ret. }
  unfold Main.onAction.
  destruct Hst as [[Hs Hp]|[Hs Hstart]].
  - assert (a ≠ pause) as Hp' by (by intros ->).
    rewrite Hs.
    rewrite (bool_decide_eq_false_2 (paused = gameover)) by done.
    rewrite andb_false_r.
    rewrite (bool_decide_eq_false_2 (a = pause)) by done.
    apply Hdisp, Hgate; auto.
  - assert (a ≠ start) as Hs' by (by intros ->).
    rewrite (bool_decide_eq_false_2 (a = start)) by done. cbn [andb].
    case_bool_decide as Hpause.
    + rewrite (bool_decide_eq_false_2 (status s = playing))
        by (destruct Hs as [-> | ->]; done).
      apply Hdisp, Hgate; auto.
    + apply Hdisp, Hgate; auto.
Qed.

(** A paused game ignores the space bar. *)
Lemma keys_and_status_witness :
  Main.onKeyDown (λ _, false) TetrominoType.T TetrominoType.T
    Input.spaceDown (withStatus startedState paused)
  = Ret (withStatus startedState paused).
Proof.
  apply (keys_and_status (λ _, false) TetrominoType.T TetrominoType.T
           Input.spaceDown (withStatus startedState paused)).
  - apply (bool_decide_unpack _). vm_compute. exact I.
  - left. split; [reflexivity|].
    apply (bool_decide_unpack _). vm_compute. exact I.
Defined.

(** ** themes.ts *)

(** The cases of a theme id: one of the five ids of [THEMES], or none
    of them. *)
Lemma theme_id_cases (key : Stdlib.Strings.String.string) :
  key ∈ map Themes.id Themes.THEMES
  ∨ ((key ∉ map Themes.id Themes.THEMES)
     ∧ Themes.find Themes.THEMES key = None
     ∧ Themes.findIndex Themes.THEMES key = (-1)).
Proof.
  unfold Themes.find, Themes.findIndex, Themes.THEMES.
  cbn [List.find Themes.findIndexFrom map Themes.id].
  repeat (case_bool_decide;
          [left; subst key; apply (bool_decide_unpack _); vm_compute;
           exact I|]).
  right. split; [|done].
  intros Hin.
  repeat (apply elem_of_cons in Hin as [->|Hin]; [done|]).
  by apply elem_of_nil in Hin.
Qed.

(** X20.  [getThemeById] always returns a theme of [THEMES]: the one
    with the given id if there is one, and the first theme, whose id is
    the default id, for every other string. *)
Theorem getThemeById_spec (key : Stdlib.Strings.String.string) :
  ∃ t, Themes.getThemeById key = Some t
       ∧ t ∈ Themes.THEMES
       ∧ (key ∈ map Themes.id Themes.THEMES → Themes.id t = key)
       ∧ (key ∉ map Themes.id Themes.THEMES →
          Themes.THEMES !! 0%nat = Some t
          ∧ Themes.id t = Themes.DEFAULT_THEME_ID
          ∧ Themes.getDefaultTheme = Some t).
Proof.
  destruct (theme_id_cases key) as [Hin|(Hout & Hfind & _)].
  - unfold Themes.getThemeById.
    destruct (Themes.find Themes.THEMES key) as [t|] eqn:Hfind.
    + unfold Themes.find in Hfind. apply find_some in Hfind as [Ht Hid].
      apply bool_decide_eq_true in Hid.
      exists t. split; [done|]. split; [by apply list_elem_of_In|].
      split; done.
    + exfalso. unfold Themes.find in Hfind.
      apply list_elem_of_In, in_map_iff in Hin as (t & Hid & Ht).
      pose proof (find_none _ _ Hfind t Ht) as Hno. cbn in Hno.
      by apply bool_decide_eq_false in Hno.
  - unfold Themes.getThemeById. rewrite Hfind.
    eexists. split; [reflexivity|]. split; [by left|].
    split; [done|]. intros _. done.
Qed.

(** An unknown id gets the cyan theme. *)
Lemma getThemeById_spec_witness :
  ∃ t, Themes.getThemeById Themes.unknownId = Some t
       ∧ Themes.id t = Themes.DEFAULT_THEME_ID.
Proof.
  destruct (getThemeById_spec Themes.unknownId)
    as (t & Hget & _ & _ & Hdefault).
  exists t. split; [exact Hget|].
  apply Hdefault. apply (bool_decide_unpack _). vm_compute. exact I.
Defined.

(** X21.  [getNextThemeId] always returns an id of [THEMES] and raises
    no error: the default id for a string that is no theme id, and for
    a theme id another id, such that five calls in a row lead back to
    the id they started from; [getThemeById] of the result returns the
    theme with that id. *)
Theorem getNextThemeId_spec (key : Stdlib.Strings.String.string) :
  ∃ next,
    Themes.getNextThemeId key = Ret next
    ∧ next ∈ map Themes.id Themes.THEMES
    ∧ (∃ t, Themes.getThemeById next = Some t ∧ Themes.id t = next)
    ∧ (key ∉ map Themes.id Themes.THEMES → next = Themes.DEFAULT_THEME_ID)
    ∧ (key ∈ map Themes.id Themes.THEMES →
       next ≠ key ∧ fifthNextThemeId key = Ret key).
Proof.
  destruct (theme_id_cases key) as [Hin|(Hout & _ & Hidx)].
  - assert (∀ k, k ∈ map Themes.id Themes.THEMES →
              ∃ next, Themes.getNextThemeId k = Ret next
                      ∧ next ∈ map Themes.id Themes.THEMES
                      ∧ (∃ t, Themes.getThemeById next = Some t
                              ∧ Themes.id t = next)
                      ∧ next ≠ k ∧ fifthNextThemeId k = Ret k) as Hknown.
    { intros k Hk. cbn in Hk.
      repeat (apply elem_of_cons in Hk as [->|Hk];
              [eexists; split; [reflexivity|];
               split; [apply (bool_decide_unpack _); vm_compute; exact I|];
               split; [eexists; split; reflexivity|];
               split; [discriminate | reflexivity]|]).
      by apply elem_of_nil in Hk. }
    destruct (Hknown key Hin) as (next & Hn & Hm & Ht & Hne & Hfive).
    exists next. repeat split; try done.
  - eexists. split.
    { unfold Themes.getNextThemeId. rewrite Hidx. reflexivity. }
    split; [apply (bool_decide_unpack _); vm_compute; exact I|].
    split; [eexists; split; reflexivity|].
    split; [done|]. done.
Qed.

(** From the default id: the next id is another one, and the fifth is
    the default id again. *)
Lemma getNextThemeId_spec_witness :
  ∃ next,
    Themes.getNextThemeId Themes.DEFAULT_THEME_ID = Ret next
    ∧ next ≠ Themes.DEFAULT_THEME_ID
    ∧ fifthNextThemeId Themes.DEFAULT_THEME_ID = Ret Themes.DEFAULT_THEME_ID.
Proof.
  destruct (getNextThemeId_spec Themes.DEFAULT_THEME_ID)
    as (next & Hnext & _ & _ & _ & Hknown).
  exists next. split; [exact Hnext|].
  apply Hknown. apply (bool_decide_unpack _). vm_compute. exact I.
Defined.

(** ** Blocks are conserved *)

Lemma blockCount_cons (brow : list CellValue) (b : Board) :
  blockCount (brow :: b) = (rowCount brow + blockCount b)%nat.
Proof.
  unfold blockCount, rowCount. cbn [concat].
  by rewrite List.filter_app, length_app.
Qed.

Lemma blockCount_app (b1 b2 : Board) :
  blockCount (b1 ++ b2) = (blockCount b1 + blockCount b2)%nat.
Proof.
  induction b1 as [|brow b1 IH]; [done|].
  cbn [app]. rewrite !blockCount_cons, IH. lia.
Qed.

(** Writing a block over an empty cell adds one block to the row. *)
Lemma rowCount_insert (brow : list CellValue) (j : nat) t :
  brow !! j = Some Empty →
  rowCount (<[j := Block t]> brow) = S (rowCount brow).
Proof.
  assert (∀ cell l, rowCount (cell :: l)
                    = ((if negb (bool_decide (cell = Empty)) then 1 else 0)
                       + rowCount l)%nat) as Hcons.
  { intros cell l. unfold rowCount. cbn [List.filter].
    by destruct (negb _). }
  revert j. induction brow as [|cell brow IH]; intros j Hj; [done|].
  destruct j as [|j].
  - injection Hj as ->.
    change (<[0%nat := Block t]> (Empty :: brow)) with (Block t :: brow).
    rewrite !Hcons. reflexivity.
  - change (<[S j := Block t]> (cell :: brow))
      with (cell :: <[j := Block t]> brow).
    rewrite !Hcons. cbn in Hj. rewrite (IH j Hj). lia.
Qed.

Lemma blockCount_insert (b : Board) (i : nat) (brow brow' : list CellValue) :
  b !! i = Some brow →
  (blockCount (<[i := brow']> b) + rowCount brow
   = blockCount b + rowCount brow')%nat.
Proof.
  revert i. induction b as [|x b IH]; intros i Hi; [done|].
  destruct i as [|i].
  - injection Hi as ->.
    change (<[0%nat := brow']> (brow :: b)) with (brow' :: b).
    rewrite !blockCount_cons. lia.
  - change (<[S i := brow']> (x :: b)) with (x :: <[i := brow']> b).
    rewrite !blockCount_cons. cbn in Hi.
    specialize (IH i Hi). lia.
Qed.

(** The nested loops of [stamp] visit the cells of [windowCells]. *)
Lemma stamped_flat (b : Board) (shape : ShapeMatrix) (w : nat) p :
  stamped b shape w p
  = foldl (paintCell shape p) b (windowCells (length shape) w).
Proof.
  unfold stamped, windowCells. generalize (seq 0 (length shape)) as rows.
  intros rows. revert b.
  induction rows as [|r rows IH]; intros b; [done|].
  cbn [foldl flat_map]. rewrite foldl_app, <- IH. f_equal.
  generalize (seq 0 w) as cols. intros cols. revert b.
  induction cols as [|c cols IHc]; intros b; [done|].
  cbn [foldl map]. by rewrite IHc.
Qed.

Lemma windowCells_NoDup h w : List.NoDup (windowCells h w).
Proof.
  unfold windowCells.
  assert (∀ rows : list nat, List.NoDup rows →
            List.NoDup (flat_map (λ r : nat, map (pair r) (seq 0 w)) rows))
    as H.
  { induction rows as [|r rows IH]; intros Hnd; [constructor|].
    inversion Hnd as [|? ? Hr Hnd']; subst. cbn [flat_map].
    apply NoDup_app.
    - apply Finite.Injective_map_NoDup; [|apply seq_NoDup].
      by intros ? ? [= ->].
    - by apply IH.
    - intros [r' c'] Hin Hin'.
      apply in_map_iff in Hin as (c & [= <- <-] & _).
      apply in_flat_map in Hin' as (r'' & Hr' & Hin').
      apply in_map_iff in Hin' as (c'' & [= -> ->] & _). done. }
  apply H, seq_NoDup.
Qed.

(** Painting cells that are empty adds one block for each occupied
    cell. *)
Lemma paint_cells_count (shape : ShapeMatrix) p (cells : list (nat * nat)) :
  List.NoDup cells →
  ∀ nb : Board,
    wfBoard nb →
    (∀ r c, (r, c) ∈ cells → shapeAt shape r c = true →
       inside (row p + Z.of_nat r) (col p + Z.of_nat c)
       ∧ cellAt nb (Z.to_nat (row p + Z.of_nat r))
                   (Z.to_nat (col p + Z.of_nat c)) = Some Empty) →
    blockCount (foldl (paintCell shape p) nb cells)
    = (blockCount nb
       + length (List.filter (λ rc, shapeAt shape rc.1 rc.2) cells))%nat.
Proof.
  induction cells as [|[r c] cells IH]; intros Hnd nb Hwf Hfree.
  - cbn [foldl List.filter length]. lia.
  - inversion Hnd as [|? ? Hrc Hnd']; subst.
    cbn [foldl List.filter fst snd].
    rewrite IH; [|done|by apply paint_wf|].
    + unfold paintCell at 1. cbn [fst snd]. unfold paint.
      destruct (shapeAt shape r c) eqn:Hocc; cbn [andb length]; [|lia].
      destruct (Hfree r c ltac:(by left) Hocc) as [[[? ?] [? ?]] Hcell].
      rewrite (proj2 (Z.geb_le _ _)), (proj2 (Z.ltb_lt _ _)) by done.
      rewrite (proj2 (Z.geb_le _ _)), (proj2 (Z.ltb_lt _ _)) by done.
      cbn [andb].
      unfold cellAt in Hcell.
      destruct (nb !! Z.to_nat (row p + Z.of_nat r)) as [brow|] eqn:Hbrow;
        [|done].
      cbn in Hcell.
      pose proof (blockCount_insert nb _ brow
                    (<[Z.to_nat (col p + Z.of_nat c) := Block (type p)]> brow)
                    Hbrow) as Hins.
      rewrite (rowCount_insert brow _ (type p) Hcell) in Hins. lia.
    + intros r' c' Hin Hocc'.
      destruct (Hfree r' c' ltac:(by right) Hocc') as [Hins Hcell].
      split; [done|].
      unfold paintCell. cbn [fst snd].
      rewrite paint_cellAt; [|done|unfold inside in Hins; lia
                             |unfold inside in Hins; lia].
      unfold hits.
      destruct (shapeAt shape r c); cbn [andb]; [|done].
      destruct (Z.eqb_spec (row p + Z.of_nat r)
                  (Z.of_nat (Z.to_nat (row p + Z.of_nat r')))) as [Er|];
        [|done].
      destruct (Z.eqb_spec (col p + Z.of_nat c)
                  (Z.of_nat (Z.to_nat (col p + Z.of_nat c')))) as [Ec|];
        [|done].
      exfalso. apply Hrc. unfold inside in Hins.
      assert (r = r') as -> by lia. assert (c = c') as -> by lia.
      by apply list_elem_of_In.
Qed.

(** Every shape of the table has four occupied cells in the window the
    loops scan. *)
Lemma SHAPES_window_count t (n : nat) (shape : ShapeMatrix) (srow0 : list Z) :
  SHAPES t !! n = Some shape → shape !! 0%nat = Some srow0 →
  length (List.filter (λ rc, shapeAt shape rc.1 rc.2)
            (windowCells (length shape) (length srow0))) = 4%nat.
Proof.
  intros Hn Hs0.
  assert (n < 4)%nat as Hlt.
  { apply lookup_lt_Some in Hn. by destruct t. }
  destruct t;
    (destruct n as [|[|[|[|n]]]]; [| | | | lia]);
    injection Hn as <-; injection Hs0 as <-; reflexivity.
Qed.

(** Clearing removes COLS blocks for each full row. *)
Lemma clearRows_count (nb : Board) :
  Forall (λ brow, length brow = Z.to_nat COLS) nb →
  (blockCount (clearRows nb).1
   + Z.to_nat COLS * length (List.filter rowFull nb)
   = blockCount nb)%nat.
Proof.
  unfold clearRows. cbn [fst]. rewrite blockCount_app.
  assert (∀ k, blockCount (replicate k emptyRow) = 0%nat) as Hempty.
  { induction k as [|k IHk]; [done|].
    cbn [replicate]. rewrite blockCount_cons, IHk. reflexivity. }
  rewrite Hempty.
  induction nb as [|brow nb IH]; intros Hall; [done|].
  inversion Hall as [|? ? Hlen Hall']; subst. specialize (IH Hall').
  cbn [List.filter]. rewrite blockCount_cons.
  destruct (rowFull brow) eqn:Hfull; cbn [negb length].
  - assert (rowCount brow = length brow) as Hcount.
    { clear -Hfull. unfold rowFull in Hfull. unfold rowCount.
      induction brow as [|cell brow IHb]; [done|].
      cbn [forallb] in Hfull. apply andb_true_iff in Hfull as [Hc Hf].
      cbn [List.filter]. rewrite Hc. cbn [length]. by rewrite IHb. }
    rewrite Hcount, Hlen. lia.
  - rewrite blockCount_cons. lia.
Qed.

Lemma getShape_in_table t rot (shape : ShapeMatrix) :
  getShape t rot = Some shape → ∃ n, SHAPES t !! n = Some shape.
Proof.
  unfold getShape. destruct (_ <? 0); [discriminate|]. eauto.
Qed.

(** The cells of a piece that fits are inside the playfield and empty. *)
Lemma fits_true_cells (b : Board) (shape : ShapeMatrix) row col :
  wfBoard b → isMatrix shape →
  fits b shape row col = Ret true →
  ∀ r c, occupied shape r c →
    inside (row + Z.of_nat r) (col + Z.of_nat c)
    ∧ cellAt b (Z.to_nat (row + Z.of_nat r)) (Z.to_nat (col + Z.of_nat c))
      = Some Empty.
Proof.
  intros Hwf Hm Hfits r c Hocc.
  destruct (fits_returns b shape row col Hwf Hm) as [[Hf _]|[_ Hno]];
    [congruence|].
  destruct (decide (inside (row + Z.of_nat r) (col + Z.of_nat c)))
    as [Hin|Hout].
  - split; [done|]. destruct Hin as [Hr Hc].
    destruct (wfBoard_lookup b (Z.to_nat (row + Z.of_nat r)) Hwf)
      as (brow & Hbrow & Hlen); [lia|].
    destruct (lookup_lt_is_Some_2 brow (Z.to_nat (col + Z.of_nat c)))
      as [cell Hcell]; [lia|].
    unfold cellAt. rewrite Hbrow. cbn. rewrite Hcell.
    destruct cell as [|t]; [done|].
    exfalso. apply Hno. exists r, c. split; [done|]. right.
    exists t. unfold cellAt. rewrite Hbrow. cbn. done.
  - exfalso. apply Hno. exists r, c. split; [done|]. by left.
Qed.

(** Locking a piece that fits adds its four blocks and removes COLS
    blocks for each line cleared. *)
Lemma lockPiece_count (b : Board) pl (nb : Board) k :
  wfBoard b → 0 <= rotation pl → pieceFits b pl →
  lockPiece b pl = Ret (nb, k) →
  Z.of_nat (blockCount nb) + COLS * k = Z.of_nat (blockCount b) + 4.
Proof.
  intros Hwf Hrot (shape & Hshape & Hfits) Hlock.
  destruct (getShape_defined (type pl) (rotation pl) Hrot)
    as (shape' & Hshape' & Hm & _).
  assert (shape' = shape) as -> by congruence.
  destruct (isMatrix_first shape Hm) as (srow0 & Hs0 & Hall).
  destruct (getShape_in_table _ _ _ Hshape) as [n Hn].
  rewrite (lockPiece_eval b pl shape srow0) in Hlock by done.
  assert (clearRows (stamped b shape (length srow0) pl) = (nb, k)) as Hclear
    by congruence.
  destruct (stamp_eval b shape srow0 pl Hwf Hs0) as [_ [_ Hrows]].
  pose proof (clearRows_count _ Hrows) as Hcount.
  assert (blockCount (stamped b shape (length srow0) pl)
          = (blockCount b + 4)%nat) as Hstamp.
  { rewrite stamped_flat.
    rewrite (paint_cells_count shape pl _ (windowCells_NoDup _ _) b Hwf).
    - by rewrite (SHAPES_window_count (type pl) n shape srow0).
    - intros r c _ Hocc. apply shapeAt_occupied in Hocc.
      by apply (fits_true_cells b shape (row pl) (col pl)). }
  unfold clearRows in Hclear. injection Hclear as Hnb Hk.
  rewrite <- Hnb, <- Hk. unfold clearRows in Hcount. cbn [fst] in Hcount.
  unfold COLS in *. lia.
Qed.

(** The piece a dispatch locks fits the board where it is locked. *)
Lemma lockTarget_fits s a pl :
  reachable s → lockTarget s a = Ret (Some pl) →
  pieceFits (board s) pl ∧ 0 <= rotation pl.
Proof.
  intros Hs Hlt. pose proof (reachable_Inv s Hs) as HI.
  destruct (lockTarget_actions s a pl Hlt) as [Ha Hst].
  destruct (piece s) as [p|] eqn:Hp.
  2: { destruct Ha as [->|[->| ->]]; cbn [lockTarget] in Hlt;
         rewrite Hst, Hp in Hlt; discriminate. }
  destruct Ha as [Ha|[Ha| ->]].
  - assert (pl = p) as ->.
    { subst a. cbn [lockTarget] in Hlt. rewrite Hst, Hp in Hlt.
      destruct (getShape _ _); cbn [defined] in Hlt; [|discriminate].
      rewrite bind_Ret in Hlt.
      destruct (fits _ _ _ _) as [[|]|];
        rewrite ?bind_Ret, ?bind_Fail in Hlt; congruence. }
    split; [by apply (inv_fits s HI) | by apply (inv_rotation s HI)].
  - assert (pl = p) as ->.
    { subst a. cbn [lockTarget] in Hlt. rewrite Hst, Hp in Hlt.
      destruct (getShape _ _); cbn [defined] in Hlt; [|discriminate].
      rewrite bind_Ret in Hlt.
      destruct (fits _ _ _ _) as [[|]|];
        rewrite ?bind_Ret, ?bind_Fail in Hlt; congruence. }
    split; [by apply (inv_fits s HI) | by apply (inv_rotation s HI)].
  - destruct (ghost_row_facts s p Hs Hp)
      as (shape & g & Hshape & _ & [Hle _] & Hfit & _ & Hdrop).
    rewrite (Hdrop Hst) in Hlt. injection Hlt as <-.
    split; [|cbn; by apply (inv_rotation s HI)].
    exists shape. split; [done|]. apply Hfit. cbn. lia.
Qed.

(** X22.  In a game a dispatch that locks a piece adds the four blocks
    of the piece to the board and removes COLS blocks for each line it
    clears. *)
Theorem lock_conserves_blocks (rnd : TetrominoType) (s : GameState)
    (a : GameAction) (pl : PieceState) (s' : GameState) :
  reachable s →
  lockTarget s a = Ret (Some pl) →
  gameReducer rnd s a = Ret s' →
  Z.of_nat (blockCount (board s')) + COLS * lastClearedLines s'
  = Z.of_nat (blockCount (board s)) + 4.
Proof.
  intros Hs Hlt Hstep.
  destruct (lockTarget_fits s a pl Hs Hlt) as [Hfit Hrot].
  pose proof (lock_dispatch rnd s a pl s' Hlt Hstep) as Hlock.
  apply lockAndSpawn_inv in Hlock as (nb & k & Hlock & Hb & Hk & _).
  rewrite Hb, Hk.
  by apply (lockPiece_count (board s) pl nb k
              (inv_board s (reachable_Inv s Hs)) Hrot Hfit).
Qed.

(** The hard drop that ends [oneLineGame]: 8 blocks before, 4 more and
    10 fewer after. *)
Lemma lock_conserves_blocks_witness :
  let s := stateAfter (take 12 oneLineGame)
             (createInitialState TetrominoType.I) in
  let s' := stateAfter oneLineGame (createInitialState TetrominoType.I) in
  (blockCount (board s) = 8%nat ∧ blockCount (board s') = 2%nat)
  ∧ Z.of_nat (blockCount (board s')) + COLS * lastClearedLines s'
    = Z.of_nat (blockCount (board s)) + 4.
Proof.
  intros s s'. split; [split; vm_compute; reflexivity|].
  apply (lock_conserves_blocks TetrominoType.T s hard_drop
           {| type := TetrominoType.O; row := 18; col := 8; rotation := 0 |}
           s').
  - apply stateAfter_reachable, reach_init.
  - vm_compute. reflexivity.
  - vm_compute. reflexivity.
Defined.

(** Every state of a game has a count of locked pieces. *)
Lemma reachable_played s : reachable s → ∃ n, played s n.
Proof.
  induction 1 as [rnd|rnd s a s' Hs [n IH] Hstep].
  - exists 0%nat. constructor.
  - destruct (decide (a = restart)) as [->|Ha].
    { exists 0%nat. by apply (played_restart rnd s n). }
    destruct (lockTarget_returns rnd s a s' Hstep) as [[pl|] Hlt].
    + exists (S n). by apply (played_lock rnd s n a pl).
    + exists n. by apply (played_step rnd s n a).
Qed.

Lemma played_reachable s n : played s n → reachable s.
Proof. induction 1; eauto using reachable. Qed.

(** The blocks on the board and the lines cleared account for the
    pieces locked. *)
Lemma played_blocks s n :
  played s n →
  Z.of_nat (blockCount (board s)) + COLS * linesCleared s = 4 * Z.of_nat n.
Proof.
  induction 1 as [rnd|rnd s n s' Hs IH Hstep|rnd s n a pl s' Hs IH Hlt Hstep
                 |rnd s n a s' Hs IH Ha Hlt Hstep].
  - reflexivity.
  - cbn [gameReducer] in Hstep. injection Hstep as <-. reflexivity.
  - pose proof (played_reachable s n Hs) as Hr.
    pose proof (reachable_Inv s Hr) as HI.
    destruct (lockTarget_fits s a pl Hr Hlt) as [Hfit Hrot].
    pose proof (lock_dispatch rnd s a pl s' Hlt Hstep) as Hlock.
    apply lockAndSpawn_inv in Hlock
      as (nb & k & Hlock & Hb & _ & _ & Hli & _).
    pose proof (lockPiece_count (board s) pl nb k (inv_board s HI)
                  Hrot Hfit Hlock) as Hc.
    rewrite Hb, Hli. lia.
  - destruct (no_lock_dispatch rnd s a s' Hlt Hstep)
      as [[-> _]|(-> & _ & -> & _)]; [done|exact IH].
Qed.

(** X23.  In every state of a game the blocks on the board plus COLS
    blocks for each line cleared so far are four times the number of
    pieces locked since the game began: the state has such a number,
    and the equation holds of every number of locked pieces a history
    of the state gives. *)
Theorem blocks_account_for_pieces (s : GameState) :
  reachable s →
  (∃ n, played s n)
  ∧ ∀ n, played s n →
      Z.of_nat (blockCount (board s)) + COLS * linesCleared s
      = 4 * Z.of_nat n.
Proof.
  intros Hs. split; [by apply reachable_played|].
  intros n. apply played_blocks.
Qed.

(** After [nineLineGame]: 2 blocks, 9 lines, 23 pieces. *)
Lemma blocks_account_for_pieces_witness :
  let s := stateAfter nineLineGame (createInitialState TetrominoType.I) in
  (blockCount (board s) = 2%nat ∧ linesCleared s = 9)
  ∧ played s 23.
Proof.
  intros s.
  assert (blockCount (board s) = 2%nat ∧ linesCleared s = 9) as Hc
    by (split; vm_compute; reflexivity).
  split; [exact Hc|].
  destruct (blocks_account_for_pieces s) as [[n Hn] Heq].
  { apply stateAfter_reachable, reach_init. }
  specialize (Heq n Hn). destruct Hc as [Hb Hl]. rewrite Hb, Hl in Heq.
  assert (n = 23%nat) as <- by (change COLS with 10 in Heq; lia).
  exact Hn.
Defined.
